(** * RTP: session lifecycle and UDP relay engine

    A shallow embedding of

    - [proxies/udp.go]        (the UDP relay, its two workers and the
                               relay-pair allocator),
    - [protocols/session.go]  (the keyed session registry and its stop gate),
    - the AMP-to-RTSP proxy   (package [proxies]: [HandleRequest],
                               [StopServer], [startSession], [stopSession],
                               [cleanupSession], [observe]),
    - package [load]          ([handleLoad], [addPacket]),

    together with the properties of the design document that concern them
    and with further properties of the code (numbered X1, X2, ...).

    Conventions.  A Go [error] is represented by its message.  A Go [int] is
    an integer of 64 bits: arithmetic on it is written with [Go.int_add],
    which wraps.  Pointers ([*UdpProxy], [*SessionBase]) are indices into an
    explicit heap, so that two holders of one pointer see one object.  A
    function that may not return (a loop, a send on a full channel) returns
    an [option]; [None] stands for "no result". *)

From stdpp Require Import gmap strings list fin_maps pretty.
From Stdlib Require Import Ascii ZArith Lia.

Open Scope Z_scope.

(* ===================================================================== *)
(** * Go runtime and standard library, as far as the sources use them     *)
(* ===================================================================== *)

Module Go.

(** An [error] value, identified with the text of [err.Error()]. *)
Definition error : Type := string.

Definition max_int : Z := 2 ^ 63 - 1.
Definition min_int : Z := - 2 ^ 63.

(** Two's-complement wrap-around of a 64-bit [int]. *)
Definition wrap (z : Z) : Z := (z + 2 ^ 63) mod 2 ^ 64 - 2 ^ 63.

Definition int_add (a b : Z) : Z := wrap (a + b).

(** [strconv.Itoa], also the [%v] rendering of an [int]. *)
Definition Itoa (z : Z) : string := pretty z.

(** [strings.IndexByte(s, c) >= 0]. *)
Fixpoint has_byte (c : ascii) (s : string) : bool :=
  match s with
  | EmptyString => false
  | String a s' => if Ascii.eqb a c then true else has_byte c s'
  end.

(** [net.JoinHostPort]: a host with a colon is taken to be an IPv6
    literal and is put in brackets. *)
Definition JoinHostPort (host port : string) : string :=
  if has_byte ":"%char host
  then "[" +:+ host +:+ "]:" +:+ port
  else host +:+ ":" +:+ port.

(** A buffered channel is represented by the number of values it holds.
    A send on a full channel blocks: no result. *)
Definition chan_send (capacity len : nat) : option nat :=
  if (len <? capacity)%nat then Some (S len) else None.

End Go.

(* ===================================================================== *)
(** * proxies/udp.go                                                      *)
(* ===================================================================== *)

Module Udp.

Import Go.

(** [net.UDPAddr] (the zone is not used by the sources). *)
Record UDPAddr := mkUDPAddr { IP : string; Port : Z }.

(** An open socket of the process: bound to a local address by
    [net.ListenUDP], or connected to a peer by [net.DialUDP]. *)
Inductive Conn :=
| ListenConn (local : UDPAddr)
| DialConn (peer : UDPAddr).

(** The [net] package and the operating system behind it are
    collaborators of the relay; their answers are parameters. *)
Record NetEnv := mkNetEnv {
  ResolveUDPAddr : string -> error + UDPAddr;
  (** [None]: binding succeeds in the given socket table. *)
  listen_err : gmap nat Conn -> UDPAddr -> option error;
  dial_err : gmap nat Conn -> UDPAddr -> option error
}.

(** Modelled from the spec: the statistics sink of package [stats], of
    which the relay uses the constructor and [Stop]
    ("a statistics sink with recordNow(byteCount) and stop()"). *)
Record Stats := mkStats { stats_name : string; stats_stopped : bool }.

Definition NewStats (name : string) : Stats := mkStats name false.
Definition Stats_Stop (s : Stats) : Stats := mkStats (stats_name s) true.

Definition buf_packets : nat := 128.

(** [type UdpProxy struct].  [listenConn] and [targetConn] are
    descriptors into the socket table; [closeOnce] is the done flag of
    the [sync.Once]; [proxyClosed] is the channel of capacity 1 and
    [packets] the channel of capacity [buf_packets], each given by the
    number of values queued. *)
Record UdpProxy := mkUdpProxy {
  listenConn : nat;
  listenAddr : UDPAddr;
  targetConn : nat;
  targetAddr : UDPAddr;
  closeOnce : bool;
  proxyClosed : nat;
  packets : nat;
  Closed : bool;
  Err : option error;
  Stats_ : Stats
}.

Definition set_closeOnce (b : bool) (p : UdpProxy) : UdpProxy :=
  mkUdpProxy (listenConn p) (listenAddr p) (targetConn p) (targetAddr p)
    b (proxyClosed p) (packets p) (Closed p) (Err p) (Stats_ p).
Definition set_proxyClosed (n : nat) (p : UdpProxy) : UdpProxy :=
  mkUdpProxy (listenConn p) (listenAddr p) (targetConn p) (targetAddr p)
    (closeOnce p) n (packets p) (Closed p) (Err p) (Stats_ p).
Definition set_Closed (b : bool) (p : UdpProxy) : UdpProxy :=
  mkUdpProxy (listenConn p) (listenAddr p) (targetConn p) (targetAddr p)
    (closeOnce p) (proxyClosed p) (packets p) b (Err p) (Stats_ p).
Definition set_Err (e : option error) (p : UdpProxy) : UdpProxy :=
  mkUdpProxy (listenConn p) (listenAddr p) (targetConn p) (targetAddr p)
    (closeOnce p) (proxyClosed p) (packets p) (Closed p) e (Stats_ p).
Definition set_Stats (s : Stats) (p : UdpProxy) : UdpProxy :=
  mkUdpProxy (listenConn p) (listenAddr p) (targetConn p) (targetAddr p)
    (closeOnce p) (proxyClosed p) (packets p) (Closed p) (Err p) s.

(** The part of the process state the relays live in: the table of open
    sockets, keyed by descriptor, and the heap of [UdpProxy] objects (a
    [*UdpProxy] is an index into [proxies]). *)
Record World := mkWorld {
  socks : gmap nat Conn;
  proxies : list UdpProxy
}.

Definition empty_world : World := mkWorld ∅ [].

(** A new socket gets a descriptor that is not in use. *)
Definition next_fd (w : World) : nat := fresh (dom (socks w)).

Definition open_sock (c : Conn) (w : World) : World :=
  mkWorld (<[next_fd w := c]> (socks w)) (proxies w).

(** [conn.Close()]; the error of closing twice is ignored by the callers. *)
Definition close_sock (fd : nat) (w : World) : World :=
  mkWorld (delete fd (socks w)) (proxies w).

Definition alloc_proxy (p : UdpProxy) (w : World) : World :=
  mkWorld (socks w) (proxies w ++ [p]).

Definition store_proxy (l : nat) (p : UdpProxy) (w : World) : World :=
  mkWorld (socks w) (<[l := p]> (proxies w)).

Section WithEnv.

Variable env : NetEnv.

(** [func NewUdpProxy(listenAddr, targetAddr string)], returning a
    [*UdpProxy] or an error. *)
Definition NewUdpProxy (listenAddr_ targetAddr_ : string) (w : World)
  : World * (error + nat) :=
  match ResolveUDPAddr env listenAddr_ with
  | inl err => (w, inl err)
  | inr listenUDP =>
    match ResolveUDPAddr env targetAddr_ with
    | inl err => (w, inl err)
    | inr targetUDP =>
      match listen_err env (socks w) listenUDP with
      | Some err => (w, inl err)
      | None =>
        let lfd := next_fd w in
        let w1 := open_sock (ListenConn listenUDP) w in
        match dial_err env (socks w1) targetUDP with
        | Some err => (close_sock lfd w1, inl err)
        | None =>
          let tfd := next_fd w1 in
          let w2 := open_sock (DialConn targetUDP) w1 in
          let p := mkUdpProxy lfd listenUDP tfd targetUDP false 0 0 false None
                     (NewStats ("UDP Proxy " +:+ listenAddr_)) in
          (alloc_proxy p w2, inr (length (proxies w2)))
        end
      end
    end
  end.

(** The function handed to [closeOnce.Do] in [doclose]. *)
Definition doclose_body (l : nat) (err : option error) (w : World) : option World :=
  p ← proxies w !! l;
  let w1 := close_sock (listenConn p) w in
  let w2 := close_sock (targetConn p) w1 in
  let p1 := set_Closed true (set_Err err p) in
  n ← chan_send 1 (proxyClosed p1);
  let p2 := set_proxyClosed n p1 in
  let p3 := set_Stats (Stats_Stop (Stats_ p2)) p2 in
  Some (store_proxy l p3 w2).

(** [sync.Once.Do] on the [closeOnce] of relay [l]: runs [f] unless the
    done flag is set, and sets the flag when [f] has returned. *)
Definition closeOnce_Do (l : nat) (f : World -> option World) (w : World)
  : option World :=
  p ← proxies w !! l;
  if closeOnce p then Some w
  else
    w' ← f w;
    p' ← proxies w' !! l;
    Some (store_proxy l (set_closeOnce true p') w').

(** [func (proxy *UdpProxy) doclose(err error)] *)
Definition doclose (l : nat) (err : option error) (w : World) : option World :=
  closeOnce_Do l (doclose_body l err) w.

(** [func (proxy *UdpProxy) Close()] *)
Definition Close (l : nat) (w : World) : option World := doclose l None w.

(** [func (proxy *UdpProxy) ProxyClosed() <-chan interface{}], read as
    the number of notifications waiting in the channel. *)
Definition ProxyClosed (l : nat) (w : World) : option nat :=
  proxyClosed <$> proxies w !! l.

Definition range_error (startPort maxPort : Z) : error :=
  "Failed to allocate UDP proxy pair in port range "
    +:+ Itoa startPort +:+ "-" +:+ Itoa maxPort.

(** The values of the named results [(proxy1, proxy2, err)]. *)
Definition PairResult : Type := option nat * option nat * option error.

(** The [for] loop of [NewUdpProxyPair].  [proxy2] is the current
    value of the named result, [fuel] bounds the iterations. *)
Fixpoint NewUdpProxyPair_loop (fuel : nat) (listenHost target1 target2 : string)
    (startPort maxPort : Z) (proxy2 : option nat) (w : World)
  : option (World * PairResult) :=
  match fuel with
  | O => None
  | S fuel' =>
    let addr1 := JoinHostPort listenHost (Itoa startPort) in
    let '(w1, r1) := NewUdpProxy addr1 target1 w in
    let next (proxy1 proxy2' : option nat) (err : error) (w' : World) :=
      let startPort' := int_add startPort 2 in
      if startPort' >? maxPort
      then Some (w', (proxy1, proxy2', Some (range_error startPort' maxPort)))
      else NewUdpProxyPair_loop fuel' listenHost target1 target2
             startPort' maxPort proxy2' w' in
    match r1 with
    | inr p1 =>
      let addr2 := JoinHostPort listenHost (Itoa (int_add startPort 1)) in
      let '(w2, r2) := NewUdpProxy addr2 target2 w1 in
      match r2 with
      | inr p2 => Some (w2, (Some p1, Some p2, None))
      | inl err =>
        w3 ← Close p1 w2;
        next (Some p1) None err w3
      end
    | inl err => next None proxy2 err w1
    end
  end.

(** [func NewUdpProxyPair(listenHost, target1, target2 string,
                          startPort, maxPort int)] *)
Definition NewUdpProxyPair (fuel : nat) (listenHost target1 target2 : string)
    (startPort maxPort : Z) (w : World) : option (World * PairResult) :=
  NewUdpProxyPair_loop fuel listenHost target1 target2 startPort maxPort None w.

End WithEnv.

(** A sequence of close requests on one relay, in the order in which
    the [sync.Once] admits them: [None] is [Close()], [Some e] is
    [doclose(e)] from a worker whose read or write failed with [e]. *)
Fixpoint docloses (l : nat) (errs : list (option error)) (w : World) : option World :=
  match errs with
  | [] => Some w
  | e :: errs' => w' ← doclose l e w; docloses l errs' w'
  end.

(** Relay [l] as [NewUdpProxy] leaves it: not closed, nothing in the
    notification channel, both sockets in the table. *)
Definition live (l : nat) (w : World) : Prop :=
  ∃ p, proxies w !! l = Some p
       ∧ closeOnce p = false ∧ Closed p = false ∧ proxyClosed p = 0%nat
       ∧ listenConn p ≠ targetConn p
       ∧ socks w !! listenConn p = Some (ListenConn (listenAddr p))
       ∧ socks w !! targetConn p = Some (DialConn (targetAddr p)).

(** Relay [l] after its shutdown: marked closed, one notification sent,
    neither socket in the table any more. *)
Definition closed (l : nat) (w : World) : Prop :=
  ∃ p, proxies w !! l = Some p
       ∧ closeOnce p = true ∧ Closed p = true ∧ proxyClosed p = 1%nat
       ∧ stats_stopped (Stats_ p) = true
       ∧ socks w !! listenConn p = None
       ∧ socks w !! targetConn p = None.

(** The relay [p] after the body of [doclose(err)] has run on it. *)
Definition shut (err : option error) (p : UdpProxy) : UdpProxy :=
  mkUdpProxy (listenConn p) (listenAddr p) (targetConn p) (targetAddr p)
    true 1 (packets p) true err (Stats_Stop (Stats_ p)).

(** Number of attempts the scan makes at most, from [startPort] up to
    [maxPort] in steps of two: one in any case. *)
Definition attempts (startPort maxPort : Z) : nat :=
  Z.to_nat (Z.max 1 ((maxPort - startPort) / 2 + 1)).

(** What an allocation that started with the socket table [before] may
    end with: two distinct live relays and their four sockets on top of
    [before], or an error and the table as it was. *)
Definition pair_outcome (before : gmap nat Conn) (w' : World) (res : PairResult) : Prop :=
  (∃ l1 l2 p1 p2,
      res = (Some l1, Some l2, None) ∧ l1 ≠ l2
      ∧ live l1 w' ∧ live l2 w'
      ∧ proxies w' !! l1 = Some p1 ∧ proxies w' !! l2 = Some p2
      ∧ before ⊆ socks w'
      ∧ dom (socks w') =
          dom before ∪ {[listenConn p1; targetConn p1; listenConn p2; targetConn p2]}
      ∧ size (socks w') = (size before + 4)%nat)
  ∨ (∃ proxy1 e, res = (proxy1, None, Some e) ∧ socks w' = before).

End Udp.

(* ===================================================================== *)
(** * protocols/session.go                                                *)
(* ===================================================================== *)

Module Sessions.

Import Go.

(** Modelled from the spec: [helpers.Observee], "a unit of work whose
    completion can be awaited and which can be asked to stop".  The
    registry only calls its [Stop]; an observee is known by its name. *)
Definition Observee : Type := string.

(** [type Session interface { Start(); Observees() []helpers.Observee;
    Cleanup() }].  The methods are code of the user of the registry.
    None of them returns a value except [Observees]; what the registry
    does with a session is the sequence of calls it makes on it, which
    is recorded in a trace.  The user holds the [*SessionBase] that
    [NewSession] has returned, and its field [CleanupErr] is exported:
    the code behind a call can assign it.  [Stop_stores o] is what
    [Stop()] of the observee [o], or the work it winds up before
    [Wg.Wait()] returns, assigns to [CleanupErr] of the entry,
    [Cleanup_stores] what [Cleanup()] assigns to it; [None] stands for
    no assignment.  [Start()] runs before [NewSession] has returned the
    pointer. *)
Record Session := mkSession {
  session_name : string;
  Observees : list Observee;
  Stop_stores : Observee -> option (option error);
  Cleanup_stores : option (option error)
}.

(** The field after an assignment, if there is one. *)
Definition store (assigned : option (option error)) (v : option error)
  : option error :=
  default v assigned.

(** [CleanupErr] after the user code that the gate body calls has run on
    an entry whose field held [v]: [Stop()] of every observee, in the
    order of [Observees()], then [Cleanup()]. *)
Definition stored (s : Session) (v : option error) : option error :=
  store (Cleanup_stores s)
    (foldl (λ v o, store (Stop_stores s o) v) v (Observees s)).

(** The calls the registry makes on a session, on its observees and on
    the wait group of the entry. *)
Inductive Call :=
| CallStart
| CallObserveeStop (o : Observee)
| CallWgWait
| CallCleanup.

Global Instance Call_eq_dec : EqDecision Call.
Proof. solve_decision. Defined.

(** A call, tagged with the [*SessionBase] on whose behalf it is made. *)
Definition Event : Type := nat * Call.

(** Modelled from the spec: [helpers.OneshotCondition], the one-shot stop
    gate, "an exactly-once-triggered shutdown coordinator guarding a
    cleanup routine", an "atomic state transition from armed to fired
    guarding the cleanup body". *)
Record OneshotCondition := mkOneshot { enabled : bool }.

Definition NewOneshotCondition : OneshotCondition := mkOneshot false.

Definition Enabled (c : OneshotCondition) : bool := enabled c.

(** [type SessionBase struct].  The wait group [Wg] is shared with the
    observees, which are opaque: [base.Wg.Wait()] appears as the call
    [CallWgWait], made when it returns. *)
Record SessionBase := mkSessionBase {
  Stopped : OneshotCondition;
  CleanupErr : option error;
  session : Session
}.

Section WithKey.

Context {K : Type} `{Countable K}.

(** The [%v] rendering of a key. *)
Variable fmt_key : K -> string.

(** The registry and what it points to: the heap of [SessionBase]
    objects (a [*SessionBase] is an index), the map
    [type Sessions map[interface{}]*SessionBase], the goroutines
    started by [observe] that are still blocked in
    [helpers.WaitForAnyObservee], and the trace of calls. *)
Record State := mkState {
  heap : list SessionBase;
  sessions : gmap K nat;
  watchers : list nat;
  trace : list Event
}.

Definition empty_state : State := mkState [] ∅ [] [].

Definition emit (evs : list Event) (st : State) : State :=
  mkState (heap st) (sessions st) (watchers st) (trace st ++ evs).

Definition set_sessions (m : gmap K nat) (st : State) : State :=
  mkState (heap st) m (watchers st) (trace st).

Definition set_watchers (ws : list nat) (st : State) : State :=
  mkState (heap st) (sessions st) ws (trace st).

Definition store_base (l : nat) (b : SessionBase) (st : State) : State :=
  mkState (<[l := b]> (heap st)) (sessions st) (watchers st) (trace st).

(** The function handed to [Stopped.Enable] in [Stop]: the calls it
    makes, and the state after them.  The function itself assigns no
    field of the entry; [CleanupErr] is what the user code behind the
    calls has left in it. *)
Definition stop_calls (s : Session) : list Call :=
  (CallObserveeStop <$> Observees s) ++ [CallWgWait; CallCleanup].

Definition Stop_body (l : nat) (st : State) : option State :=
  base ← heap st !! l;
  Some (store_base l
          (mkSessionBase (Stopped base) (stored (session base) (CleanupErr base))
             (session base))
          (emit (pair l <$> stop_calls (session base)) st)).

(** Modelled from the spec: [OneshotCondition.Enable(perform)] on the
    gate of entry [l], "guaranteed to execute its body exactly once
    regardless of how many callers race to fire it": one atomic step
    that does nothing on a fired gate and otherwise runs [perform] and
    leaves the gate fired. *)
Definition Enable (l : nat) (perform : State -> option State) (st : State)
  : option State :=
  base ← heap st !! l;
  if enabled (Stopped base) then Some st
  else
    st' ← perform st;
    base' ← heap st' !! l;
    Some (store_base l
            (mkSessionBase (mkOneshot true) (CleanupErr base') (session base')) st').

(** [func (base *SessionBase) Stop()] *)
Definition Stop (l : nat) (st : State) : option State :=
  Enable l (Stop_body l) st.

(** [func (base *SessionBase) observe()]: with at least one observee, a
    goroutine is started that waits for any of them and then calls
    [base.Stop()]. *)
Definition observe (l : nat) (st : State) : option State :=
  base ← heap st !! l;
  if (length (Observees (session base)) <? 1)%nat then Some st
  else Some (set_watchers (watchers st ++ [l]) st).

(** Takes one goroutine waiting for [l] out of the list of watchers. *)
Fixpoint remove_first (l : nat) (ws : list nat) : option (list nat) :=
  match ws with
  | [] => None
  | w :: ws' =>
    if decide (w = l) then Some ws'
    else cons w <$> remove_first l ws'
  end.

(** The goroutine of [observe] for [l] resumes: an observee has
    finished, [helpers.WaitForAnyObservee] returns, [base.Stop()]. *)
Definition watcher_fires (l : nat) (st : State) : option State :=
  ws ← remove_first l (watchers st);
  Stop l (set_watchers ws st).

(** [func (sessions Sessions) NewSession(key, session) *SessionBase] *)
Definition NewSession (key : K) (s : Session) (st : State) : option (State * nat) :=
  let base := mkSessionBase NewOneshotCondition None s in
  let l := length (heap st) in
  let st1 := mkState (heap st ++ [base]) (<[key := l]> (sessions st))
               (watchers st) (trace st) in
  st2 ← observe l st1;
  Some (emit [(l, CallStart)] st2, l).

(** [func (sessions Sessions) Get(key) Session] *)
Definition Get (key : K) (st : State) : option Session :=
  l ← sessions st !! key;
  session <$> heap st !! l.

Definition not_found_error (key : K) : error :=
  "No session found for " +:+ fmt_key key.

Definition premature_error (cleanupErr : option error) : error :=
  "Session stopped prematurely: " +:+
    match cleanupErr with
    | None => "(no error)"
    | Some e => e
    end.

(** [func (sessions Sessions) StopSession(key) error] *)
Definition StopSession (key : K) (st : State) : option (State * option error) :=
  match sessions st !! key with
  | None => Some (st, Some (not_found_error key))
  | Some l =>
    base ← heap st !! l;
    '(st1, err) ←
      (if Enabled (Stopped base)
       then Some (st, Some (premature_error (CleanupErr base)))
       else
         st' ← Stop l st;
         base' ← heap st' !! l;
         Some (st', CleanupErr base'));
    Some (set_sessions (delete key (sessions st1)) st1, err)
  end.

(** ** Interleavings

    Callers of the registry run concurrently with the goroutines of
    [observe].  A caller is a thread with a program counter; each step
    is one access to the shared state: a map lookup, a test of the
    gate, a call of [Enable] (atomic, see above), a read of a field, a
    map delete. *)
Inductive Thread :=
| TStop (l : nat)
    (** about to call [base.Stop()] on a [*SessionBase] it holds *)
| TStopSession (key : K)
    (** in [StopSession(key)], about to look [key] up *)
| TStopSession_check (key : K) (l : nat)
    (** about to test [session.Stopped.Enabled()] *)
| TStopSession_premature (key : K) (l : nat)
    (** about to read [session.CleanupErr] for the message *)
| TStopSession_fire (key : K) (l : nat)
    (** about to call [session.Stop()] *)
| TStopSession_read (key : K) (l : nat)
    (** about to read [err = session.CleanupErr] *)
| TStopSession_delete (key : K) (err : option error)
    (** about to [delete(sessions, key)] and return [err] *)
| TDone (ret : option error).

Definition thread_step (t : Thread) (st : State) : option (Thread * State) :=
  match t with
  | TStop l => st' ← Stop l st; Some (TDone None, st')
  | TStopSession key =>
    match sessions st !! key with
    | None => Some (TDone (Some (not_found_error key)), st)
    | Some l => Some (TStopSession_check key l, st)
    end
  | TStopSession_check key l =>
    base ← heap st !! l;
    if Enabled (Stopped base)
    then Some (TStopSession_premature key l, st)
    else Some (TStopSession_fire key l, st)
  | TStopSession_premature key l =>
    base ← heap st !! l;
    Some (TStopSession_delete key (Some (premature_error (CleanupErr base))), st)
  | TStopSession_fire key l =>
    st' ← Stop l st; Some (TStopSession_read key l, st')
  | TStopSession_read key l =>
    base ← heap st !! l;
    Some (TStopSession_delete key (CleanupErr base), st)
  | TStopSession_delete key err =>
    Some (TDone err, set_sessions (delete key (sessions st)) st)
  | TDone _ => None
  end.

(** One step of the system: a caller makes a step, or a blocked
    watcher resumes. *)
Inductive step : list Thread * State -> list Thread * State -> Prop :=
| step_thread pool st i t t' st' :
    pool !! i = Some t ->
    thread_step t st = Some (t', st') ->
    step (pool, st) (<[i := t']> pool, st')
| step_watcher pool st l st' :
    watcher_fires l st = Some st' ->
    step (pool, st) (pool, st').

(** The same, as a function of the scheduler's choice. *)
Inductive Choice :=
| RunThread (i : nat)
| RunWatcher (l : nat).

Definition sched_step (c : Choice) (cfg : list Thread * State)
  : option (list Thread * State) :=
  match c with
  | RunThread i =>
    t ← cfg.1 !! i;
    '(t', st') ← thread_step t cfg.2;
    Some (<[i := t']> cfg.1, st')
  | RunWatcher l =>
    st' ← watcher_fires l cfg.2;
    Some (cfg.1, st')
  end.

Fixpoint run (cs : list Choice) (cfg : list Thread * State)
  : option (list Thread * State) :=
  match cs with
  | [] => Some cfg
  | c :: cs' => cfg' ← sched_step c cfg; run cs' cfg'
  end.

(** Whether an error is the "stopped prematurely" one. *)
Definition is_premature (e : error) : bool :=
  String.prefix "Session stopped prematurely" e.

(** The calls made on behalf of entry [l]. *)
Definition calls_of (l : nat) (tr : list Event) : list Call :=
  snd <$> filter (λ e, e.1 = l) tr.

(** How often the cleanup callback has been called for entry [l]. *)
Definition cleanups (l : nat) (tr : list Event) : nat :=
  length (filter (λ c, c = CallCleanup) (calls_of l tr)).

(** The entry after a call of [Stop()]: as it was if its gate had fired
    before, and otherwise with the gate fired and in [CleanupErr] what
    the user code called by the gate body has left there. *)
Definition fired (base : SessionBase) : SessionBase :=
  if enabled (Stopped base) then base
  else mkSessionBase (mkOneshot true) (stored (session base) (CleanupErr base))
         (session base).

(** The callers that race for the gate of the entry [l] registered
    under [key]: holders of the pointer, and stop requests for [key]. *)
Definition trigger (key : K) (l : nat) (t : Thread) : Prop :=
  t = TStop l ∨ t = TStopSession key.

(** What a caller on its way through [StopSession(key)] or [Stop()]
    knows; [gate] is the current state of the gate of [l]. *)
Definition thread_inv (key : K) (l : nat) (gate : bool) (t : Thread) : Prop :=
  match t with
  | TStop l' => l' = l
  | TStopSession k => k = key
  | TStopSession_check k l' | TStopSession_fire k l' => k = key ∧ l' = l
  | TStopSession_premature k l' | TStopSession_read k l' =>
    k = key ∧ l' = l ∧ gate = true
  | TStopSession_delete k _ => k = key ∧ gate = true
  | TDone _ => gate = true
  end.

(** The invariant of the race for the gate of [l]: [before] is the
    trace when the race starts, [s] the session of the entry. *)
Definition gate_inv (key : K) (l : nat) (s : Session) (before : list Event)
    (cfg : list Thread * State) : Prop :=
  ∃ base extra,
    heap cfg.2 !! l = Some base
    ∧ session base = s
    ∧ trace cfg.2 = before ++ extra
    ∧ calls_of l extra = (if enabled (Stopped base) then stop_calls s else [])
    ∧ (sessions cfg.2 !! key = Some l
       ∨ (sessions cfg.2 !! key = None ∧ enabled (Stopped base) = true))
    ∧ Forall (thread_inv key l (enabled (Stopped base))) cfg.1
    ∧ (Observees s ≠ [] → l ∈ watchers cfg.2 ∨ enabled (Stopped base) = true).

(** The error of the cleanup callback.  [Cleanup()] has no result: the
    one way it has to report an error to the registry is to assign it to
    [CleanupErr]; a callback that assigns nothing reports none. *)
Definition cleanup_error (s : Session) : option error :=
  default None (Cleanup_stores s).

(** The claim of the design document about the gate body: the error of
    the cleanup callback is what a firing stop request returns and what
    the entry holds afterwards. *)
Definition gate_captures (key : K) (st : State) : Prop :=
  ∀ l base st' err,
    sessions st !! key = Some l →
    heap st !! l = Some base →
    Enabled (Stopped base) = false →
    StopSession key st = Some (st', err) →
    err = cleanup_error (session base)
    ∧ (CleanupErr <$> heap st' !! l) = Some (cleanup_error (session base)).

End WithKey.

Global Arguments State K {_ _}.
Global Arguments Thread K : clear implicits.

End Sessions.

(* ===================================================================== *)
(** * The AMP-to-RTSP proxy (package proxies)                             *)
(* ===================================================================== *)

Module Amp.

Import Go Udp.

Definition minPort : Z := 20000.
Definition maxPort : Z := 50000.

(** The scan from [minPort] to [maxPort] makes at most this many
    attempts (see [UdpFacts.NewUdpProxyPair_loop_returns]). *)
Definition pair_fuel : nat := attempts minPort maxPort.

(** Modelled from the spec: the values of package [amp],
    "StartSession{receiverHost, port, mediaFile}" and
    "StopSession{receiverHost, port}". *)
Record StartSessionValue := mkStartSession {
  ReceiverHost : string;
  Port_ : Z;
  MediaFile : string
}.

Record StopSessionValue := mkStopSession {
  StopReceiverHost : string;
  StopPort : Z
}.

(** Modelled from the spec: [rtpClient.RtspClient], "a backend
    control-session client with operations: start(mediaURL,
    localReceivePort, logDestination), stop(), an observation point
    signaling completion".  The record keeps what it was started with
    and whether [Stop] has been called on it. *)
Record RtspClient := mkRtspClient {
  rtsp_url : string;
  rtsp_port : Z;
  rtsp_logfile : string;
  rtsp_stopped : bool
}.

Definition RtspClient_Stop (c : RtspClient) : RtspClient :=
  mkRtspClient (rtsp_url c) (rtsp_port c) (rtsp_logfile c) true.

(** [type proxySession struct]; [backend], [rtpProxy] and [rtcpProxy]
    are pointers.  A [proxySession] is not changed once it is built, so
    the map and the watcher hold it by value. *)
Record proxySession := mkProxySession {
  backend : nat;
  rtpProxy : nat;
  rtcpProxy : nat;
  port : Z;
  mediaFile : string;
  client : string
}.

Global Instance proxySession_eq_dec : EqDecision proxySession.
Proof. solve_decision. Defined.

(** The collaborators: the network, [url.URL.ResolveReference] followed
    by [String()], and [rtpClient.StartRtspClient], which answers with an
    error or starts a client. *)
Record AmpEnv := mkAmpEnv {
  net : NetEnv;
  media_url : string -> string -> string;
  rtsp_start_err : list RtspClient -> string -> Z -> string -> option error
}.

(** The fields of [type AmpProxy struct] that are set at construction:
    the base URL, the host the relays listen on, and whether the two
    optional callbacks are set. *)
Record Config := mkConfig {
  rtspURL : string;
  proxyHost : string;
  RtspStartedCallback : bool;
  RtspEndedCallback : bool
}.

Inductive HookCall :=
| HookStarted (rtsp : nat)
| HookEnded (rtsp : nat).

(** The state of the proxy: the relays and their sockets, the heap of
    backend clients, the map [sessions map[string]*proxySession], the
    goroutines of [observe] that still wait for their backend, and the
    calls made to the callbacks. *)
Record State := mkState {
  world : World;
  backends : list RtspClient;
  sessions : gmap string proxySession;
  watchers : list proxySession;
  hook_calls : list HookCall
}.

Definition empty_state : State := mkState empty_world [] ∅ [] [].

Definition set_world (w : World) (st : State) : State :=
  mkState w (backends st) (sessions st) (watchers st) (hook_calls st).

Definition set_backends (bs : list RtspClient) (st : State) : State :=
  mkState (world st) bs (sessions st) (watchers st) (hook_calls st).

Definition set_sessions (m : gmap string proxySession) (st : State) : State :=
  mkState (world st) (backends st) m (watchers st) (hook_calls st).

Definition set_watchers (ws : list proxySession) (st : State) : State :=
  mkState (world st) (backends st) (sessions st) ws (hook_calls st).

Definition add_hook_call (h : HookCall) (st : State) : State :=
  mkState (world st) (backends st) (sessions st) (watchers st) (hook_calls st ++ [h]).

Section WithEnv.

Variable env : AmpEnv.
Variable cfg : Config.

(** [func (proxy *AmpProxy) cleanupSession(session *proxySession)] *)
Definition cleanupSession (s : proxySession) (st : State) : option State :=
  b ← backends st !! backend s;
  let st1 := set_backends (<[backend s := RtspClient_Stop b]> (backends st)) st in
  w1 ← Close (rtpProxy s) (world st1);
  w2 ← Close (rtcpProxy s) w1;
  let st2 := set_world w2 st1 in
  Some (set_sessions (delete (client s) (sessions st2)) st2).

(** [func (proxy *AmpProxy) observe(session *proxySession)]: the
    goroutine it starts waits for the backend to finish. *)
Definition observe (s : proxySession) (st : State) : State :=
  let st1 := if RtspStartedCallback cfg
             then add_hook_call (HookStarted (backend s)) st else st in
  set_watchers (watchers st1 ++ [s]) st1.

Fixpoint remove_first (s : proxySession) (ws : list proxySession)
  : option (list proxySession) :=
  match ws with
  | [] => None
  | w :: ws' =>
    if decide (w = s) then Some ws'
    else cons w <$> remove_first s ws'
  end.

(** The goroutine of [observe] for [s] resumes: the backend has
    finished by itself or has been stopped. *)
Definition backend_ended (s : proxySession) (st : State) : option State :=
  ws ← remove_first s (watchers st);
  let st1 := set_watchers ws st in
  let st2 := if RtspEndedCallback cfg
             then add_hook_call (HookEnded (backend s)) st1 else st1 in
  cleanupSession s st2.

Definition already_exists_error (client_ : string) : error :=
  "Session already exists for client " +:+ client_.

Definition session_not_found_error (client_ : string) : error :=
  "Session not found for client " +:+ client_.

Definition rtsp_failed_error (err : error) : error :=
  "Failed to start RTSP client: " +:+ err.

(** [func (proxy *AmpProxy) startSession(desc *amp.StartSessionValue) error].
    [rtpProxy.Start()] and [rtcpProxy.Start()] launch the forwarding
    workers, which are outside this development. *)
Definition startSession (desc : StartSessionValue) (st : State)
  : option (State * option error) :=
  let client_ := JoinHostPort (ReceiverHost desc) (Itoa (Port_ desc)) in
  match sessions st !! client_ with
  | Some _ => Some (st, Some (already_exists_error client_))
  | None =>
    let rtcpClient := JoinHostPort (ReceiverHost desc) (Itoa (int_add (Port_ desc) 1)) in
    '(w1, (rtp, rtcp, err)) ←
      NewUdpProxyPair (net env) pair_fuel (proxyHost cfg) client_ rtcpClient
        minPort maxPort (world st);
    let st1 := set_world w1 st in
    match err with
    | Some e => Some (st1, Some e)
    | None =>
      rtpProxy_ ← rtp;
      rtcpProxy_ ← rtcp;
      p ← proxies w1 !! rtpProxy_;
      let rtpPort := Port (listenAddr p) in
      let mediaURL := media_url env (rtspURL cfg) (MediaFile desc) in
      let logfile := "amp-proxy-" +:+ Itoa rtpPort +:+ "-" +:+ MediaFile desc +:+ ".log" in
      match rtsp_start_err env (backends st1) mediaURL rtpPort logfile with
      | Some e => Some (st1, Some (rtsp_failed_error e))
      | None =>
        let rtsp := length (backends st1) in
        let st2 := set_backends
                     (backends st1 ++ [mkRtspClient mediaURL rtpPort logfile false]) st1 in
        let s := mkProxySession rtsp rtpProxy_ rtcpProxy_ (Port_ desc)
                   (MediaFile desc) client_ in
        let st3 := set_sessions (<[client_ := s]> (sessions st2)) st2 in
        Some (observe s st3, None)
      end
    end
  end.

(** [func (proxy *AmpProxy) stopSession(desc *amp.StopSessionValue) error] *)
Definition stopSession (desc : StopSessionValue) (st : State)
  : option (State * option error) :=
  let client_ := JoinHostPort (StopReceiverHost desc) (Itoa (StopPort desc)) in
  match sessions st !! client_ with
  | None => Some (st, Some (session_not_found_error client_))
  | Some s =>
    st' ← cleanupSession s st;
    Some (st', None)
  end.

End WithEnv.

End Amp.

(* ===================================================================== *)
(** * A concrete network, for examples                                    *)
(* ===================================================================== *)

Module TestNet.

Import Go Udp.

(** Splits ["host:port"] at the last colon. *)
Fixpoint split_host_port (s : string) : option (string * string) :=
  match s with
  | EmptyString => None
  | String c rest =>
    match split_host_port rest with
    | Some (h, p) => Some (String c h, p)
    | None => if Ascii.eqb c ":" then Some (EmptyString, rest) else None
    end
  end.

Definition digit (c : ascii) : option Z :=
  let n := Z.of_nat (nat_of_ascii c) in
  if (48 <=? n) && (n <=? 57) then Some (n - 48) else None.

Fixpoint parse_digits (acc : Z) (s : string) : option Z :=
  match s with
  | EmptyString => Some acc
  | String c rest => d ← digit c; parse_digits (acc * 10 + d) rest
  end.

Definition resolve (s : string) : error + UDPAddr :=
  match split_host_port s with
  | None => inl ("address " +:+ s +:+ ": missing port in address")
  | Some (h, EmptyString) => inl ("address " +:+ s +:+ ": invalid port")
  | Some (h, p) =>
    match parse_digits 0 p with
    | Some n => if n <=? 65535 then inr (mkUDPAddr h n)
                else inl ("address " +:+ s +:+ ": invalid port")
    | None => inl ("address " +:+ s +:+ ": invalid port")
    end
  end.

Definition bound_port (c : Conn) : option Z :=
  match c with
  | ListenConn a => Some (Port a)
  | DialConn _ => None
  end.

(** A port is taken when another process holds it ([busy]) or when a
    socket of this process is bound to it. *)
Definition port_taken (busy : list Z) (table : gmap nat Conn) (p : Z) : bool :=
  bool_decide (p ∈ busy)
  || bool_decide (Some p ∈ (bound_port <$> (snd <$> map_to_list table))).

Definition env (busy : list Z) : NetEnv :=
  mkNetEnv resolve
    (λ table a, if port_taken busy table (Port a)
                then Some "bind: address already in use" else None)
    (λ _ _, None).

(** A backend that starts every client / refuses every client. *)
Definition amp_env (busy : list Z) (backend_up : bool) : Amp.AmpEnv :=
  Amp.mkAmpEnv (env busy)
    (λ base path, base +:+ "/" +:+ path)
    (λ _ _ _ _, if backend_up then None else Some "connection refused").

Definition cfg : Amp.Config :=
  Amp.mkConfig "rtsp://media.example" "127.0.0.1" false false.

Definition start_desc : Amp.StartSessionValue :=
  Amp.mkStartSession "127.0.0.1" 6000 "movie.ts".

Definition stop_desc : Amp.StopSessionValue :=
  Amp.mkStopSession "127.0.0.1" 6000.

(** The proxy after a successful start request on an empty one, the
    session it has registered, and the proxy after the backend of that
    session has finished by itself. *)
Definition started : Amp.State :=
  Eval vm_compute in
    default Amp.empty_state
      (fst <$> Amp.startSession (amp_env [] true) cfg start_desc Amp.empty_state).

Definition session0 : Amp.proxySession :=
  Amp.mkProxySession 0 0 1 6000 "movie.ts" "127.0.0.1:6000".

Definition self_ended : Amp.State :=
  Eval vm_compute in
    default Amp.empty_state (Amp.backend_ended cfg session0 started).

End TestNet.

(* ===================================================================== *)
(** * A concrete registry, for examples                                   *)
(* ===================================================================== *)

Module TestRegistry.

Import Go Sessions.

(** A session with one observee, the backend client. *)
Definition session0 : Session :=
  mkSession "proxy session" ["rtsp client"] (λ _, None) None.

(** The same session with a cleanup callback that assigns its error to
    [CleanupErr] of the entry. *)
Definition reporting : Session :=
  mkSession "proxy session" ["rtsp client"] (λ _, None)
    (Some (Some "close relay: broken pipe")).

(** A session whose observee, when it is stopped, assigns an error to
    [CleanupErr] of the entry, and whose cleanup callback assigns
    nothing. *)
Definition killing : Session :=
  mkSession "proxy session" ["rtsp client"]
    (λ _, Some (Some "rtsp client: killed")) None.

(** Keys are strings; [%v] prints a string as it is. *)
Definition fmt (key : string) : string := key.

(** The registry after [NewSession("k", session0)] on an empty one. *)
Definition registered : State string :=
  Eval vm_compute in
    default empty_state (fst <$> NewSession "k" session0 empty_state).

(** The registries after [NewSession("k", reporting)] and after
    [NewSession("k", killing)] on an empty one. *)
Definition registered_reporting : State string :=
  Eval vm_compute in
    default empty_state (fst <$> NewSession "k" reporting empty_state).

Definition registered_killing : State string :=
  Eval vm_compute in
    default empty_state (fst <$> NewSession "k" killing empty_state).

(** [TestRegistry.registered] after [Stop] has been called on its entry. *)
Definition stopped_entry : SessionBase :=
  mkSessionBase (mkOneshot true) None session0.

(** ... and after the watcher of that entry has fired its gate. *)
Definition self_stopped : State string :=
  Eval vm_compute in default empty_state (watcher_fires 0 registered).

(** An entry whose gate has fired and whose cleanup error has been set. *)
Definition failed : State string :=
  mkState [mkSessionBase (mkOneshot true) (Some "write: broken pipe") session0]
    {["k" := 0%nat]} [] [].

(** Three callers racing for the gate of that entry. *)
Definition callers : list (Thread string) :=
  [TStopSession "k"; TStop 0; TStopSession "k"].

(** An interleaving of the three callers and the watcher: the first stop
    request finds the gate armed, the watcher fires it, then the request
    calls [Stop] itself; the holder of the pointer calls [Stop]; the
    second stop request has looked the key up before the first one
    deletes it. *)
Definition schedule : list Choice :=
  [RunThread 0; RunThread 0; RunWatcher 0; RunThread 2; RunThread 0;
   RunThread 1; RunThread 0; RunThread 2; RunThread 0; RunThread 2;
   RunThread 2].

End TestRegistry.

(* ===================================================================== *)
(** * The relay-pair scan as a search, and the ownership of sockets       *)
(* ===================================================================== *)

Module Alloc.

Import Go Udp.

(** Whether [NewUdpProxy(listenAddr, targetAddr)] succeeds when the socket
    table is [table]: its answer depends on the world through the socket
    table only (see [AllocFacts.NewUdpProxy_on_table]). *)
Definition binds (env : NetEnv) (listenAddr_ targetAddr_ : string)
    (table : gmap nat Conn) : bool :=
  match (NewUdpProxy env listenAddr_ targetAddr_ (mkWorld table [])).2 with
  | inr _ => true
  | inl _ => false
  end.

(** Whether the pair [(p, p+1)] binds on [listenHost] when the socket
    table is [table]: the first relay, then the second on top of it. *)
Definition pair_binds (env : NetEnv) (listenHost target1 target2 : string)
    (p : Z) (table : gmap nat Conn) : bool :=
  let r := NewUdpProxy env (JoinHostPort listenHost (Itoa p)) target1
             (mkWorld table []) in
  match r.2 with
  | inl _ => false
  | inr _ => binds env (JoinHostPort listenHost (Itoa (int_add p 1))) target2 (socks r.1)
  end.

(** The [k]-th port the scan tries. *)
Definition candidate (startPort : Z) (k : nat) : Z := startPort + 2 * Z.of_nat k.

(** Operations on relays, as a client of the package issues them. *)
Inductive RelayOp :=
| OpNewUdpProxy (listenAddr_ targetAddr_ : string)
| OpNewUdpProxyPair (fuel : nat) (listenHost target1 target2 : string)
    (startPort maxPort : Z)
| OpDoclose (l : nat) (err : option error).

Definition run_op (env : NetEnv) (op : RelayOp) (w : World) : option World :=
  match op with
  | OpNewUdpProxy la ta => Some (NewUdpProxy env la ta w).1
  | OpNewUdpProxyPair fuel host t1 t2 sp mp =>
    fst <$> NewUdpProxyPair env fuel host t1 t2 sp mp w
  | OpDoclose l err => doclose l err w
  end.

Fixpoint run_ops (env : NetEnv) (ops : list RelayOp) (w : World) : option World :=
  match ops with
  | [] => Some w
  | op :: ops' => w' ← run_op env op w; run_ops env ops' w'
  end.

(** The sockets of a relay. *)
Definition fds (p : UdpProxy) : list nat := [listenConn p; targetConn p].

(** Every relay that has not been shut down is live; every open socket is
    one of the two sockets of such a relay; two such relays share no
    socket; and a relay that has been shut down is marked closed. *)
Definition owned (w : World) : Prop :=
  (∀ l p, proxies w !! l = Some p → closeOnce p = false → live l w)
  ∧ (∀ fd, is_Some (socks w !! fd) →
       ∃ l p, proxies w !! l = Some p ∧ closeOnce p = false ∧ fd ∈ fds p)
  ∧ (∀ l l' p p' fd,
       proxies w !! l = Some p → proxies w !! l' = Some p' →
       closeOnce p = false → closeOnce p' = false →
       fd ∈ fds p → fd ∈ fds p' → l = l')
  ∧ (∀ l p, proxies w !! l = Some p → closeOnce p = true → Closed p = true).

End Alloc.

(* ===================================================================== *)
(** * proxies/udp.go: the two workers of a relay                          *)
(* ===================================================================== *)

Module Forward.

Import Go Udp.

Definition buf_size : nat := 4096.

(** The payload of a UDP datagram. *)
Definition Datagram : Type := list Byte.byte.

(** [buf[:nbytes]] after [ReadFrom(buf)] with [len(buf) = buf_size]: of a
    longer datagram the first [buf_size] bytes. *)
Definition in_buffer (d : Datagram) : Datagram := take buf_size d.

(** Where the goroutine of [readPackets] stands: in [ReadFrom], in the
    send on [proxy.packets], or returned. *)
Inductive Reader :=
| Reading
| Sending (pkt : Datagram)
| ReaderDone.

(** Where the goroutine of [forwardPackets] stands: in the receive from
    [proxy.packets] (followed by the write), or returned. *)
Inductive Forwarder :=
| Forwarding
| ForwarderDone.

(** A started relay: the world it lives in, the relay, the contents of the
    channel [proxy.packets] and whether it has been closed, the two
    workers, and three histories: the datagrams [ReadFrom] has returned,
    the slices [Write] has taken, and the arguments of [Stats.AddNow]. *)
Record Path := mkPath {
  pworld : World;
  relay : nat;
  queue : list Datagram;
  queue_closed : bool;
  reader : Reader;
  forwarder : Forwarder;
  arrived : list Datagram;
  written : list Datagram;
  added : list nat
}.

Definition set_packets (n : nat) (p : UdpProxy) : UdpProxy :=
  mkUdpProxy (listenConn p) (listenAddr p) (targetConn p) (targetAddr p)
    (closeOnce p) (proxyClosed p) n (Closed p) (Err p) (Stats_ p).

(** [func (proxy *UdpProxy) Start()]: both workers are launched. *)
Definition Start (l : nat) (w : World) : Path :=
  mkPath w l [] false Reading Forwarding [] [] [].

(** What happens next to a started relay. *)
Inductive Event :=
| ReadReturns (r : error + Datagram)
    (** [listenConn.ReadFrom] returns in [readPackets] *)
| ReaderSends
    (** the send [proxy.packets <- buf[:nbytes]] goes through *)
| ForwarderWrites (err : option error)
    (** [forwardPackets] receives a slice and [targetConn.Write] returns; a
        [Write] without error has written the whole slice *)
| ForwarderEnds.
    (** [forwardPackets] finds the channel closed and empty *)

(** One step of [readPackets] or [forwardPackets].  [None]: the event
    cannot happen in this state (the worker is elsewhere, or blocked). *)
Definition path_step (ev : Event) (st : Path) : option Path :=
  match ev, reader st, forwarder st with
  | ReadReturns (inl err), Reading, _ =>
    w' ← doclose (relay st) (Some err) (pworld st);
    Some (mkPath w' (relay st) (queue st) true ReaderDone (forwarder st)
            (arrived st) (written st) (added st))
  | ReadReturns (inr d), Reading, _ =>
    p ← proxies (pworld st) !! relay st;
    if Closed p
    then Some (mkPath (pworld st) (relay st) (queue st) true ReaderDone (forwarder st)
                 (arrived st ++ [d]) (written st) (added st))
    else Some (mkPath (pworld st) (relay st) (queue st) (queue_closed st)
                 (Sending (in_buffer d)) (forwarder st)
                 (arrived st ++ [d]) (written st) (added st))
  | ReaderSends, Sending pkt, _ =>
    p ← proxies (pworld st) !! relay st;
    n ← chan_send buf_packets (packets p);
    Some (mkPath (store_proxy (relay st) (set_packets n p) (pworld st)) (relay st)
            (queue st ++ [pkt]) (queue_closed st) Reading (forwarder st)
            (arrived st) (written st) (added st))
  | ForwarderWrites err, _, Forwarding =>
    match queue st with
    | [] => None
    | pkt :: rest =>
      p ← proxies (pworld st) !! relay st;
      let w1 := store_proxy (relay st) (set_packets (pred (packets p)) p) (pworld st) in
      match err with
      | Some e =>
        w' ← doclose (relay st) (Some e) w1;
        Some (mkPath w' (relay st) rest (queue_closed st) (reader st) ForwarderDone
                (arrived st) (written st) (added st))
      | None =>
        Some (mkPath w1 (relay st) rest (queue_closed st) (reader st) Forwarding
                (arrived st) (written st ++ [pkt]) (added st ++ [length pkt]))
      end
    end
  | ForwarderEnds, _, Forwarding =>
    match queue st with
    | [] => if queue_closed st
            then Some (mkPath (pworld st) (relay st) [] true (reader st) ForwarderDone
                         (arrived st) (written st) (added st))
            else None
    | _ :: _ => None
    end
  | _, _, _ => None
  end.

Fixpoint run_path (evs : list Event) (st : Path) : option Path :=
  match evs with
  | [] => Some st
  | ev :: evs' => st' ← path_step ev st; run_path evs' st'
  end.

(** A datagram arrives and goes all the way through before the next. *)
Definition one_by_one (ds : list Datagram) : list Event :=
  ds ≫= λ d, [ReadReturns (inr d); ReaderSends; ForwarderWrites None].

(** The slice the reader holds while it is in the send. *)
Definition pending (r : Reader) : list Datagram :=
  match r with
  | Sending pkt => [pkt]
  | _ => []
  end.

(** The invariant of the two workers: what has arrived, cut to the buffer
    size, is what has been written, then at most one slice lost in a
    failed write, then the channel, then the slice in the send, then at
    most one datagram dropped because the relay was found closed. *)
Definition path_inv (st : Path) : Prop :=
  ∃ p lost dropped,
    proxies (pworld st) !! relay st = Some p
    ∧ packets p = length (queue st)
    ∧ (length (queue st) ≤ buf_packets)%nat
    ∧ in_buffer <$> arrived st
      = written st ++ lost ++ queue st ++ pending (reader st) ++ dropped
    ∧ (forwarder st = Forwarding → lost = [])
    ∧ (reader st ≠ ReaderDone → dropped = [])
    ∧ added st = length <$> written st.

End Forward.

(* ===================================================================== *)
(** * More concrete inputs, for examples                                  *)
(* ===================================================================== *)

Module TestUdp.

Import Go Udp Forward.

(** The network of [TestNet.env []], in which in addition [DialUDP] to
    port 9 is refused. *)
Definition env_refusing : NetEnv :=
  mkNetEnv TestNet.resolve (listen_err (TestNet.env []))
    (λ _ a, if Port a =? 9 then Some "dial udp: connection refused" else None).

(** A world with one live relay, number 0. *)
Definition one_relay : World :=
  Eval vm_compute in
    (NewUdpProxy (TestNet.env []) "127.0.0.1:30000" "10.0.0.1:7000" empty_world).1.

(** Three datagrams: one byte, two bytes, none. *)
Definition datagrams : list Datagram :=
  [[Byte.x41]; [Byte.x42; Byte.x43]; []].

(** Two datagrams go through, a third waits in the channel, then a read
    fails. *)
Definition events : list Event :=
  [ReadReturns (inr [Byte.x41]); ReaderSends;
   ReadReturns (inr [Byte.x42; Byte.x43]); ForwarderWrites None; ReaderSends;
   ForwarderWrites None; ReadReturns (inr []); ReaderSends;
   ReadReturns (inl "read udp: use of closed network connection")].

(** A pair is allocated, its first relay fails, a single relay is made. *)
Definition relay_ops : list Alloc.RelayOp :=
  [Alloc.OpNewUdpProxyPair 3 "127.0.0.1" "10.0.0.1:6000" "10.0.0.1:6001" 20000 20004;
   Alloc.OpDoclose 0 (Some "write udp: connection refused");
   Alloc.OpNewUdpProxy "127.0.0.1:20000" "10.0.0.1:6002"].

End TestUdp.

(* ===================================================================== *)
(** * protocols/session.go: stopping all sessions, runs of the registry   *)
(* ===================================================================== *)

Module Registry.

Import Go Sessions.

Section WithKey.

Context {K : Type} `{Countable K}.

Fixpoint Stop_each (ls : list nat) (st : State K) : option (State K) :=
  match ls with
  | [] => Some st
  | l :: ls' => st' ← Stop l st; Stop_each ls' st'
  end.

(** [func (sessions Sessions) StopSessions()]:
    [for _, session := range sessions { session.Stop() }].  The order in
    which [range] visits a map is not specified; [order] is the order of
    one execution, a permutation of the entries of the map. *)
Definition StopSessions_in (order : list (K * nat)) (st : State K) : option (State K) :=
  Stop_each (order.*2) st.

(** The goroutines of [observe] resume one after the other, for the
    entries [ls]. *)
Fixpoint watchers_fire (ls : list nat) (st : State K) : option (State K) :=
  match ls with
  | [] => Some st
  | l :: ls' => st' ← watcher_fires l st; watchers_fire ls' st'
  end.

(** No pointer of the map and no watcher refers to an entry that has not
    been allocated. *)
Definition allocated (st : State K) : Prop :=
  (∀ k l, sessions st !! k = Some l → (l < length (heap st))%nat)
  ∧ (∀ l, l ∈ watchers st → (l < length (heap st))%nat).

End WithKey.

End Registry.

Module TestRegistry2.

Import Go Sessions.

(** A session without observees. *)
Definition quiet : Session := mkSession "quiet session" [] (λ _, None) None.

(** The registry of [TestRegistry.registered] with a second entry, under
    the key "b". *)
Definition two_entries : State string :=
  Eval vm_compute in
    default empty_state (fst <$> NewSession "b" TestRegistry.session0
                                   TestRegistry.registered).

(** [TestRegistry.registered] after [NewSession("a", quiet)], and that
    registry after the watcher of the first entry has fired. *)
Definition with_quiet : State string :=
  Eval vm_compute in
    default empty_state (fst <$> NewSession "a" quiet TestRegistry.registered).

Definition with_quiet_fired : State string :=
  Eval vm_compute in
    default empty_state (Registry.watchers_fire [0%nat] with_quiet).

End TestRegistry2.

(* ===================================================================== *)
(** * The AMP-to-RTSP proxy as a server: requests, shutdown, runs         *)
(* ===================================================================== *)

Module AmpServer.

Import Go Udp Amp.

(** Modelled from the spec: a decoded request of package [amp], which is
    "decoded by command code" and may carry a "malformed payload".  The
    payload is a start value, a stop value, or something else. *)
Inductive Value :=
| ValStartSession (desc : StartSessionValue)
| ValStopSession (desc : StopSessionValue)
| ValOther (shown : string).

Record Packet := mkPacket {
  Code : Z;
  Val : Value
}.

(** [packet.StartSession()] and [packet.StopSession()]: the payload if
    it has the type asked for, nil otherwise. *)
Definition Packet_StartSession (packet : Packet) : option StartSessionValue :=
  match Val packet with
  | ValStartSession desc => Some desc
  | _ => None
  end.

Definition Packet_StopSession (packet : Packet) : option StopSessionValue :=
  match Val packet with
  | ValStopSession desc => Some desc
  | _ => None
  end.

(** What the handler asks of the embedded [protocols.Server]:
    [ReplyError(packet, err)], [ReplyCheck(packet, err)] or
    [LogError(err)]. *)
Inductive ServerCall :=
| ReplyError (err : error)
| ReplyCheck (err : option error)
| LogError (err : error).

Section WithEnv.

Variable env : AmpEnv.
Variable cfg : Config.

(** [amp.CodeStartSession], [amp.CodeStopSession], and how [%v] prints a
    code and a payload. *)
Variable CodeStartSession CodeStopSession : Z.
Variable fmt_code : Z -> string.
Variable fmt_val : Value -> string.

Definition illegal_start_error (v : Value) : error :=
  "Illegal value for AMP CodeStartSession: " +:+ fmt_val v.

Definition illegal_stop_error (v : Value) : error :=
  "Illegal value for AMP CodeStopSession: " +:+ fmt_val v.

Definition unexpected_code_error (c : Z) : error :=
  "Received unexpected AMP code: " +:+ fmt_code c.

(** [func (proxy *AmpProxy) HandleRequest(request *protocols.Packet)] *)
Definition HandleRequest (request : Packet) (st : State)
  : option (State * ServerCall) :=
  if decide (Code request = CodeStartSession) then
    match Packet_StartSession request with
    | None => Some (st, ReplyError (illegal_start_error (Val request)))
    | Some desc =>
      '(st', err) ← startSession env cfg desc st;
      Some (st', ReplyCheck err)
    end
  else if decide (Code request = CodeStopSession) then
    match Packet_StopSession request with
    | None => Some (st, ReplyError (illegal_stop_error (Val request)))
    | Some desc =>
      '(st', err) ← stopSession desc st;
      Some (st', ReplyCheck err)
    end
  else Some (st, LogError (unexpected_code_error (Code request))).

(** [func (proxy *AmpProxy) StopServer()]: a [range] over the map.
    [keys] is the order in which the runtime walks the keys the map has
    when the loop starts; an entry that has been deleted before the loop
    reaches it is not produced. *)
Fixpoint StopServer_range (keys : list string) (st : State) : option State :=
  match keys with
  | [] => Some st
  | k :: keys' =>
    match sessions st !! k with
    | Some session =>
      st' ← cleanupSession session st;
      StopServer_range keys' st'
    | None => StopServer_range keys' st
    end
  end.

(** What the workers of the relay [l] do ([readPackets] and
    [forwardPackets], which [startSession] has launched with [Start()]).
    A worker gets the error [err] from its socket and calls
    [proxy.doclose(err)]; a relay that has not been started has been
    closed by the allocator, and [doclose] does nothing on it. *)
Definition relay_failed (l : nat) (err : error) (st : State) : option State :=
  w' ← doclose l (Some err) (world st);
  Some (set_world w' st).

(** Or the workers pass slices through the channel [proxy.packets]:
    [readPackets] has sent, [forwardPackets] has received, and [n]
    slices are queued. *)
Definition relay_traffic (l n : nat) (st : State) : option State :=
  p ← proxies (world st) !! l;
  if decide (n ≤ buf_packets)%nat
  then Some (set_world (store_proxy l (Forward.set_packets n p) (world st)) st)
  else None.

(** What happens to a running proxy: a request is handled, the
    goroutine that [observe] has started for a session resumes, the
    workers of a relay forward, or a worker of a relay fails. *)
Inductive Event :=
| EvRequest (request : Packet)
| EvBackendEnded (session : proxySession)
| EvRelayFailed (l : nat) (err : error)
| EvRelayTraffic (l n : nat).

Definition event_step (ev : Event) (st : State)
  : option (State * list ServerCall) :=
  match ev with
  | EvRequest request =>
    '(st', call) ← HandleRequest request st;
    Some (st', [call])
  | EvBackendEnded session =>
    st' ← backend_ended cfg session st;
    Some (st', [])
  | EvRelayFailed l err =>
    st' ← relay_failed l err st;
    Some (st', [])
  | EvRelayTraffic l n =>
    st' ← relay_traffic l n st;
    Some (st', [])
  end.

Fixpoint run_events (evs : list Event) (st : State)
  : option (State * list ServerCall) :=
  match evs with
  | [] => Some (st, [])
  | ev :: evs' =>
    '(st1, calls1) ← event_step ev st;
    '(st2, calls2) ← run_events evs' st1;
    Some (st2, calls1 ++ calls2)
  end.

(** The requests of a run that are answered [ReplyCheck(nil)] under the
    start code, and under the stop code: the sessions started and the
    sessions stopped on request. *)
Definition is_start (request : Packet) : bool :=
  bool_decide (Code request = CodeStartSession).

Definition is_stop (request : Packet) : bool :=
  negb (is_start request) && bool_decide (Code request = CodeStopSession).

Fixpoint handle_all (requests : list Packet) (st : State)
  : option (State * list (Packet * ServerCall)) :=
  match requests with
  | [] => Some (st, [])
  | request :: requests' =>
    '(st1, call) ← HandleRequest request st;
    '(st2, calls) ← handle_all requests' st1;
    Some (st2, (request, call) :: calls)
  end.

Definition replied_nil (call : ServerCall) : bool :=
  match call with
  | ReplyCheck None => true
  | _ => false
  end.

Definition accepted (which : Packet -> bool) (log : list (Packet * ServerCall)) : nat :=
  length (filter (λ rc, which rc.1 && replied_nil rc.2 = true) log).

End WithEnv.

(** The sockets of two relays that have just been bound. *)
Definition four_socks (p1 p2 : UdpProxy) (table : gmap nat Conn) : gmap nat Conn :=
  <[targetConn p2 := DialConn (targetAddr p2)]>
    (<[listenConn p2 := ListenConn (listenAddr p2)]>
       (<[targetConn p1 := DialConn (targetAddr p1)]>
          (<[listenConn p1 := ListenConn (listenAddr p1)]> table))).

(** The relays of a session. *)
Definition relays (s : proxySession) : list nat := [rtpProxy s; rtcpProxy s].

(** The backend client of [s] has not been stopped. *)
Definition backend_running (s : proxySession) (st : State) : Prop :=
  ∃ b, backends st !! backend s = Some b ∧ rtsp_stopped b = false.

Definition backend_stopped (s : proxySession) (st : State) : Prop :=
  ∃ b, backends st !! backend s = Some b ∧ rtsp_stopped b = true.

(** A session that is being served: both relays open, the backend
    running, and a goroutine waiting for the backend to end. *)
Definition served (s : proxySession) (st : State) : Prop :=
  live (rtpProxy s) (world st) ∧ live (rtcpProxy s) (world st)
  ∧ backend_running s st ∧ s ∈ watchers st.

(** A relay that has been shut down, by [Close] or by one of its workers. *)
Definition shut_down (l : nat) (w : World) : Prop :=
  ∃ p, proxies w !! l = Some p ∧ closeOnce p = true ∧ Closed p = true.

(** No worker of a relay fails in the run. *)
Definition workers_quiet (evs : list Event) : Prop :=
  ∀ l err, EvRelayFailed l err ∉ evs.

(** Both relays of every session in the map are open. *)
Definition relays_open (st : State) : Prop :=
  ∀ k s, sessions st !! k = Some s →
         live (rtpProxy s) (world st) ∧ live (rtcpProxy s) (world st).

(** What the proxy keeps true of its state, whatever the workers of the
    relays do: the relays own their sockets; a session in the map is
    filed under its client key, its backend is running and a goroutine
    waits for it; the sessions that are watched point into the heaps and
    share neither a backend nor a relay. *)
Definition consistent (st : State) : Prop :=
  Alloc.owned (world st)
  ∧ (∀ k s, sessions st !! k = Some s →
       client s = k ∧ backend_running s st ∧ s ∈ watchers st)
  ∧ (∀ s, s ∈ watchers st →
       (backend s < length (backends st))%nat
       ∧ (rtpProxy s < length (proxies (world st)))%nat
       ∧ (rtcpProxy s < length (proxies (world st)))%nat
       ∧ rtpProxy s ≠ rtcpProxy s)
  ∧ (∀ s s', s ∈ watchers st → s' ∈ watchers st → s ≠ s' →
       backend s ≠ backend s' ∧ relays s ## relays s').

End AmpServer.

(* ===================================================================== *)
(** * A concrete proxy, for examples                                      *)
(* ===================================================================== *)

Module TestAmp.

Import Go Udp Amp AmpServer.

Definition CodeStartSession : Z := 1.
Definition CodeStopSession : Z := 2.

Definition fmt_val (v : Value) : string :=
  match v with
  | ValStartSession _ => "StartSession"
  | ValStopSession _ => "StopSession"
  | ValOther shown => shown
  end.

Definition start_packet : Packet :=
  mkPacket CodeStartSession (ValStartSession TestNet.start_desc).

Definition stop_packet : Packet :=
  mkPacket CodeStopSession (ValStopSession TestNet.stop_desc).

(** A second client. *)
Definition start_desc2 : StartSessionValue := mkStartSession "127.0.0.2" 7000 "news.ts".

Definition start_packet2 : Packet :=
  mkPacket CodeStartSession (ValStartSession start_desc2).

Definition handle : Packet -> State -> option (State * ServerCall) :=
  HandleRequest (TestNet.amp_env [] true) TestNet.cfg
    CodeStartSession CodeStopSession Itoa fmt_val.

Definition run : list Event -> State -> option (State * list ServerCall) :=
  run_events (TestNet.amp_env [] true) TestNet.cfg
    CodeStartSession CodeStopSession Itoa fmt_val.

(** Two clients are being served. *)
Definition two_sessions : State :=
  Eval vm_compute in
    default empty_state
      (fst <$> run [EvRequest start_packet; EvRequest start_packet2] empty_state).

(** The first client is being served, and a worker of its first relay
    has failed. *)
Definition relay_lost : State :=
  Eval vm_compute in
    default empty_state
      (fst <$> run [EvRequest start_packet;
                    EvRelayTraffic 0 1;
                    EvRelayFailed 0 "write udp: connection refused"] empty_state).

(** The first client has been stopped on request; its watcher has not
    resumed yet. *)
Definition stopped : State :=
  Eval vm_compute in
    default empty_state (fst <$> stopSession TestNet.stop_desc TestNet.started).

(** ... and the same client has been started again. *)
Definition restarted : State :=
  Eval vm_compute in
    default empty_state
      (fst <$> startSession (TestNet.amp_env [] true) TestNet.cfg
                 TestNet.start_desc stopped).

(** The session of the restarted client. *)
Definition session1 : proxySession :=
  mkProxySession 1 2 3 6000 "movie.ts" "127.0.0.1:6000".

(** Five requests sent to the proxy that serves the first client: a
    duplicate start, a start for a second client, a stop, the same stop
    again, and a packet with a code the proxy does not know. *)
Definition requests : list Packet :=
  [start_packet; start_packet2; stop_packet; stop_packet; mkPacket 7 (ValOther "ping")].

Definition handled_state : State :=
  Eval vm_compute in
    default empty_state
      (fst <$> handle_all (TestNet.amp_env [] true) TestNet.cfg
                 CodeStartSession CodeStopSession Itoa fmt_val requests TestNet.started).

Definition handled_log : list (Packet * ServerCall) :=
  Eval vm_compute in
    default []
      (snd <$> handle_all (TestNet.amp_env [] true) TestNet.cfg
                 CodeStartSession CodeStopSession Itoa fmt_val requests TestNet.started).

(** Every port of the range is held by others: a network on which no
    relay can listen. *)
Definition env_full : AmpEnv :=
  mkAmpEnv
    (mkNetEnv TestNet.resolve (λ _ _, Some "bind: address already in use") (λ _ _, None))
    (λ base path, base +:+ "/" +:+ path)
    (λ _ _ _ _, None).

End TestAmp.

(* ===================================================================== *)
(** * Package load: the statistics of a load test                         *)
(* ===================================================================== *)

Module Load.

Import Go.

(** A Go [uint] has 64 bits, as [int] has; arithmetic on it wraps. *)
Definition uint_modulus : Z := 2 ^ 64.

Definition uint_wrap (z : Z) : Z := z mod uint_modulus.

(** Of [LoadPacket], which is declared in another file of the package,
    the code below reads the field [Seq] and compares it with the [uint]
    counter. *)
Record LoadPacket := mkLoadPacket {
  Seq : Z
}.

(** The payload of a packet, [packet.Val]: a [*LoadPacket] or something
    else, of which only the text that [%v] prints matters. *)
Inductive PacketVal :=
| ValLoad (load : LoadPacket)
| ValNotLoad (shown : string).

(** [type LoadStats struct].  On [Received] and [Missed] the code only
    calls [AddNow]; each is represented by the values added, in order.
    [logged] holds the errors passed to [server.LogError]. *)
Record LoadStats := mkLoadStats {
  seq : Z;
  Received : list Z;
  Missed : list Z;
  logged : list error
}.

(** The statistics as [RegisterServer] creates them: [seq] is zero. *)
Definition new_stats : LoadStats := mkLoadStats 0 [] [] [].

Section WithPacketSize.

(** The constant [PacketSize] of the package. *)
Variable PacketSize : Z.

Definition jump_error (from to : Z) : error :=
  "Load sequence jump: " +:+ Itoa from +:+ " -> " +:+ Itoa to.

Definition illegal_value_error (shown : string) : error :=
  "Received illegal value for LoadPacket: " +:+ shown.

(** [func (stats *LoadStats) addPacket(packet *LoadPacket)] *)
Definition addPacket (packet : LoadPacket) (stats : LoadStats) : LoadStats :=
  let received := Received stats ++ [PacketSize] in
  let next := uint_wrap (Seq packet + 1) in
  if seq stats <? Seq packet then
    mkLoadStats next received
      (Missed stats ++ [uint_wrap (Seq packet - seq stats)]) (logged stats)
  else if seq stats >? Seq packet then
    mkLoadStats next received (Missed stats)
      (logged stats ++ [jump_error (seq stats) (Seq packet)])
  else mkLoadStats next received (Missed stats) (logged stats).

(** [func (stats *LoadStats) handleLoad(packet *protocols.Packet)
    *protocols.Packet]; it returns nil in every case. *)
Definition handleLoad (val : PacketVal) (stats : LoadStats) : LoadStats :=
  match val with
  | ValLoad load => addPacket load stats
  | ValNotLoad shown =>
    mkLoadStats (seq stats) (Received stats) (Missed stats)
      (logged stats ++ [illegal_value_error shown])
  end.

(** The handler on the packets of a connection, one after the other. *)
Definition handle_loads (vals : list PacketVal) (stats : LoadStats) : LoadStats :=
  foldl (λ st val, handleLoad val st) stats vals.

End WithPacketSize.

(** The load packets among the payloads. *)
Definition loads (vals : list PacketVal) : list LoadPacket :=
  omap (λ val, match val with ValLoad load => Some load | ValNotLoad _ => None end) vals.

(** The packets arrive in order: every sequence number is at least the
    one the counter expects, and below the largest [uint]. *)
Fixpoint in_order (expected : Z) (packets : list LoadPacket) : Prop :=
  match packets with
  | [] => True
  | packet :: packets' =>
    expected ≤ Seq packet < uint_modulus - 1 ∧ in_order (Seq packet + 1) packets'
  end.

Definition total (values : list Z) : Z := foldr Z.add 0 values.

End Load.

(* ===================================================================== *)
(** * Properties of the relay and of the relay-pair allocator             *)
(* ===================================================================== *)

Module UdpFacts.

Import Go Udp.

Lemma wrap_in_range z : min_int ≤ z ≤ max_int → wrap z = z.
Proof.
  unfold wrap, min_int, max_int. intros Hz.
  rewrite Z.mod_small by lia. lia.
Qed.

Lemma int_add_exact a b :
  min_int ≤ a + b ≤ max_int → int_add a b = a + b.
Proof. apply wrap_in_range. Qed.

Lemma next_fd_free w : socks w !! next_fd w = None.
Proof. unfold next_fd. apply not_elem_of_dom. apply is_fresh. Qed.

Lemma close_open w c : close_sock (next_fd w) (open_sock c w) = w.
Proof.
  destruct w as [ss ps]. unfold close_sock, open_sock; simpl. f_equal.
  apply delete_insert_id, (next_fd_free (mkWorld ss ps)).
Qed.

Section WithEnv.

Variable env : NetEnv.

(** A failed [NewUdpProxy] leaves nothing behind. *)
Lemma NewUdpProxy_error la ta w w' e :
  NewUdpProxy env la ta w = (w', inl e) → w' = w.
Proof.
  unfold NewUdpProxy. intros Heq.
  destruct (ResolveUDPAddr env la); [by inversion Heq|].
  destruct (ResolveUDPAddr env ta); [by inversion Heq|].
  destruct (listen_err _ _ _); [by inversion Heq|].
  destruct (dial_err _ _ _); inversion Heq; subst.
  apply close_open.
Qed.

(** A successful [NewUdpProxy] adds two sockets and one live relay. *)
Lemma NewUdpProxy_ok la ta w w' l :
  NewUdpProxy env la ta w = (w', inr l) →
  ∃ p lfd tfd,
    l = length (proxies w)
    ∧ proxies w' = proxies w ++ [p]
    ∧ socks w' = <[tfd := DialConn (targetAddr p)]>
                   (<[lfd := ListenConn (listenAddr p)]> (socks w))
    ∧ socks w !! lfd = None ∧ socks w !! tfd = None ∧ lfd ≠ tfd
    ∧ listenConn p = lfd ∧ targetConn p = tfd
    ∧ closeOnce p = false ∧ Closed p = false ∧ proxyClosed p = 0%nat
    ∧ Err p = None
    ∧ ResolveUDPAddr env la = inr (listenAddr p)
    ∧ ResolveUDPAddr env ta = inr (targetAddr p).
Proof.
  unfold NewUdpProxy. intros Heq.
  destruct (ResolveUDPAddr env la) as [|lu] eqn:Hl; [by inversion Heq|].
  destruct (ResolveUDPAddr env ta) as [|tu] eqn:Ht; [by inversion Heq|].
  destruct (listen_err _ _ _); [by inversion Heq|].
  destruct (dial_err _ _ _); inversion Heq; subst; clear Heq.
  set (w1 := open_sock (ListenConn lu) w).
  assert (Hf1 : socks w !! next_fd w = None) by apply next_fd_free.
  assert (Hf2 : socks w1 !! next_fd w1 = None) by apply next_fd_free.
  assert (Hne : next_fd w ≠ next_fd w1).
  { intros Heq. rewrite <- Heq in Hf2. unfold w1, open_sock in Hf2; simpl in Hf2.
    by rewrite lookup_insert_eq in Hf2. }
  eexists _, (next_fd w), (next_fd w1). simpl.
  repeat split; try done.
  unfold w1, open_sock in Hf2; simpl in Hf2.
  by rewrite lookup_insert_ne in Hf2.
Qed.

Lemma NewUdpProxy_live la ta w w' l :
  NewUdpProxy env la ta w = (w', inr l) → live l w'.
Proof.
  intros (p & lfd & tfd & -> & Hps & Hss & Hl & Ht & Hne & <- & <- & ? & ? & ? & _)%NewUdpProxy_ok.
  exists p. rewrite Hps, Hss.
  repeat split; try done.
  - by rewrite lookup_app_r, Nat.sub_diag.
  - rewrite lookup_insert_ne by done. by rewrite lookup_insert_eq.
  - by rewrite lookup_insert_eq.
Qed.

Lemma doclose_first l e w p :
  proxies w !! l = Some p → closeOnce p = false → proxyClosed p = 0%nat →
  doclose l e w =
    Some (mkWorld (delete (targetConn p) (delete (listenConn p) (socks w)))
            (<[l := shut e p]> (proxies w))).
Proof.
  intros Hp Hdone Hch.
  unfold doclose, closeOnce_Do, doclose_body. rewrite Hp; simpl. rewrite Hdone.
  rewrite Hch; simpl.
  rewrite list_lookup_insert_eq by (by eapply lookup_lt_Some). simpl.
  unfold store_proxy; simpl. by rewrite list_insert_insert_eq.
Qed.

Lemma doclose_again l e w p :
  proxies w !! l = Some p → closeOnce p = true → doclose l e w = Some w.
Proof.
  intros Hp Hdone. unfold doclose, closeOnce_Do. rewrite Hp; simpl. by rewrite Hdone.
Qed.

Lemma docloses_done l errs w p :
  proxies w !! l = Some p → closeOnce p = true → docloses l errs w = Some w.
Proof.
  intros Hp Hdone. induction errs as [|e errs IH]; [done|].
  simpl. by rewrite (doclose_again l e w p).
Qed.

Lemma Close_live l w :
  live l w →
  ∃ w' p, Close l w = Some w'
          ∧ proxies w !! l = Some p
          ∧ socks w' = delete (targetConn p) (delete (listenConn p) (socks w))
          ∧ proxies w' = <[l := shut None p]> (proxies w)
          ∧ closed l w'.
Proof.
  intros (p & Hp & Hdone & Hcl & Hch & Hne & Hls & Hts).
  eexists _, p. unfold Close. rewrite (doclose_first l None w p) by done.
  repeat split; try done.
  exists (shut None p); simpl.
  rewrite list_lookup_insert_eq by (by eapply lookup_lt_Some).
  repeat split; try done.
  - rewrite lookup_delete_ne by done. by rewrite lookup_delete_eq.
  - by rewrite lookup_delete_eq.
Qed.

(** The first relay of a pair binds, the second does not: closing the
    first restores the socket table. *)
Lemma attempt_released la1 ta1 la2 ta2 w w1 l1 w2 e :
  NewUdpProxy env la1 ta1 w = (w1, inr l1) →
  NewUdpProxy env la2 ta2 w1 = (w2, inl e) →
  ∃ w3, Close l1 w2 = Some w3 ∧ closed l1 w3 ∧ socks w3 = socks w.
Proof.
  intros H1 H2. apply NewUdpProxy_error in H2 as ->.
  pose proof (NewUdpProxy_live _ _ _ _ _ H1) as Hlive.
  apply NewUdpProxy_ok in H1
    as (p & lfd & tfd & -> & Hps & Hss & Hl & Ht & Hne & <- & <- & _).
  destruct (Close_live _ _ Hlive) as (w3 & p' & Hc & Hp' & Hss' & _ & Hcl).
  exists w3. repeat split; try done.
  assert (p' = p) as ->.
  { rewrite Hps, lookup_app_r, Nat.sub_diag in Hp' by done. by inversion Hp'. }
  rewrite Hss', Hss.
  rewrite delete_insert_ne by done.
  rewrite (delete_insert_id _ (listenConn p)) by done.
  by rewrite delete_insert_id.
Qed.

(** Both relays of a pair bind. *)
Lemma attempt_bound la1 ta1 la2 ta2 w w1 l1 w2 l2 :
  NewUdpProxy env la1 ta1 w = (w1, inr l1) →
  NewUdpProxy env la2 ta2 w1 = (w2, inr l2) →
  pair_outcome (socks w) w2 (Some l1, Some l2, None).
Proof.
  intros H1 H2.
  pose proof (NewUdpProxy_live _ _ _ _ _ H2) as Hlive2.
  apply NewUdpProxy_ok in H1
    as (p1 & lfd1 & tfd1 & -> & Hps1 & Hss1 & Hl1 & Ht1 & Hne1 & Hlc1 & Htc1
        & Hd1 & Hc1 & Hch1 & _).
  apply NewUdpProxy_ok in H2
    as (p2 & lfd2 & tfd2 & -> & Hps2 & Hss2 & Hl2 & Ht2 & Hne2 & Hlc2 & Htc2 & _).
  assert (Hlen : length (proxies w1) = S (length (proxies w))).
  { rewrite Hps1, length_app; simpl; lia. }
  assert (Hp1 : proxies w2 !! length (proxies w) = Some p1).
  { rewrite Hps2, lookup_app_l by lia.
    by rewrite Hps1, lookup_app_r, Nat.sub_diag. }
  assert (Hp2 : proxies w2 !! length (proxies w1) = Some p2).
  { by rewrite Hps2, lookup_app_r, Nat.sub_diag. }
  rewrite Hss1 in Hl2, Ht2.
  apply lookup_insert_None in Hl2 as [Hl2 ?], Ht2 as [Ht2 ?].
  apply lookup_insert_None in Hl2 as [Hl2 ?], Ht2 as [Ht2 ?].
  left. exists (length (proxies w)), (length (proxies w1)), p1, p2.
  split; [done|]. split; [lia|].
  split.
  { exists p1. rewrite Hss2, Hss1, Hlc1, Htc1.
    repeat split; try done.
    - rewrite !lookup_insert_ne by done. by rewrite lookup_insert_eq.
    - rewrite !lookup_insert_ne by done. by rewrite lookup_insert_eq. }
  split; [done|]. split; [done|]. split; [done|].
  rewrite Hss2, Hss1, Hlc1, Htc1, Hlc2, Htc2.
  split; [|split].
  - do 4 (etrans; [|apply insert_subseteq; rewrite ?lookup_insert_ne by done; done]).
    done.
  - rewrite !dom_insert_L. apply set_eq. intros x.
    rewrite !elem_of_union, !elem_of_singleton. tauto.
  - rewrite !map_size_insert_None; rewrite ?lookup_insert_ne by done; try done. lia.
Qed.

Lemma attempts_pos sp mp : (1 ≤ attempts sp mp)%nat.
Proof. unfold attempts. lia. Qed.

Lemma attempts_next sp mp :
  sp + 2 ≤ mp → attempts sp mp = S (attempts (sp + 2) mp).
Proof.
  intros Hle. unfold attempts.
  replace (mp - sp) with ((mp - (sp + 2)) + 1 * 2) by lia.
  rewrite Z.div_add by lia.
  assert (0 ≤ (mp - (sp + 2)) / 2) by (apply Z.div_pos; lia).
  lia.
Qed.

(** With fuel for every attempt and no overflow of the port, the scan
    returns, and with one of the two outcomes. *)
Lemma NewUdpProxyPair_loop_returns host t1 t2 mp fuel :
  mp ≤ max_int - 2 →
  ∀ sp w,
    min_int ≤ sp ≤ max_int - 2 →
    (attempts sp mp ≤ fuel)%nat →
    ∃ w' res,
      NewUdpProxyPair_loop env fuel host t1 t2 sp mp None w = Some (w', res)
      ∧ pair_outcome (socks w) w' res.
Proof.
  intros Hmp. induction fuel as [|fuel IH]; intros sp w Hsp Hfuel.
  { pose proof (attempts_pos sp mp). lia. }
  assert (Hadd : int_add sp 2 = sp + 2).
  { apply int_add_exact. unfold min_int, max_int in *. lia. }
  assert (Hnext : ∀ proxy1 w1,
            socks w1 = socks w →
            ∃ w' res,
              (if int_add sp 2 >? mp
               then Some (w1, (proxy1, None, Some (range_error (int_add sp 2) mp)))
               else NewUdpProxyPair_loop env fuel host t1 t2 (int_add sp 2) mp None w1)
              = Some (w', res)
              ∧ pair_outcome (socks w) w' res).
  { intros proxy1 w1 Hss. rewrite Hadd.
    destruct (Z.gtb_spec (sp + 2) mp) as [Hgt|Hle].
    - eexists _, _. split; [done|]. right. by eexists _, _.
    - rewrite <- Hss. apply IH; [unfold min_int, max_int in *; lia|].
      rewrite (attempts_next sp mp) in Hfuel by lia. lia. }
  simpl.
  destruct (NewUdpProxy env _ t1 w) as [w1 [e1|l1]] eqn:H1.
  - apply NewUdpProxy_error in H1 as ->. by apply Hnext.
  - destruct (NewUdpProxy env _ t2 w1) as [w2 [e2|l2]] eqn:H2.
    + destruct (attempt_released _ _ _ _ _ _ _ _ _ H1 H2) as (w3 & -> & _ & Hss).
      simpl. by apply Hnext.
    + eexists _, _. split; [done|]. by eapply attempt_bound.
Qed.

(** One attempt, unfolded: what the loop does after each of the three
    ways an attempt can go. *)
Lemma loop_both_bind host t1 t2 sp mp proxy2 fuel w w1 l1 w2 l2 :
  NewUdpProxy env (JoinHostPort host (Itoa sp)) t1 w = (w1, inr l1) →
  NewUdpProxy env (JoinHostPort host (Itoa (int_add sp 1))) t2 w1 = (w2, inr l2) →
  NewUdpProxyPair_loop env (S fuel) host t1 t2 sp mp proxy2 w
  = Some (w2, (Some l1, Some l2, None)).
Proof. intros H1 H2. simpl. by rewrite H1, H2. Qed.

Lemma loop_first_fails host t1 t2 sp mp proxy2 fuel w w1 e :
  NewUdpProxy env (JoinHostPort host (Itoa sp)) t1 w = (w1, inl e) →
  NewUdpProxyPair_loop env (S fuel) host t1 t2 sp mp proxy2 w
  = if int_add sp 2 >? mp
    then Some (w1, (None, proxy2, Some (range_error (int_add sp 2) mp)))
    else NewUdpProxyPair_loop env fuel host t1 t2 (int_add sp 2) mp proxy2 w1.
Proof. intros H1. simpl. by rewrite H1. Qed.

Lemma loop_second_fails host t1 t2 sp mp proxy2 fuel w w1 l1 w2 e w3 :
  NewUdpProxy env (JoinHostPort host (Itoa sp)) t1 w = (w1, inr l1) →
  NewUdpProxy env (JoinHostPort host (Itoa (int_add sp 1))) t2 w1 = (w2, inl e) →
  Close l1 w2 = Some w3 →
  NewUdpProxyPair_loop env (S fuel) host t1 t2 sp mp proxy2 w
  = if int_add sp 2 >? mp
    then Some (w3, (Some l1, None, Some (range_error (int_add sp 2) mp)))
    else NewUdpProxyPair_loop env fuel host t1 t2 (int_add sp 2) mp None w3.
Proof. intros H1 H2 H3. simpl. rewrite H1, H2, H3. done. Qed.

(** Whatever error the scan returns is the exhaustion error, and the
    first port it names lies above [maxPort]. *)
Lemma loop_error_range host t1 t2 mp fuel :
  ∀ sp proxy2 w w' proxy1 proxy2' e,
    NewUdpProxyPair_loop env fuel host t1 t2 sp mp proxy2 w
    = Some (w', (proxy1, proxy2', Some e)) →
    ∃ q, e = range_error q mp ∧ mp < q.
Proof.
  induction fuel as [|fuel IH]; intros sp proxy2 w w' proxy1 proxy2' e Hrun; [done|].
  simpl in Hrun.
  destruct (NewUdpProxy env _ t1 w) as [w1 [e1|l1]].
  - destruct (Z.gtb_spec (int_add sp 2) mp).
    + inversion Hrun; subst. eexists. split; [done|lia].
    + by eapply IH.
  - destruct (NewUdpProxy env _ t2 w1) as [w2 [e2|l2]]; [|done].
    destruct (Close l1 w2) as [w3|]; [|done]. simpl in Hrun.
    destruct (Z.gtb_spec (int_add sp 2) mp).
    + inversion Hrun; subst. eexists. split; [done|lia].
    + by eapply IH.
Qed.

(** The relays of a pair that has been bound, and the addresses they
    were made from. *)
Lemma attempt_bound_addrs la1 ta1 la2 ta2 w w1 l1 w2 l2 :
  NewUdpProxy env la1 ta1 w = (w1, inr l1) →
  NewUdpProxy env la2 ta2 w1 = (w2, inr l2) →
  ∃ p1 p2,
    proxies w2 !! l1 = Some p1 ∧ proxies w2 !! l2 = Some p2 ∧ l1 ≠ l2
    ∧ ResolveUDPAddr env la1 = inr (listenAddr p1)
    ∧ ResolveUDPAddr env ta1 = inr (targetAddr p1)
    ∧ ResolveUDPAddr env la2 = inr (listenAddr p2)
    ∧ ResolveUDPAddr env ta2 = inr (targetAddr p2)
    ∧ live l1 w2 ∧ live l2 w2.
Proof.
  intros H1 H2.
  destruct (attempt_bound _ _ _ _ _ _ _ _ _ H1 H2)
    as [(l1' & l2' & p1 & p2 & Hres & Hne & Hlive1 & Hlive2 & Hp1 & Hp2 & _)
       |(? & ? & ? & _)]; [|done].
  inversion Hres; subst l1' l2'; clear Hres.
  apply NewUdpProxy_ok in H1
    as (p1' & ? & ? & -> & Hps1 & _ & _ & _ & _ & _ & _ & _ & _ & _ & _ & Hrl1 & Hrt1).
  apply NewUdpProxy_ok in H2
    as (p2' & ? & ? & -> & Hps2 & _ & _ & _ & _ & _ & _ & _ & _ & _ & _ & Hrl2 & Hrt2).
  assert (p1 = p1') as ->.
  { rewrite Hps2, lookup_app_l in Hp1 by (rewrite Hps1, length_app; simpl; lia).
    rewrite Hps1, lookup_app_r, Nat.sub_diag in Hp1 by done. by inversion Hp1. }
  assert (p2 = p2') as ->.
  { rewrite Hps2, lookup_app_r, Nat.sub_diag in Hp2 by done. by inversion Hp2. }
  by exists p1', p2'.
Qed.

(** A scan that returns without error returns two live relays, bound on
    the listen host at a port and its successor and connected to the
    two targets. *)
Lemma loop_success host t1 t2 mp fuel :
  ∀ sp proxy2 w w' r1 r2,
    NewUdpProxyPair_loop env fuel host t1 t2 sp mp proxy2 w
    = Some (w', (r1, r2, None)) →
    ∃ q l1 l2 p1 p2,
      r1 = Some l1 ∧ r2 = Some l2 ∧ l1 ≠ l2
      ∧ proxies w' !! l1 = Some p1 ∧ proxies w' !! l2 = Some p2
      ∧ ResolveUDPAddr env (JoinHostPort host (Itoa q)) = inr (listenAddr p1)
      ∧ ResolveUDPAddr env t1 = inr (targetAddr p1)
      ∧ ResolveUDPAddr env (JoinHostPort host (Itoa (int_add q 1)))
        = inr (listenAddr p2)
      ∧ ResolveUDPAddr env t2 = inr (targetAddr p2)
      ∧ live l1 w' ∧ live l2 w'.
Proof.
  induction fuel as [|fuel IH]; intros sp proxy2 w w' r1 r2 Hrun; [done|].
  simpl in Hrun.
  destruct (NewUdpProxy env _ t1 w) as [w1 [e1|l1]] eqn:H1.
  - destruct (int_add sp 2 >? mp); [done|]. by eapply IH.
  - destruct (NewUdpProxy env _ t2 w1) as [w2 [e2|l2]] eqn:H2.
    + destruct (Close l1 w2) as [w3|]; [|done]. simpl in Hrun.
      destruct (int_add sp 2 >? mp); [done|]. by eapply IH.
    + inversion Hrun; subst; clear Hrun.
      destruct (attempt_bound_addrs _ _ _ _ _ _ _ _ _ H1 H2)
        as (p1 & p2 & ? & ? & ? & ? & ? & ? & ? & ? & ?).
      by exists sp, l1, l2, p1, p2.
Qed.

End WithEnv.

(** ** The claims *)

(** C4 (the code departs from it).  The claim has the exhaustion error
    name the attempted range, [startPort] through [maxPort].  In the code
    the error is built after [startPort += 2]: whenever
    [NewUdpProxyPair] returns an error, it is the exhaustion error and
    the first port it names is the incremented one, which lies above
    [maxPort]; for a call with [startPort <= maxPort] this is not the
    port the scan started at. *)
Theorem exhaustion_error_names_incremented_port env host t1 t2 sp mp fuel w w' proxy1 proxy2 e :
  sp ≤ mp →
  NewUdpProxyPair env fuel host t1 t2 sp mp w = Some (w', (proxy1, proxy2, Some e)) →
  ∃ q, e = range_error q mp ∧ mp < q ∧ q ≠ sp.
Proof.
  intros Hle Hrun. unfold NewUdpProxyPair in Hrun.
  apply loop_error_range in Hrun as (q & -> & Hq).
  exists q. split; [done|]. split; lia.
Qed.

(** The scan over 20000..20003 with 20000 and 20002 taken: the error
    reads "20004-20003", not "20000-20003". *)
Lemma exhaustion_error_names_incremented_port_witness :
  20000 ≤ 20003
  ∧ NewUdpProxyPair (TestNet.env [20000; 20002]) 2 "127.0.0.1"
      "10.0.0.1:6000" "10.0.0.1:6001" 20000 20003 empty_world
    = Some (empty_world,
            (None, None,
             Some "Failed to allocate UDP proxy pair in port range 20004-20003"))
  ∧ ∃ q, "Failed to allocate UDP proxy pair in port range 20004-20003"
         = range_error q 20003 ∧ 20003 < q ∧ q ≠ 20000.
Proof.
  assert (Hrun : NewUdpProxyPair (TestNet.env [20000; 20002]) 2 "127.0.0.1"
                   "10.0.0.1:6000" "10.0.0.1:6001" 20000 20003 empty_world
                 = Some (empty_world,
                         (None, None,
                          Some "Failed to allocate UDP proxy pair in port range 20004-20003")))
    by (vm_compute; reflexivity).
  split; [lia|]. split; [exact Hrun|].
  eapply exhaustion_error_names_incremented_port; [|exact Hrun]; lia.
Defined.

(** C6.  In an attempt where the first relay binds and the second does
    not, the first relay is closed, which restores the socket table,
    before the scan goes on (or gives up); and the allocation as a whole
    returns, either with two live relays or with an error and the socket
    table as it was before the call. *)
Theorem pair_all_or_nothing env host t1 t2 sp mp fuel w :
  min_int ≤ sp ≤ max_int - 2 →
  mp ≤ max_int - 2 →
  (attempts sp mp ≤ fuel)%nat →
  (∀ w1 l1 w2 e,
      NewUdpProxy env (JoinHostPort host (Itoa sp)) t1 w = (w1, inr l1) →
      NewUdpProxy env (JoinHostPort host (Itoa (int_add sp 1))) t2 w1 = (w2, inl e) →
      ∃ w3,
        Close l1 w2 = Some w3 ∧ closed l1 w3 ∧ socks w3 = socks w
        ∧ NewUdpProxyPair env fuel host t1 t2 sp mp w
          = if sp + 2 >? mp
            then Some (w3, (Some l1, None, Some (range_error (sp + 2) mp)))
            else NewUdpProxyPair_loop env (fuel - 1) host t1 t2 (sp + 2) mp None w3)
  ∧ ∃ w' res,
      NewUdpProxyPair env fuel host t1 t2 sp mp w = Some (w', res)
      ∧ pair_outcome (socks w) w' res.
Proof.
  intros Hsp Hmp Hfuel. split.
  - intros w1 l1 w2 e H1 H2.
    destruct (attempt_released env _ _ _ _ _ _ _ _ _ H1 H2) as (w3 & Hc & Hcl & Hss).
    exists w3. repeat split; try done.
    pose proof (attempts_pos sp mp).
    destruct fuel as [|fuel]; [lia|].
    unfold NewUdpProxyPair.
    rewrite (loop_second_fails env _ _ _ _ _ _ _ _ _ _ _ _ _ H1 H2 Hc).
    rewrite int_add_exact by (unfold min_int, max_int in *; lia).
    by rewrite Nat.sub_1_r.
  - by apply NewUdpProxyPair_loop_returns.
Qed.

(** Port 20001 is taken: the relay bound at 20000 is closed again, and
    the scan over 20000..20003 returns. *)
Lemma pair_all_or_nothing_witness :
  (min_int ≤ 20000 ≤ max_int - 2 ∧ 20003 ≤ max_int - 2
   ∧ (attempts 20000 20003 ≤ 2)%nat)
  ∧ (∃ w1 l1 w2 e w3,
        NewUdpProxy (TestNet.env [20001]) "127.0.0.1:20000" "10.0.0.1:6000"
          empty_world = (w1, inr l1)
        ∧ NewUdpProxy (TestNet.env [20001]) "127.0.0.1:20001" "10.0.0.1:6001" w1
          = (w2, inl e)
        ∧ Close l1 w2 = Some w3 ∧ closed l1 w3 ∧ socks w3 = socks empty_world)
  ∧ ∃ w' res,
      NewUdpProxyPair (TestNet.env [20001]) 2 "127.0.0.1" "10.0.0.1:6000"
        "10.0.0.1:6001" 20000 20003 empty_world = Some (w', res)
      ∧ pair_outcome (socks empty_world) w' res.
Proof.
  set (env := TestNet.env [20001]).
  assert (H1 : min_int ≤ 20000 ≤ max_int - 2) by (vm_compute; split; discriminate).
  assert (H2 : 20003 ≤ max_int - 2) by (vm_compute; discriminate).
  assert (H3 : (attempts 20000 20003 ≤ 2)%nat) by (vm_compute; lia).
  destruct (pair_all_or_nothing env "127.0.0.1" "10.0.0.1:6000" "10.0.0.1:6001"
              20000 20003 2 empty_world H1 H2 H3) as [HA HB].
  split; [done|]. split; [|exact HB].
  destruct (NewUdpProxy env "127.0.0.1:20000" "10.0.0.1:6000" empty_world)
    as [w1 [e1|l1]] eqn:E1; [by vm_compute in E1|].
  destruct (NewUdpProxy env "127.0.0.1:20001" "10.0.0.1:6001" w1)
    as [w2 [e|l2]] eqn:E2.
  - destruct (HA w1 l1 w2 e E1 E2) as (w3 & Hc & Hcl & Hss & _).
    by exists w1, l1, w2, e, w3.
  - exfalso. vm_compute in E1. inversion E1; subst. by vm_compute in E2.
Defined.

(** C8.  On a relay as [NewUdpProxy] makes it, the first of any number
    of close requests (by [Close()] or by a worker, with its error) runs
    the shutdown: both sockets leave the table, the error of that request
    is recorded, the relay is marked closed and one notification is put
    in the channel.  Every later request leaves the state as the first
    left it: the shutdown runs once, the relay stays closed and the
    recorded error is the first one. *)
Theorem close_runs_once l w p e errs :
  proxies w !! l = Some p →
  closeOnce p = false →
  proxyClosed p = 0%nat →
  ∃ w1,
    doclose l e w = Some w1
    ∧ docloses l (e :: errs) w = Some w1
    ∧ proxies w1 !! l = Some (shut e p)
    ∧ Closed (shut e p) = true ∧ Err (shut e p) = e
    ∧ ProxyClosed l w1 = Some 1%nat
    ∧ socks w1 !! listenConn p = None ∧ socks w1 !! targetConn p = None
    ∧ ∀ e', doclose l e' w1 = Some w1.
Proof.
  intros Hp Hdone Hch.
  pose proof (doclose_first l e w p Hp Hdone Hch) as Hfirst.
  eexists. split; [exact Hfirst|].
  assert (Hp1 : proxies
                  (mkWorld (delete (targetConn p) (delete (listenConn p) (socks w)))
                     (<[l := shut e p]> (proxies w))) !! l = Some (shut e p)).
  { simpl. apply list_lookup_insert_eq. by eapply lookup_lt_Some. }
  repeat split; try done.
  - simpl. rewrite Hfirst; simpl. by eapply docloses_done.
  - unfold ProxyClosed. by rewrite Hp1.
  - simpl. destruct (decide (listenConn p = targetConn p)) as [->|].
    + by rewrite lookup_delete_eq.
    + rewrite lookup_delete_ne by done. by rewrite lookup_delete_eq.
  - simpl. by rewrite lookup_delete_eq.
  - intros e'. by eapply doclose_again.
Qed.

Lemma close_runs_once_witness :
  ∃ w l p w1,
    NewUdpProxy (TestNet.env []) "127.0.0.1:20000" "10.0.0.1:6000" empty_world
    = (w, inr l)
    ∧ proxies w !! l = Some p ∧ closeOnce p = false ∧ proxyClosed p = 0%nat
    ∧ docloses l [Some "read: connection refused"; None; Some "write: broken pipe"] w
      = Some w1
    ∧ (Closed <$> proxies w1 !! l) = Some true
    ∧ (Err <$> proxies w1 !! l) = Some (Some "read: connection refused")
    ∧ ProxyClosed l w1 = Some 1%nat
    ∧ socks w1 = ∅.
Proof.
  destruct (NewUdpProxy (TestNet.env []) "127.0.0.1:20000" "10.0.0.1:6000" empty_world)
    as [w [e|l]] eqn:E; [by vm_compute in E|].
  destruct (proxies w !! l) as [p|] eqn:Hp;
    [|vm_compute in E; inversion E; subst; by vm_compute in Hp].
  assert (Hdone : closeOnce p = false).
  { vm_compute in E. inversion E; subst. vm_compute in Hp. by inversion Hp. }
  assert (Hch : proxyClosed p = 0%nat).
  { vm_compute in E. inversion E; subst. vm_compute in Hp. by inversion Hp. }
  destruct (close_runs_once l w p (Some "read: connection refused")
              [None; Some "write: broken pipe"] Hp Hdone Hch)
    as (w1 & Hfirst & Hall & Hp1 & Hcl & Herr & Hn & _).
  exists w, l, p, w1. repeat split; try done.
  - by rewrite Hp1.
  - by rewrite Hp1.
  - rewrite (doclose_first l _ w p Hp Hdone Hch) in Hfirst.
    inversion Hfirst; subst; simpl.
    vm_compute in E. inversion E; subst. vm_compute in Hp. inversion Hp; subst.
    by vm_compute.
Defined.

(** C10.  The range bound is not looked at before the first attempt.
    For any [startPort] and [maxPort], also with [startPort > maxPort]:
    if the pair at [startPort] binds, the call returns it; if the attempt
    fails, [startPort] is incremented by two and only then compared with
    [maxPort], and the error names the incremented value. *)
Theorem first_attempt_precedes_range_check env host t1 t2 sp mp fuel w :
  (∀ w1 l1 w2 l2,
      NewUdpProxy env (JoinHostPort host (Itoa sp)) t1 w = (w1, inr l1) →
      NewUdpProxy env (JoinHostPort host (Itoa (int_add sp 1))) t2 w1 = (w2, inr l2) →
      NewUdpProxyPair env (S fuel) host t1 t2 sp mp w
      = Some (w2, (Some l1, Some l2, None)))
  ∧ (∀ w1 e,
      NewUdpProxy env (JoinHostPort host (Itoa sp)) t1 w = (w1, inl e) →
      NewUdpProxyPair env (S fuel) host t1 t2 sp mp w
      = if int_add sp 2 >? mp
        then Some (w1, (None, None, Some (range_error (int_add sp 2) mp)))
        else NewUdpProxyPair_loop env fuel host t1 t2 (int_add sp 2) mp None w1)
  ∧ (∀ w1 l1 w2 e,
      NewUdpProxy env (JoinHostPort host (Itoa sp)) t1 w = (w1, inr l1) →
      NewUdpProxy env (JoinHostPort host (Itoa (int_add sp 1))) t2 w1 = (w2, inl e) →
      ∃ w3,
        Close l1 w2 = Some w3
        ∧ NewUdpProxyPair env (S fuel) host t1 t2 sp mp w
          = if int_add sp 2 >? mp
            then Some (w3, (Some l1, None, Some (range_error (int_add sp 2) mp)))
            else NewUdpProxyPair_loop env fuel host t1 t2 (int_add sp 2) mp None w3).
Proof.
  unfold NewUdpProxyPair. repeat split.
  - intros ???? H1 H2. by eapply loop_both_bind.
  - intros ?? H1. by eapply loop_first_fails.
  - intros w1 l1 w2 e H1 H2.
    destruct (attempt_released env _ _ _ _ _ _ _ _ _ H1 H2) as (w3 & Hc & _).
    exists w3. split; [done|]. by eapply loop_second_fails.
Qed.

(** A call with [startPort = 30000 > maxPort = 20003]: with the ports
    free it returns the pair at 30000 and 30001; with 30000 taken it
    fails, naming 30002. *)
Lemma first_attempt_precedes_range_check_witness :
  (∃ w2 l1 l2,
      NewUdpProxyPair (TestNet.env []) 1 "127.0.0.1" "10.0.0.1:6000" "10.0.0.1:6001"
        30000 20003 empty_world = Some (w2, (Some l1, Some l2, None))
      ∧ (Port ∘ listenAddr <$> proxies w2 !! l1) = Some 30000
      ∧ (Port ∘ listenAddr <$> proxies w2 !! l2) = Some 30001)
  ∧ NewUdpProxyPair (TestNet.env [30000]) 1 "127.0.0.1" "10.0.0.1:6000" "10.0.0.1:6001"
      30000 20003 empty_world
    = Some (empty_world,
            (None, None,
             Some "Failed to allocate UDP proxy pair in port range 30002-20003")).
Proof.
  split.
  - destruct (NewUdpProxy (TestNet.env []) (JoinHostPort "127.0.0.1" (Itoa 30000))
                "10.0.0.1:6000" empty_world) as [w1 [e1|l1]] eqn:E1;
      [by vm_compute in E1|].
    destruct (NewUdpProxy (TestNet.env []) (JoinHostPort "127.0.0.1" (Itoa (int_add 30000 1)))
                "10.0.0.1:6001" w1) as [w2 [e2|l2]] eqn:E2;
      [vm_compute in E1; inversion E1; subst; by vm_compute in E2|].
    exists w2, l1, l2. split.
    + destruct (first_attempt_precedes_range_check (TestNet.env []) "127.0.0.1"
                  "10.0.0.1:6000" "10.0.0.1:6001" 30000 20003 0 empty_world)
        as (Hok & _).
      exact (Hok w1 l1 w2 l2 E1 E2).
    + vm_compute in E1. inversion E1; subst. vm_compute in E2. inversion E2; subst.
      by vm_compute.
  - destruct (first_attempt_precedes_range_check (TestNet.env [30000]) "127.0.0.1"
                "10.0.0.1:6000" "10.0.0.1:6001" 30000 20003 0 empty_world)
      as (_ & Hfail & _).
    rewrite (Hfail empty_world "bind: address already in use") by (vm_compute; reflexivity).
    by vm_compute.
Defined.

End UdpFacts.

(* ===================================================================== *)
(** * Properties of the session registry                                  *)
(* ===================================================================== *)

Module SessionsFacts.

Import Go Sessions.

Section WithKey.

Context {K : Type} `{Countable K}.
Variable fmt_key : K -> string.

Implicit Types (st : State K) (key : K) (l : nat) (base : SessionBase).

Lemma Stop_armed l st base :
  heap st !! l = Some base → enabled (Stopped base) = false →
  Stop l st
  = Some (store_base l (fired base) (emit (pair l <$> stop_calls (session base)) st)).
Proof.
  intros Hb Harmed. unfold Stop, Enable, Stop_body, fired.
  rewrite Hb; simpl. rewrite Harmed. simpl.
  rewrite list_lookup_insert_eq by (by eapply lookup_lt_Some). simpl.
  unfold store_base; simpl. by rewrite list_insert_insert_eq.
Qed.

Lemma fired_armed base :
  enabled (Stopped base) = false →
  fired base
  = mkSessionBase (mkOneshot true) (stored (session base) (CleanupErr base))
      (session base).
Proof. intros Harmed. unfold fired. by rewrite Harmed. Qed.

Lemma fired_gate base : enabled (Stopped (fired base)) = true.
Proof. unfold fired. by destruct (enabled (Stopped base)) eqn:Hg. Qed.

Lemma fired_session base : session (fired base) = session base.
Proof. unfold fired. by destruct (enabled (Stopped base)). Qed.

Lemma Stop_fired l st base :
  heap st !! l = Some base → enabled (Stopped base) = true → Stop l st = Some st.
Proof.
  intros Hb Hfired. unfold Stop, Enable. rewrite Hb; simpl. by rewrite Hfired.
Qed.

(** [Stop] returns on every allocated entry, and leaves its gate fired. *)
Lemma Stop_inv l st st' :
  Stop l st = Some st' →
  ∃ base,
    heap st !! l = Some base
    ∧ (if enabled (Stopped base)
       then st' = st
       else st' = store_base l (fired base)
                    (emit (pair l <$> stop_calls (session base)) st)).
Proof.
  intros Hstop. destruct (heap st !! l) as [base|] eqn:Hb.
  - exists base. split; [done|].
    destruct (enabled (Stopped base)) eqn:Hg.
    + rewrite (Stop_fired l st base) in Hstop by done. by inversion Hstop.
    + rewrite (Stop_armed l st base) in Hstop by done. by inversion Hstop.
  - unfold Stop, Enable in Hstop. by rewrite Hb in Hstop.
Qed.

Lemma calls_of_app l (tr1 tr2 : list Event) :
  calls_of l (tr1 ++ tr2) = calls_of l tr1 ++ calls_of l tr2.
Proof. unfold calls_of. by rewrite filter_app, fmap_app. Qed.

Lemma calls_of_same l (cs : list Call) : calls_of l (pair l <$> cs) = cs.
Proof.
  unfold calls_of. induction cs as [|c cs IH]; [done|].
  rewrite fmap_cons, filter_cons. simpl.
  case_decide; [|done]. rewrite fmap_cons. simpl. by f_equal.
Qed.

Lemma calls_of_other l l' (cs : list Call) : l' ≠ l → calls_of l (pair l' <$> cs) = [].
Proof.
  intros Hne. unfold calls_of. induction cs as [|c cs IH]; [done|].
  rewrite fmap_cons, filter_cons. simpl.
  by case_decide.
Qed.

(** The gate body calls the cleanup callback once. *)
Lemma stop_calls_one_cleanup (s : Session) :
  length (filter (λ c, c = CallCleanup) (stop_calls s)) = 1%nat.
Proof.
  unfold stop_calls. rewrite filter_app, length_app.
  replace (filter (λ c, c = CallCleanup) (CallObserveeStop <$> Observees s))
    with (@nil Call).
  - done.
  - induction (Observees s) as [|o os IH]; [done|].
    rewrite fmap_cons, filter_cons. by case_decide.
Qed.

Lemma NewSession_returns key (s : Session) st :
  NewSession key s st
  = Some (mkState (heap st ++ [mkSessionBase NewOneshotCondition None s])
            (<[key := length (heap st)]> (sessions st))
            (if (length (Observees s) <? 1)%nat then watchers st
             else watchers st ++ [length (heap st)])
            (trace st ++ [(length (heap st), CallStart)]),
          length (heap st)).
Proof.
  unfold NewSession, observe; simpl.
  rewrite lookup_app_r, Nat.sub_diag by done. simpl.
  by destruct (length (Observees s) <? 1)%nat.
Qed.

Lemma thread_inv_mono key l g t :
  thread_inv key l g t → thread_inv key l true t.
Proof. destruct t; simpl; intuition. Qed.

Lemma pool_inv_mono key l g (pool : list (Thread K)) :
  Forall (thread_inv key l g) pool → Forall (thread_inv key l true) pool.
Proof.
  intros Hpool. eapply Forall_impl; [exact Hpool|].
  intros t. apply thread_inv_mono.
Qed.

Lemma trigger_inv key l g t : trigger key l t → thread_inv key l g t.
Proof. by intros [-> | ->]. Qed.

Lemma remove_first_other l l' ws ws' :
  remove_first l' ws = Some ws' → l ≠ l' → l ∈ ws → l ∈ ws'.
Proof.
  revert ws'. induction ws as [|w ws IH]; intros ws' Hrm Hne Hin; [done|].
  simpl in Hrm. destruct (decide (w = l')) as [->|Hw].
  - inversion Hrm; subst. apply elem_of_cons in Hin as [->|]; done.
  - destruct (remove_first l' ws) as [ws''|]; [|done].
    inversion Hrm; subst.
    apply elem_of_cons in Hin as [->|Hin]; [left|right; by apply IH].
Qed.

(** What a call of [Stop] on any entry [l'] does to the entry [l]:
    the gate of [l] stays fired once fired, fires if [l' = l], and
    the calls made for [l] are the gate body exactly when the gate has
    fired. *)
Lemma Stop_gate l s before l' st st' base extra :
  heap st !! l = Some base →
  session base = s →
  trace st = before ++ extra →
  calls_of l extra = (if enabled (Stopped base) then stop_calls s else []) →
  Stop l' st = Some st' →
  ∃ base' extra',
    heap st' !! l = Some base'
    ∧ session base' = s
    ∧ trace st' = before ++ extra'
    ∧ calls_of l extra' = (if enabled (Stopped base') then stop_calls s else [])
    ∧ sessions st' = sessions st
    ∧ watchers st' = watchers st
    ∧ (enabled (Stopped base) = true → enabled (Stopped base') = true)
    ∧ (l' = l → enabled (Stopped base') = true).
Proof.
  intros Hb Hs Htr Hcalls Hstop.
  apply Stop_inv in Hstop as (base'' & Hb'' & Hst').
  destruct (enabled (Stopped base'')) eqn:Hg''.
  - subst st'. exists base, extra. repeat split; try done.
    intros ->. rewrite Hb in Hb''. by inversion Hb''; subst.
  - subst st'. destruct (decide (l' = l)) as [->|Hne].
    + rewrite Hb in Hb''. inversion Hb''; subst base''. rewrite Hg'' in Hcalls.
      rewrite (fired_armed base Hg'').
      exists (mkSessionBase (mkOneshot true) (stored (session base) (CleanupErr base))
                (session base)),
             (extra ++ (pair l <$> stop_calls (session base))).
      simpl. repeat split; try done.
      * apply list_lookup_insert_eq. by eapply lookup_lt_Some.
      * by rewrite Htr, app_assoc.
      * rewrite calls_of_app, Hcalls, calls_of_same. by rewrite Hs.
    + exists base, (extra ++ (pair l' <$> stop_calls (session base''))).
      simpl. repeat split; try done.
      * by rewrite list_lookup_insert_ne.
      * by rewrite Htr, app_assoc.
      * rewrite calls_of_app, calls_of_other by done. by rewrite app_nil_r.
Qed.

Lemma gate_inv_init key (s : Session) st0 st1 l pool :
  NewSession key s st0 = Some (st1, l) →
  Forall (trigger key l) pool →
  gate_inv key l s (trace st1) (pool, st1).
Proof.
  rewrite NewSession_returns. intros Hnew Hpool. inversion Hnew; subst; clear Hnew.
  exists (mkSessionBase NewOneshotCondition None s), []. simpl.
  repeat split.
  - by rewrite lookup_app_r, Nat.sub_diag.
  - by rewrite app_nil_r.
  - left. apply lookup_insert_eq.
  - eapply Forall_impl; [exact Hpool|]. intros t. apply trigger_inv.
  - intros Hobs. left.
    destruct (Observees s) as [|o os]; [done|]. simpl.
    apply elem_of_app. right. by left.
Qed.

Lemma gate_inv_step key l (s : Session) before cfg cfg' :
  gate_inv key l s before cfg → step fmt_key cfg cfg' → gate_inv key l s before cfg'.
Proof.
  intros (base & extra & Hb & Hs & Htr & Hcalls & Hmap & Hpool & Hwatch) Hstep.
  subst s.
  inversion Hstep as [pool st i t t' st' Hi Hts | pool st l' st' Hw]; subst; simpl in *.
  - pose proof (Forall_lookup_1 _ _ _ _ Hpool Hi) as Ht.
    destruct t as [l'|k|k l'|k l'|k l'|k l'|k e|r]; simpl in Ht, Hts.
    + (* base.Stop() *)
      subst l'. destruct (Stop l st) as [st''|] eqn:Hstop; [|done].
      inversion Hts; subst; clear Hts.
      destruct (Stop_gate l _ before l st st' base extra Hb eq_refl Htr Hcalls Hstop)
        as (base' & extra' & Hb' & Hs' & Htr' & Hcalls' & Hm' & Hw' & _ & Hf).
      rewrite (Hf eq_refl) in *.
      exists base', extra'. simpl. rewrite Hm', Hw', (Hf eq_refl).
      repeat split; try done.
      * destruct Hmap as [?|[? _]]; [by left|by right].
      * apply Forall_insert; [by eapply pool_inv_mono|done].
      * intros _. by right.
    + (* the lookup of StopSession *)
      subst k. exists base, extra. simpl.
      destruct Hmap as [Hm|[Hm Hg]]; rewrite Hm in Hts;
        inversion Hts; subst; clear Hts;
        (repeat split; first [done | by apply Forall_insert | by auto]).
    + (* the test of the gate *)
      destruct Ht as [-> ->]. rewrite Hb in Hts; simpl in Hts.
      unfold Enabled in Hts.
      exists base, extra. simpl.
      destruct (enabled (Stopped base)) eqn:Hg; inversion Hts; subst; clear Hts;
        (repeat split; first [done | by apply Forall_insert | by auto]).
    + (* the read of CleanupErr for the message *)
      destruct Ht as (-> & -> & Hg). rewrite Hb in Hts; simpl in Hts.
      inversion Hts; subst; clear Hts.
      exists base, extra. simpl.
      repeat split; try done. by apply Forall_insert.
    + (* session.Stop() *)
      destruct Ht as [-> ->]. destruct (Stop l st) as [st''|] eqn:Hstop; [|done].
      inversion Hts; subst; clear Hts.
      destruct (Stop_gate l _ before l st st' base extra Hb eq_refl Htr Hcalls Hstop)
        as (base' & extra' & Hb' & Hs' & Htr' & Hcalls' & Hm' & Hw' & _ & Hf).
      rewrite (Hf eq_refl) in *.
      exists base', extra'. simpl. rewrite Hm', Hw', (Hf eq_refl).
      repeat split; try done.
      * destruct Hmap as [?|[? _]]; [by left|by right].
      * apply Forall_insert; [by eapply pool_inv_mono|done].
      * intros _. by right.
    + (* the read of CleanupErr *)
      destruct Ht as (-> & -> & Hg). rewrite Hb in Hts; simpl in Hts.
      inversion Hts; subst; clear Hts.
      exists base, extra. simpl.
      repeat split; try done. by apply Forall_insert.
    + (* delete(sessions, key) *)
      destruct Ht as [-> Hg]. inversion Hts; subst; clear Hts.
      exists base, extra. simpl.
      repeat split; try done.
      * right. split; [apply lookup_delete_eq|done].
      * by apply Forall_insert.
    + done.
  - (* a watcher resumes *)
    unfold watcher_fires in Hw.
    destruct (remove_first l' (watchers st)) as [ws|] eqn:Hrm; [|done].
    simpl in Hw.
    destruct (Stop_gate l _ before l' (set_watchers ws st) st' base extra
                Hb eq_refl Htr Hcalls Hw)
      as (base' & extra' & Hb' & Hs' & Htr' & Hcalls' & Hm' & Hw' & Hkeep & Hf).
    exists base', extra'. simpl. rewrite Hm', Hw'. simpl.
    repeat split; try done.
    + destruct Hmap as [?|[? Hg]]; [by left|right; auto].
    + destruct (enabled (Stopped base)) eqn:Hg.
      * by rewrite (Hkeep eq_refl).
      * destruct (enabled (Stopped base')); [by eapply pool_inv_mono|done].
    + intros Hobs. destruct (decide (l = l')) as [->|Hne]; [right; auto|].
      destruct (Hwatch Hobs) as [Hin|Hg]; [|right; auto].
      left. by eapply remove_first_other.
Qed.

Lemma gate_inv_rtc key l (s : Session) before cfg cfg' :
  gate_inv key l s before cfg → rtc (step fmt_key) cfg cfg' →
  gate_inv key l s before cfg'.
Proof.
  intros Hinv Hrtc. induction Hrtc as [|cfg cfg1 cfg2 Hstep _ IH]; [done|].
  apply IH. by eapply gate_inv_step.
Qed.

(** A run of the scheduler is a sequence of steps. *)
Lemma run_rtc cs (cfg cfg' : list (Thread K) * State K) :
  run fmt_key cs cfg = Some cfg' → rtc (step fmt_key) cfg cfg'.
Proof.
  revert cfg. induction cs as [|c cs IH]; intros cfg Hrun.
  - inversion Hrun. apply rtc_refl.
  - simpl in Hrun. destruct (sched_step fmt_key c cfg) as [cfg1|] eqn:Hc; [|done].
    simpl in Hrun. eapply rtc_l; [|by apply IH].
    destruct cfg as [pool st]. destruct c as [i|l]; simpl in Hc.
    + destruct (pool !! i) as [t|] eqn:Hi; [|done]. simpl in Hc.
      destruct (thread_step fmt_key t st) as [[t' st']|] eqn:Hts; [|done].
      inversion Hc; subst. by eapply step_thread.
    + destruct (watcher_fires l st) as [st'|] eqn:Hw; [|done].
      inversion Hc; subst. by eapply step_watcher.
Qed.

Lemma step_single t t' st st' :
  thread_step fmt_key t st = Some (t', st') →
  step fmt_key ([t], st) ([t'], st').
Proof. intros Hts. by apply (step_thread fmt_key [t] st 0 t t' st'). Qed.

(** [StopSession], taken on its own, is the run of one caller through its
    steps. *)
Lemma StopSession_as_steps key st st' err :
  StopSession fmt_key key st = Some (st', err) →
  rtc (step fmt_key) ([TStopSession key], st) ([TDone err], st').
Proof.
  unfold StopSession. intros Hstop.
  destruct (sessions st !! key) as [l|] eqn:Hk.
  - destruct (heap st !! l) as [base|] eqn:Hb; [|done]. simpl in Hstop.
    unfold Enabled in Hstop.
    eapply rtc_l; [apply step_single; simpl; by rewrite Hk|].
    destruct (enabled (Stopped base)) eqn:Hg; simpl in Hstop.
    + inversion Hstop; subst; clear Hstop.
      eapply rtc_l.
      { apply step_single. simpl. rewrite Hb; simpl. unfold Enabled. by rewrite Hg. }
      eapply rtc_l; [apply step_single; simpl; by rewrite Hb|].
      eapply rtc_l; [by apply step_single|apply rtc_refl].
    + destruct (Stop l st) as [st1|] eqn:Hs; [|done]. simpl in Hstop.
      destruct (heap st1 !! l) as [base1|] eqn:Hb1; [|done]. simpl in Hstop.
      inversion Hstop; subst; clear Hstop.
      eapply rtc_l.
      { apply step_single. simpl. rewrite Hb; simpl. unfold Enabled. by rewrite Hg. }
      eapply rtc_l; [apply step_single; simpl; by rewrite Hs|].
      eapply rtc_l; [apply step_single; simpl; by rewrite Hb1|].
      eapply rtc_l; [by apply step_single|apply rtc_refl].
  - inversion Hstop; subst; clear Hstop.
    eapply rtc_l; [apply step_single; simpl; by rewrite Hk|apply rtc_refl].
Qed.

(** ** The claims *)

(** C2.  An entry is registered and any number of callers (holders of
    the pointer calling [Stop], stop requests for the key) race with
    each other and with the watcher of the entry, in any interleaving
    of their accesses to the shared state.  At every point of every
    such run the calls made for the entry since registration are
    either none or the gate body once (each observee stopped, the wait,
    the cleanup); and once any caller has returned, or the watcher has
    resumed, they are the gate body, exactly once. *)
Theorem stop_gate_exactly_once key (s : Session) st0 st1 l pool pool' st' :
  NewSession key s st0 = Some (st1, l) →
  Forall (trigger key l) pool →
  rtc (step fmt_key) (pool, st1) (pool', st') →
  ∃ extra,
    trace st' = trace st1 ++ extra
    ∧ (calls_of l extra = [] ∨ calls_of l extra = stop_calls s)
    ∧ (cleanups l extra ≤ 1)%nat
    ∧ ((∃ i ret, pool' !! i = Some (TDone ret))
       ∨ (Observees s ≠ [] ∧ l ∉ watchers st') →
       calls_of l extra = stop_calls s ∧ cleanups l extra = 1%nat).
Proof.
  intros Hnew Hpool Hrtc.
  pose proof (gate_inv_init key s st0 st1 l pool Hnew Hpool) as Hinit.
  destruct (gate_inv_rtc key l s (trace st1) _ _ Hinit Hrtc)
    as (base & extra & Hb & Hs & Htr & Hcalls & Hmap & Hpool' & Hwatch).
  simpl in *. exists extra. split; [done|].
  unfold cleanups. destruct (enabled (Stopped base)) eqn:Hg.
  - rewrite Hcalls, stop_calls_one_cleanup.
    split; [by right|]. split; [lia|]. by intros _.
  - rewrite Hcalls. simpl.
    split; [by left|]. split; [lia|].
    intros [(i & ret & Hi)|[Hobs Hnotin]]; exfalso.
    + by pose proof (Forall_lookup_1 _ _ _ _ Hpool' Hi).
    + destruct (Hwatch Hobs); done.
Qed.

(** C3 (as amended).  When a stop request finds the gate armed, the
    gate body is run; its last call is the cleanup callback, which
    returns nothing.  The gate body assigns nothing itself: the entry
    comes out with its gate fired and with in [CleanupErr] what the user
    code behind the calls has left there, and the request returns that
    value.  It is the error the cleanup callback has assigned, if it has
    assigned one, and the earlier value of the field if neither the
    callback nor an observee has assigned anything. *)
Theorem gate_returns_stored_cleanup_error key st l base :
  sessions st !! key = Some l →
  heap st !! l = Some base →
  Enabled (Stopped base) = false →
  ∃ st1,
    Stop l st = Some st1
    ∧ trace st1 = trace st ++ (pair l <$> stop_calls (session base))
    ∧ last (stop_calls (session base)) = Some CallCleanup
    ∧ heap st1 !! l = Some (fired base)
    ∧ CleanupErr (fired base) = stored (session base) (CleanupErr base)
    ∧ StopSession fmt_key key st
      = Some (set_sessions (delete key (sessions st1)) st1,
              stored (session base) (CleanupErr base))
    ∧ (∀ e, Cleanup_stores (session base) = Some e →
            stored (session base) (CleanupErr base) = e)
    ∧ (Cleanup_stores (session base) = None →
       (∀ o, o ∈ Observees (session base) → Stop_stores (session base) o = None) →
       stored (session base) (CleanupErr base) = CleanupErr base).
Proof.
  intros Hk Hb Hg. unfold Enabled in Hg.
  pose proof (Stop_armed l st base Hb Hg) as Hstop.
  assert (Hb1 : heap (store_base l (fired base)
                        (emit (pair l <$> stop_calls (session base)) st)) !! l
                = Some (fired base)).
  { simpl. apply list_lookup_insert_eq. by eapply lookup_lt_Some. }
  assert (Hf : CleanupErr (fired base) = stored (session base) (CleanupErr base))
    by (by rewrite (fired_armed base Hg)).
  eexists. split; [exact Hstop|]. split; [done|].
  split; [unfold stop_calls; by rewrite last_app|].
  split; [exact Hb1|]. split; [exact Hf|]. split; [|split].
  - unfold StopSession. rewrite Hk, Hb; simpl. unfold Enabled. rewrite Hg.
    rewrite Hstop; simpl. rewrite list_lookup_insert_eq by (by eapply lookup_lt_Some).
    simpl. by rewrite Hf.
  - intros e He. unfold stored. by rewrite He.
  - intros Hc Ho. unfold stored. rewrite Hc. simpl.
    generalize (CleanupErr base).
    induction (Observees (session base)) as [|o os IH]; intros v; [done|].
    simpl. rewrite (Ho o) by (by left). simpl. apply IH.
    intros o' Ho'. apply Ho. by right.
Qed.

(** C7.  [StopSession(key)]: without an entry it fails with "No session
    found" and changes nothing; on an entry whose gate has fired it
    reports "Session stopped prematurely: " followed by the entry's
    cleanup error, or by "(no error)" when there is none, and makes no
    call; and whenever an entry exists it returns with the key deleted
    from the map and the other keys as they were. *)
Theorem StopSession_cases key st :
  (sessions st !! key = None →
     StopSession fmt_key key st = Some (st, Some (not_found_error fmt_key key)))
  ∧ (∀ l base,
       sessions st !! key = Some l →
       heap st !! l = Some base →
       Enabled (Stopped base) = true →
       StopSession fmt_key key st
       = Some (set_sessions (delete key (sessions st)) st,
               Some (premature_error (CleanupErr base)))
       ∧ (CleanupErr base = None →
          premature_error (CleanupErr base)
          = "Session stopped prematurely: (no error)")
       ∧ (∀ e, CleanupErr base = Some e →
               premature_error (CleanupErr base)
               = "Session stopped prematurely: " +:+ e))
  ∧ (∀ l base,
       sessions st !! key = Some l →
       heap st !! l = Some base →
       ∃ st' err,
         StopSession fmt_key key st = Some (st', err)
         ∧ sessions st' = delete key (sessions st)
         ∧ sessions st' !! key = None
         ∧ ∀ k, k ≠ key → sessions st' !! k = sessions st !! k).
Proof.
  split; [|split].
  - intros Hk. unfold StopSession. by rewrite Hk.
  - intros l base Hk Hb Hg. split; [|split].
    + unfold StopSession. rewrite Hk, Hb; simpl. by rewrite Hg.
    + by intros ->.
    + by intros e ->.
  - intros l base Hk Hb. unfold StopSession. rewrite Hk, Hb; simpl.
    unfold Enabled. destruct (enabled (Stopped base)) eqn:Hg; simpl.
    + eexists _, _. split; [done|]. simpl. repeat split.
      * apply lookup_delete_eq.
      * intros k Hne. by apply lookup_delete_ne.
    + rewrite (Stop_armed l st base Hb Hg); simpl.
      rewrite list_lookup_insert_eq by (by eapply lookup_lt_Some). simpl.
      eexists _, _. split; [done|]. simpl. repeat split.
      * apply lookup_delete_eq.
      * intros k Hne. by apply lookup_delete_ne.
Qed.

(** The watcher of an entry fires its gate before any stop request;
    the stop request for the key that follows returns "Session stopped
    prematurely", with the cleanup error that the gate body has left in
    the entry, or "(no error)" without one, and deletes the key. *)
Lemma StopSession_after_watcher key st l base :
  sessions st !! key = Some l →
  heap st !! l = Some base →
  Enabled (Stopped base) = false →
  l ∈ watchers st →
  ∃ st1 st2,
    watcher_fires l st = Some st1
    ∧ StopSession fmt_key key st1
      = Some (st2, Some (premature_error (CleanupErr (fired base))))
    ∧ sessions st2 !! key = None.
Proof.
  intros Hk Hb Hg Hin. unfold Enabled in Hg. unfold watcher_fires.
  assert (Hrm : ∃ ws, remove_first l (watchers st) = Some ws).
  { clear -Hin. induction (watchers st) as [|w ws IH]; [by apply elem_of_nil in Hin|].
    simpl. destruct (decide (w = l)); [by eexists|].
    apply elem_of_cons in Hin as [->|Hin]; [done|].
    destruct (IH Hin) as [ws' ->]. by eexists. }
  destruct Hrm as [ws ->]. simpl.
  rewrite (Stop_armed l (set_watchers ws st) base) by done.
  eexists _, _. split; [done|].
  unfold StopSession. simpl. rewrite Hk.
  rewrite list_lookup_insert_eq by (by eapply lookup_lt_Some). simpl.
  unfold Enabled. rewrite fired_gate.
  split; [done|]. simpl. apply lookup_delete_eq.
Qed.

End WithKey.

(** The race of [TestRegistry]: three callers return, the gate body has
    run once. *)
Lemma stop_gate_exactly_once_witness :
  ∃ st1 pool' st',
    NewSession "k" TestRegistry.session0 empty_state = Some (st1, 0%nat)
    ∧ Forall (trigger "k" 0) TestRegistry.callers
    ∧ run TestRegistry.fmt TestRegistry.schedule (TestRegistry.callers, st1)
      = Some (pool', st')
    ∧ pool' = [TDone None; TDone None;
               TDone (Some "Session stopped prematurely: (no error)")]
    ∧ calls_of 0 (trace st')
      = [CallStart; CallObserveeStop "rtsp client"; CallWgWait; CallCleanup]
    ∧ ∃ extra, trace st' = trace st1 ++ extra ∧ cleanups 0 extra = 1%nat.
Proof.
  destruct (NewSession "k" TestRegistry.session0 (empty_state (K := string)))
    as [[st1 l]|] eqn:Hnew; [|by vm_compute in Hnew].
  assert (l = 0%nat) as -> by (vm_compute in Hnew; by inversion Hnew).
  destruct (run TestRegistry.fmt TestRegistry.schedule (TestRegistry.callers, st1))
    as [[pool' st']|] eqn:Hrun;
    [|vm_compute in Hnew; inversion Hnew; subst; by vm_compute in Hrun].
  assert (Hpool : Forall (trigger "k" 0) TestRegistry.callers).
  { repeat constructor; (by left) || (by right). }
  assert (Hpool' : pool' = [TDone None; TDone None;
                            TDone (Some "Session stopped prematurely: (no error)")]).
  { vm_compute in Hnew. inversion Hnew; subst. vm_compute in Hrun. by inversion Hrun. }
  destruct (stop_gate_exactly_once TestRegistry.fmt "k" TestRegistry.session0
              empty_state st1 0 TestRegistry.callers pool' st'
              Hnew Hpool (run_rtc _ _ _ _ Hrun))
    as (extra & Htr & _ & _ & Hdone).
  exists st1, pool', st'. repeat split; try done.
  - vm_compute in Hnew. inversion Hnew; subst. vm_compute in Hrun.
    inversion Hrun; subst. by vm_compute.
  - exists extra. split; [done|]. apply Hdone. left.
    exists 0%nat, None. by rewrite Hpool'.
Defined.

Lemma gate_returns_stored_cleanup_error_witness :
  sessions TestRegistry.registered_reporting !! "k" = Some 0%nat
  ∧ heap TestRegistry.registered_reporting !! 0%nat
    = Some (mkSessionBase NewOneshotCondition None TestRegistry.reporting)
  ∧ Enabled (Stopped (mkSessionBase NewOneshotCondition None TestRegistry.reporting))
    = false
  ∧ ∃ st1,
      StopSession TestRegistry.fmt "k" TestRegistry.registered_reporting
      = Some (set_sessions (delete "k" (sessions st1)) st1,
              Some "close relay: broken pipe")
      ∧ calls_of 0 (trace st1)
        = [CallStart; CallObserveeStop "rtsp client"; CallWgWait; CallCleanup].
Proof.
  assert (Hk : sessions TestRegistry.registered_reporting !! "k" = Some 0%nat)
    by (vm_compute; reflexivity).
  assert (Hb : heap TestRegistry.registered_reporting !! 0%nat
               = Some (mkSessionBase NewOneshotCondition None TestRegistry.reporting))
    by (vm_compute; reflexivity).
  split; [exact Hk|]. split; [exact Hb|]. split; [reflexivity|].
  destruct (gate_returns_stored_cleanup_error TestRegistry.fmt "k"
              TestRegistry.registered_reporting 0 _ Hk Hb eq_refl)
    as (st1 & _ & Htr & _ & _ & _ & Hss & _).
  exists st1. split; [exact Hss|].
  rewrite Htr. vm_compute. reflexivity.
Defined.

(** C3 (the claim as stated fails).  Two entries made by [NewSession],
    whose cleanup callbacks do the same: neither assigns an error.  The
    observee of the second assigns an error to [CleanupErr] when it is
    stopped.  The stop request that fires the gate returns nil for the
    first and the error of the observee for the second, which is also
    what the entry holds afterwards: what the request returns is not
    the outcome of the cleanup callback, which the gate body has not
    captured. *)
Lemma gate_does_not_capture :
  Cleanup_stores TestRegistry.killing = Cleanup_stores TestRegistry.session0
  ∧ (∃ st', StopSession TestRegistry.fmt "k" TestRegistry.registered
            = Some (st', None))
  ∧ (∃ st', StopSession TestRegistry.fmt "k" TestRegistry.registered_killing
            = Some (st', Some "rtsp client: killed"))
  ∧ ¬ gate_captures TestRegistry.fmt "k" TestRegistry.registered_killing.
Proof.
  assert (Hstop : ∃ st',
            StopSession TestRegistry.fmt "k" TestRegistry.registered_killing
            = Some (st', Some "rtsp client: killed")).
  { eexists. vm_compute. reflexivity. }
  split; [reflexivity|].
  split; [eexists; vm_compute; reflexivity|].
  split; [exact Hstop|].
  intros Hclaim. destruct Hstop as [st' Hstop].
  destruct (Hclaim 0%nat (mkSessionBase NewOneshotCondition None TestRegistry.killing)
              st' (Some "rtsp client: killed")) as [Herr _].
  - vm_compute. reflexivity.
  - vm_compute. reflexivity.
  - reflexivity.
  - exact Hstop.
  - vm_compute in Herr. discriminate.
Qed.

Lemma StopSession_cases_witness :
  StopSession TestRegistry.fmt "k" empty_state
  = Some (empty_state, Some "No session found for k")
  ∧ (∃ st', StopSession TestRegistry.fmt "k" TestRegistry.self_stopped
            = Some (st', Some "Session stopped prematurely: (no error)")
            ∧ sessions st' !! "k" = None
            ∧ trace st' = trace TestRegistry.self_stopped)
  ∧ (∃ st', StopSession TestRegistry.fmt "k" TestRegistry.failed
            = Some (st', Some "Session stopped prematurely: write: broken pipe")
            ∧ sessions st' !! "k" = None)
  ∧ (∃ st' err, StopSession TestRegistry.fmt "k" TestRegistry.registered
                = Some (st', err)
                ∧ sessions st' !! "k" = None).
Proof.
  split; [|split; [|split]].
  - destruct (StopSession_cases TestRegistry.fmt "k" (empty_state (K := string)))
      as (Hnone & _).
    rewrite Hnone by (by vm_compute). by vm_compute.
  - destruct (StopSession_cases TestRegistry.fmt "k" TestRegistry.self_stopped)
      as (_ & Hfired & _).
    destruct (Hfired 0%nat (fired (mkSessionBase NewOneshotCondition None
                                     TestRegistry.session0)))
      as (Hrun & _); try (by vm_compute).
    eexists. split; [exact Hrun|]. split; [apply lookup_delete_eq|done].
  - destruct (StopSession_cases TestRegistry.fmt "k" TestRegistry.failed)
      as (_ & Hfired & _).
    destruct (Hfired 0%nat (mkSessionBase (mkOneshot true) (Some "write: broken pipe")
                              TestRegistry.session0))
      as (Hrun & _); try (by vm_compute).
    eexists. split; [exact Hrun|]. apply lookup_delete_eq.
  - destruct (StopSession_cases TestRegistry.fmt "k" TestRegistry.registered)
      as (_ & _ & Hany).
    destruct (Hany 0%nat (mkSessionBase NewOneshotCondition None TestRegistry.session0))
      as (st' & err & Hrun & _ & Hgone & _); try (by vm_compute).
    by exists st', err.
Defined.

End SessionsFacts.

(* ===================================================================== *)
(** * Properties of the AMP-to-RTSP proxy                                 *)
(* ===================================================================== *)

Module AmpFacts.

Import Go Udp Amp.

Lemma minPort_in_range : min_int ≤ minPort ≤ max_int - 2.
Proof. vm_compute. split; discriminate. Qed.

Lemma maxPort_in_range : maxPort ≤ max_int - 2.
Proof. vm_compute. discriminate. Qed.

Section WithEnv.

Variable env : AmpEnv.
Variable cfg : Config.

(** The scan of [startSession] has fuel for all its attempts. *)
Lemma pair_returns host t1 t2 w :
  ∃ w' res,
    NewUdpProxyPair (net env) pair_fuel host t1 t2 minPort maxPort w = Some (w', res)
    ∧ pair_outcome (socks w) w' res.
Proof.
  apply UdpFacts.NewUdpProxyPair_loop_returns;
    [apply maxPort_in_range|apply minPort_in_range|done].
Qed.

Lemma startSession_exists desc st s :
  sessions st !! JoinHostPort (ReceiverHost desc) (Itoa (Port_ desc)) = Some s →
  startSession env cfg desc st
  = Some (st, Some (already_exists_error
                      (JoinHostPort (ReceiverHost desc) (Itoa (Port_ desc))))).
Proof. intros Hs. unfold startSession. by rewrite Hs. Qed.

Lemma startSession_returns desc st :
  ∃ st' r, startSession env cfg desc st = Some (st', r).
Proof.
  unfold startSession.
  destruct (sessions st !! _); [by eexists _, _|].
  destruct (pair_returns (proxyHost cfg)
              (JoinHostPort (ReceiverHost desc) (Itoa (Port_ desc)))
              (JoinHostPort (ReceiverHost desc) (Itoa (int_add (Port_ desc) 1)))
              (world st)) as (w1 & res & -> & Hout).
  simpl. destruct Hout as [(l1 & l2 & p1 & p2 & -> & _ & _ & _ & Hp1 & _)
                          |(proxy1 & e & -> & _)]; [|by eexists _, _].
  simpl. rewrite Hp1; simpl.
  destruct (rtsp_start_err env _ _ _ _); by eexists _, _.
Qed.

Lemma startSession_success desc st st' :
  startSession env cfg desc st = Some (st', None) →
  ∃ s p1 p2,
    sessions st !! JoinHostPort (ReceiverHost desc) (Itoa (Port_ desc)) = None
    ∧ sessions st'
      = <[JoinHostPort (ReceiverHost desc) (Itoa (Port_ desc)) := s]> (sessions st)
    ∧ client s = JoinHostPort (ReceiverHost desc) (Itoa (Port_ desc))
    ∧ port s = Port_ desc ∧ mediaFile s = MediaFile desc
    ∧ rtpProxy s ≠ rtcpProxy s
    ∧ proxies (world st') !! rtpProxy s = Some p1
    ∧ proxies (world st') !! rtcpProxy s = Some p2
    ∧ ResolveUDPAddr (net env)
        (JoinHostPort (ReceiverHost desc) (Itoa (Port_ desc)))
      = inr (targetAddr p1)
    ∧ ResolveUDPAddr (net env)
        (JoinHostPort (ReceiverHost desc) (Itoa (int_add (Port_ desc) 1)))
      = inr (targetAddr p2)
    ∧ (∃ q, ResolveUDPAddr (net env) (JoinHostPort (proxyHost cfg) (Itoa q))
            = inr (listenAddr p1)
            ∧ ResolveUDPAddr (net env)
                (JoinHostPort (proxyHost cfg) (Itoa (int_add q 1)))
              = inr (listenAddr p2))
    ∧ live (rtpProxy s) (world st') ∧ live (rtcpProxy s) (world st')
    ∧ (∃ b, backends st' !! backend s = Some b
            ∧ rtsp_port b = Port (listenAddr p1)
            ∧ rtsp_url b = media_url env (rtspURL cfg) (MediaFile desc)
            ∧ rtsp_stopped b = false)
    ∧ s ∈ watchers st'.
Proof.
  unfold startSession.
  destruct (sessions st !! _) eqn:Hnone; [done|].
  unfold NewUdpProxyPair.
  destruct (NewUdpProxyPair_loop _ _ _ _ _ _ _ _ _) as [[w1 [[r1 r2] [e|]]]|] eqn:Hpair;
    simpl; try done.
  destruct (UdpFacts.loop_success _ _ _ _ _ _ _ _ _ _ _ _ Hpair)
    as (q & l1 & l2 & p1 & p2 & -> & -> & Hne & Hp1 & Hp2 & Hl1 & Ht1 & Hl2 & Ht2
        & Hlive1 & Hlive2).
  simpl. rewrite Hp1; simpl.
  destruct (rtsp_start_err env _ _ _ _); [done|].
  intros Hret. inversion Hret; subst; clear Hret.
  eexists _, p1, p2. unfold observe.
  destruct (RtspStartedCallback cfg); simpl;
    (repeat split; try done;
     [by exists q
     |eexists; split; [by rewrite lookup_app_r, Nat.sub_diag|done]
     |apply elem_of_app; right; by left]).
Qed.

End WithEnv.

(** ** The claims *)

(** C1 (the code departs from it).  No session exists for the client,
    the relay pair is allocated, and the backend client does not start:
    [startSession] returns the wrapped error with the map as it was, but
    it has not closed the relays: both are live, their sockets bound. *)
Theorem backend_failure_leaves_relays_open env cfg desc st w1 l1 l2 e :
  sessions st !! JoinHostPort (ReceiverHost desc) (Itoa (Port_ desc)) = None →
  NewUdpProxyPair (net env) pair_fuel (proxyHost cfg)
    (JoinHostPort (ReceiverHost desc) (Itoa (Port_ desc)))
    (JoinHostPort (ReceiverHost desc) (Itoa (int_add (Port_ desc) 1)))
    minPort maxPort (world st)
  = Some (w1, (Some l1, Some l2, None)) →
  (∀ bs url p log, rtsp_start_err env bs url p log = Some e) →
  startSession env cfg desc st = Some (set_world w1 st, Some (rtsp_failed_error e))
  ∧ sessions (set_world w1 st) = sessions st
  ∧ live l1 w1 ∧ live l2 w1
  ∧ ¬ closed l1 w1 ∧ ¬ closed l2 w1.
Proof.
  intros Hnone Hpair Hdown.
  destruct (UdpFacts.loop_success _ _ _ _ _ _ _ _ _ _ _ _ Hpair)
    as (q & l1' & l2' & p1 & p2 & Hr1 & Hr2 & Hne & Hp1 & Hp2 & _ & _ & _ & _
        & Hlive1 & Hlive2).
  inversion Hr1; inversion Hr2; subst l1' l2'.
  repeat split; try done.
  - unfold startSession. rewrite Hnone, Hpair; simpl. rewrite Hp1; simpl.
    by rewrite Hdown.
  - intros (p & Hp & Hdone & _). destruct Hlive1 as (p' & Hp' & Hdone' & _).
    rewrite Hp in Hp'. inversion Hp'; subst. by rewrite Hdone in Hdone'.
  - intros (p & Hp & Hdone & _). destruct Hlive2 as (p' & Hp' & Hdone' & _).
    rewrite Hp in Hp'. inversion Hp'; subst. by rewrite Hdone in Hdone'.
Qed.

(** A start request for 127.0.0.1:6000 on an empty proxy whose backend
    refuses: ports 20000 and 20001 stay bound. *)
Lemma backend_failure_leaves_relays_open_witness :
  ∃ st',
    startSession (TestNet.amp_env [] false) TestNet.cfg TestNet.start_desc empty_state
    = Some (st', Some "Failed to start RTSP client: connection refused")
    ∧ sessions st' = ∅
    ∧ live 0 (world st') ∧ live 1 (world st')
    ∧ size (socks (world st')) = 4%nat
    ∧ (Port ∘ listenAddr <$> proxies (world st') !! 0%nat) = Some 20000
    ∧ (Port ∘ listenAddr <$> proxies (world st') !! 1%nat) = Some 20001.
Proof.
  destruct (NewUdpProxyPair (net (TestNet.amp_env [] false)) pair_fuel "127.0.0.1"
              "127.0.0.1:6000" "127.0.0.1:6001" minPort maxPort empty_world)
    as [[w1 res]|] eqn:Hpair; [|by vm_compute in Hpair].
  assert (Hres : res = (Some 0%nat, Some 1%nat, None)).
  { vm_compute in Hpair. by inversion Hpair. }
  subst res.
  destruct (backend_failure_leaves_relays_open (TestNet.amp_env [] false) TestNet.cfg
              TestNet.start_desc empty_state w1 0 1 "connection refused")
    as (Hrun & Hss & Hlive1 & Hlive2 & _); [done|exact Hpair|done|].
  exists (set_world w1 empty_state). repeat split; try done.
  all: vm_compute in Hpair; inversion Hpair; subst; by vm_compute.
Defined.

(** C9.  [startSession] returns on every request.  The client key is
    [JoinHostPort(ReceiverHost, Itoa(Port))].  If the map holds a session
    under that key, the answer is the "already exists" error and the
    state, sockets included, is unchanged.  If the answer is success, the
    map holds the new session under the client key; its RTP relay is
    connected to (ReceiverHost, Port), its RTCP relay to
    (ReceiverHost, Port+1), both are live and listen on the proxy host at
    a port and its successor. *)
Theorem startSession_key_and_targets env cfg desc st :
  (∃ st' r, startSession env cfg desc st = Some (st', r))
  ∧ (∀ s,
       sessions st !! JoinHostPort (ReceiverHost desc) (Itoa (Port_ desc)) = Some s →
       startSession env cfg desc st
       = Some (st, Some (already_exists_error
                           (JoinHostPort (ReceiverHost desc) (Itoa (Port_ desc))))))
  ∧ (∀ st',
       startSession env cfg desc st = Some (st', None) →
       ∃ s p1 p2,
         sessions st' !! JoinHostPort (ReceiverHost desc) (Itoa (Port_ desc)) = Some s
         ∧ sessions st'
           = <[JoinHostPort (ReceiverHost desc) (Itoa (Port_ desc)) := s]> (sessions st)
         ∧ client s = JoinHostPort (ReceiverHost desc) (Itoa (Port_ desc))
         ∧ port s = Port_ desc
         ∧ proxies (world st') !! rtpProxy s = Some p1
         ∧ proxies (world st') !! rtcpProxy s = Some p2
         ∧ ResolveUDPAddr (net env)
             (JoinHostPort (ReceiverHost desc) (Itoa (Port_ desc)))
           = inr (targetAddr p1)
         ∧ ResolveUDPAddr (net env)
             (JoinHostPort (ReceiverHost desc) (Itoa (int_add (Port_ desc) 1)))
           = inr (targetAddr p2)
         ∧ (∃ q, ResolveUDPAddr (net env) (JoinHostPort (proxyHost cfg) (Itoa q))
                 = inr (listenAddr p1)
                 ∧ ResolveUDPAddr (net env)
                     (JoinHostPort (proxyHost cfg) (Itoa (int_add q 1)))
                   = inr (listenAddr p2))
         ∧ live (rtpProxy s) (world st') ∧ live (rtcpProxy s) (world st')).
Proof.
  split; [apply startSession_returns|]. split; [apply startSession_exists|].
  intros st' Hrun.
  destruct (startSession_success env cfg desc st st' Hrun)
    as (s & p1 & p2 & _ & Hmap & ? & ? & _ & _ & ? & ? & ? & ? & ? & ? & ? & _).
  exists s, p1, p2. repeat split; try done.
  rewrite Hmap. apply lookup_insert_eq.
Qed.

(** A start request for 127.0.0.1:6000, on an empty proxy and then on
    the proxy that has this session. *)
Lemma startSession_key_and_targets_witness :
  (∃ st' s p1 p2,
      startSession (TestNet.amp_env [] true) TestNet.cfg TestNet.start_desc empty_state
      = Some (st', None)
      ∧ sessions st' !! "127.0.0.1:6000" = Some s
      ∧ proxies (world st') !! rtpProxy s = Some p1
      ∧ proxies (world st') !! rtcpProxy s = Some p2
      ∧ targetAddr p1 = mkUDPAddr "127.0.0.1" 6000
      ∧ targetAddr p2 = mkUDPAddr "127.0.0.1" 6001)
  ∧ startSession (TestNet.amp_env [] true) TestNet.cfg TestNet.start_desc
      TestNet.started
    = Some (TestNet.started, Some "Session already exists for client 127.0.0.1:6000").
Proof.
  set (env := TestNet.amp_env [] true). split.
  - destruct (startSession_key_and_targets env TestNet.cfg TestNet.start_desc empty_state)
      as ((st' & r & Hrun) & _ & Hok).
    assert (r = None) as ->.
    { unfold env in Hrun. vm_compute in Hrun. by inversion Hrun. }
    destruct (Hok st' Hrun)
      as (s & p1 & p2 & Hs & _ & _ & _ & Hp1 & Hp2 & Ht1 & Ht2 & _).
    exists st', s, p1, p2. repeat split; try done.
    + vm_compute in Ht1. by inversion Ht1.
    + vm_compute in Ht2. by inversion Ht2.
  - destruct (startSession_key_and_targets env TestNet.cfg TestNet.start_desc
                TestNet.started) as (_ & Hdup & _).
    rewrite (Hdup TestNet.session0) by (by vm_compute). done.
Defined.

End AmpFacts.

(* ===================================================================== *)
(** * A backend that ends by itself, then a stop request                  *)
(* ===================================================================== *)

Module SelfTermination.

Import Go.

(** Once the watcher of the proxy has run for a session, the stop
    request for the client of that session finds nothing. *)
Lemma stopSession_after_backend_ended cfg s desc st st1 :
  JoinHostPort (Amp.StopReceiverHost desc) (Itoa (Amp.StopPort desc)) = Amp.client s →
  Amp.backend_ended cfg s st = Some st1 →
  Amp.stopSession desc st1
  = Some (st1, Some (Amp.session_not_found_error (Amp.client s))).
Proof.
  intros Hkey Hended. unfold Amp.backend_ended in Hended.
  destruct (Amp.remove_first s (Amp.watchers st)) as [ws|]; [|done].
  simpl in Hended. unfold Amp.cleanupSession in Hended.
  destruct (Amp.backends _ !! _) as [b|]; [|done]. simpl in Hended.
  destruct (Udp.Close (Amp.rtpProxy s) _) as [w1|]; [|done]. simpl in Hended.
  destruct (Udp.Close (Amp.rtcpProxy s) w1) as [w2|]; [|done]. simpl in Hended.
  inversion Hended; subst; clear Hended.
  unfold Amp.stopSession. rewrite Hkey. simpl.
  by rewrite lookup_delete_eq.
Qed.

(** C5 (as amended).  In the registry, when the watcher of an entry has
    fired its gate before any stop request, the stop request for the key
    returns the "stopped prematurely" error and deletes the key.  The
    AMP proxy keeps a map of its own, from which its watcher deletes the
    session when the backend has finished: the stop request for that
    client then returns "Session not found". *)
Theorem self_termination_then_stop {K : Type} `{Countable K}
    (fmt_key : K → string) key (st : Sessions.State K) l base cfg s desc ast ast1 :
  (Sessions.sessions st !! key = Some l →
   Sessions.heap st !! l = Some base →
   Sessions.Enabled (Sessions.Stopped base) = false →
   l ∈ Sessions.watchers st →
   ∃ st1 st2,
     Sessions.watcher_fires l st = Some st1
     ∧ Sessions.StopSession fmt_key key st1
       = Some (st2, Some (Sessions.premature_error
                            (Sessions.CleanupErr (Sessions.fired base))))
     ∧ Sessions.is_premature
         (Sessions.premature_error (Sessions.CleanupErr (Sessions.fired base)))
       = true
     ∧ Sessions.sessions st2 !! key = None)
  ∧ (JoinHostPort (Amp.StopReceiverHost desc) (Itoa (Amp.StopPort desc))
     = Amp.client s →
     Amp.backend_ended cfg s ast = Some ast1 →
     Amp.stopSession desc ast1
     = Some (ast1, Some (Amp.session_not_found_error (Amp.client s)))).
Proof.
  split.
  - intros Hk Hb Hg Hin.
    destruct (SessionsFacts.StopSession_after_watcher fmt_key key st l base Hk Hb Hg Hin)
      as (st1 & st2 & ? & ? & ?).
    by exists st1, st2.
  - apply stopSession_after_backend_ended.
Qed.

Lemma self_termination_then_stop_witness :
  (∃ st1 st2,
      Sessions.watcher_fires 0 TestRegistry.registered = Some st1
      ∧ Sessions.StopSession TestRegistry.fmt "k" st1
        = Some (st2, Some "Session stopped prematurely: (no error)")
      ∧ Sessions.sessions st2 !! "k" = None)
  ∧ Amp.backend_ended TestNet.cfg TestNet.session0 TestNet.started
    = Some TestNet.self_ended
  ∧ Amp.stopSession TestNet.stop_desc TestNet.self_ended
    = Some (TestNet.self_ended, Some "Session not found for client 127.0.0.1:6000").
Proof.
  assert (Hended : Amp.backend_ended TestNet.cfg TestNet.session0 TestNet.started
                   = Some TestNet.self_ended) by (vm_compute; reflexivity).
  destruct (self_termination_then_stop TestRegistry.fmt "k" TestRegistry.registered 0
              (Sessions.mkSessionBase Sessions.NewOneshotCondition None
                 TestRegistry.session0)
              TestNet.cfg TestNet.session0 TestNet.stop_desc
              TestNet.started TestNet.self_ended) as [Hreg Hamp].
  split; [|split; [exact Hended|]].
  - destruct Hreg as (st1 & st2 & Hw & Hstop & _ & Hgone).
    + vm_compute. reflexivity.
    + vm_compute. reflexivity.
    + vm_compute. reflexivity.
    + apply list_elem_of_In. vm_compute. left. reflexivity.
    + exists st1, st2. split; [exact Hw|]. split; [exact Hstop|exact Hgone].
  - exact (Hamp eq_refl Hended).
Defined.

(** C5 (the claim as stated fails).  The proxy has started a session for
    127.0.0.1:6000 and its backend has finished by itself: the stop
    request for that client is answered "Session not found", not
    "stopped prematurely". *)
Lemma stop_after_self_termination_not_found :
  Amp.sessions TestNet.started !! "127.0.0.1:6000" = Some TestNet.session0
  ∧ Amp.backend_ended TestNet.cfg TestNet.session0 TestNet.started
    = Some TestNet.self_ended
  ∧ Amp.stopSession TestNet.stop_desc TestNet.self_ended
    = Some (TestNet.self_ended, Some "Session not found for client 127.0.0.1:6000")
  ∧ ¬ (∃ st' e,
          Amp.stopSession TestNet.stop_desc TestNet.self_ended = Some (st', Some e)
          ∧ Sessions.is_premature e = true).
Proof.
  assert (Hstop : Amp.stopSession TestNet.stop_desc TestNet.self_ended
                  = Some (TestNet.self_ended,
                          Some "Session not found for client 127.0.0.1:6000"))
    by (vm_compute; reflexivity).
  split; [vm_compute; reflexivity|]. split; [vm_compute; reflexivity|].
  split; [exact Hstop|].
  intros (st' & e & Hrun & Hprem). rewrite Hstop in Hrun.
  assert (He : e = "Session not found for client 127.0.0.1:6000") by congruence.
  rewrite He in Hprem. vm_compute in Hprem. discriminate Hprem.
Qed.

End SelfTermination.


(* ===================================================================== *)
(** * More on the allocator: first fit, frame, ownership                  *)
(* ===================================================================== *)

Module AllocFacts.

Import Go Udp Alloc.

Section WithEnv.

Variable env : NetEnv.

(** [NewUdpProxy] looks at the world through its socket table only. *)
Lemma NewUdpProxy_on_table la ta w :
  socks (NewUdpProxy env la ta w).1
  = socks (NewUdpProxy env la ta (mkWorld (socks w) [])).1
  ∧ match (NewUdpProxy env la ta w).2,
          (NewUdpProxy env la ta (mkWorld (socks w) [])).2 with
    | inr _, inr _ => True
    | inl e, inl e' => e = e'
    | _, _ => False
    end.
Proof.
  unfold NewUdpProxy.
  destruct (ResolveUDPAddr env la); [done|].
  destruct (ResolveUDPAddr env ta); [done|]. simpl.
  destruct (listen_err env (socks w) _); [done|].
  change (next_fd (mkWorld (socks w) [])) with (next_fd w).
  change (socks (open_sock (ListenConn u) (mkWorld (socks w) [])))
    with (socks (open_sock (ListenConn u) w)).
  destruct (dial_err env _ _); done.
Qed.

Lemma binds_iff la ta w :
  binds env la ta (socks w) = true ↔ ∃ w' l, NewUdpProxy env la ta w = (w', inr l).
Proof.
  unfold binds. destruct (NewUdpProxy_on_table la ta w) as [_ Hres].
  destruct (NewUdpProxy env la ta w) as [w' [e|l]];
    destruct (NewUdpProxy env la ta (mkWorld (socks w) [])) as [w0 [e0|l0]];
    simpl in *; try done.
  - split; [done|]. by intros (? & ? & ?).
  - split; [|done]. intros _. by eexists _, _.
Qed.

Lemma pair_binds_true host t1 t2 p w w1 l1 w2 l2 :
  NewUdpProxy env (JoinHostPort host (Itoa p)) t1 w = (w1, inr l1) →
  NewUdpProxy env (JoinHostPort host (Itoa (int_add p 1))) t2 w1 = (w2, inr l2) →
  pair_binds env host t1 t2 p (socks w) = true.
Proof.
  intros H1 H2. unfold pair_binds.
  destruct (NewUdpProxy_on_table (JoinHostPort host (Itoa p)) t1 w) as [Hss Hres].
  rewrite H1 in Hss, Hres. simpl in *.
  destruct (NewUdpProxy env _ t1 (mkWorld (socks w) [])) as [w0 [e0|l0]]; [done|].
  simpl in *. rewrite <- Hss. apply binds_iff. by eexists _, _.
Qed.

Lemma pair_binds_false_first host t1 t2 p w w1 e :
  NewUdpProxy env (JoinHostPort host (Itoa p)) t1 w = (w1, inl e) →
  pair_binds env host t1 t2 p (socks w) = false.
Proof.
  intros H1. unfold pair_binds.
  destruct (NewUdpProxy_on_table (JoinHostPort host (Itoa p)) t1 w) as [_ Hres].
  rewrite H1 in Hres. simpl in *.
  by destruct (NewUdpProxy env _ t1 (mkWorld (socks w) [])) as [w0 [e0|l0]].
Qed.

Lemma pair_binds_false_second host t1 t2 p w w1 l1 w2 e :
  NewUdpProxy env (JoinHostPort host (Itoa p)) t1 w = (w1, inr l1) →
  NewUdpProxy env (JoinHostPort host (Itoa (int_add p 1))) t2 w1 = (w2, inl e) →
  pair_binds env host t1 t2 p (socks w) = false.
Proof.
  intros H1 H2. unfold pair_binds.
  destruct (NewUdpProxy_on_table (JoinHostPort host (Itoa p)) t1 w) as [Hss Hres].
  rewrite H1 in Hss, Hres. simpl in *.
  destruct (NewUdpProxy env _ t1 (mkWorld (socks w) [])) as [w0 [e0|l0]]; [done|].
  simpl in *. rewrite <- Hss.
  destruct (binds env _ t2 (socks w1)) eqn:Hb; [|done].
  apply binds_iff in Hb as (? & ? & Hb). by rewrite H2 in Hb.
Qed.

Lemma attempts_one sp mp : mp < sp + 2 → attempts sp mp = 1%nat.
Proof.
  intros Hlt. unfold attempts.
  assert ((mp - sp) / 2 < 1) by (apply Z.div_lt_upper_bound; lia). lia.
Qed.

Lemma candidate_next sp k : candidate (sp + 2) k = candidate sp (S k).
Proof. unfold candidate. lia. Qed.

(** What the scan returns, as a search over the candidates. *)
Lemma loop_first_fit host t1 t2 mp fuel :
  mp ≤ max_int - 2 →
  ∀ sp w,
    min_int ≤ sp ≤ max_int - 2 →
    (attempts sp mp ≤ fuel)%nat →
    ∃ w' res,
      NewUdpProxyPair_loop env fuel host t1 t2 sp mp None w = Some (w', res)
      ∧ socks w ⊆ socks w'
      ∧ match res.2 with
        | None =>
          ∃ k l1 l2 p1 p2,
            (k < attempts sp mp)%nat
            ∧ pair_binds env host t1 t2 (candidate sp k) (socks w) = true
            ∧ (∀ j, (j < k)%nat →
                    pair_binds env host t1 t2 (candidate sp j) (socks w) = false)
            ∧ res = (Some l1, Some l2, None)
            ∧ proxies w' !! l1 = Some p1 ∧ proxies w' !! l2 = Some p2
            ∧ ResolveUDPAddr env (JoinHostPort host (Itoa (candidate sp k)))
              = inr (listenAddr p1)
            ∧ ResolveUDPAddr env (JoinHostPort host (Itoa (candidate sp k + 1)))
              = inr (listenAddr p2)
        | Some e =>
          (∀ k, (k < attempts sp mp)%nat →
                pair_binds env host t1 t2 (candidate sp k) (socks w) = false)
          ∧ e = range_error (candidate sp (attempts sp mp)) mp
          ∧ socks w' = socks w
        end.
Proof.
  intros Hmp. induction fuel as [|fuel IH]; intros sp w Hsp Hfuel.
  { pose proof (UdpFacts.attempts_pos sp mp). lia. }
  assert (Hadd2 : int_add sp 2 = sp + 2).
  { apply UdpFacts.int_add_exact. unfold min_int, max_int in *. lia. }
  assert (Hadd1 : int_add sp 1 = sp + 1).
  { apply UdpFacts.int_add_exact. unfold min_int, max_int in *. lia. }
  assert (Hc0 : candidate sp 0 = sp) by (unfold candidate; lia).
  assert (Hnext : ∀ proxy1 w1,
            socks w1 = socks w →
            pair_binds env host t1 t2 sp (socks w) = false →
            ∃ w' res,
              (if int_add sp 2 >? mp
               then Some (w1, (proxy1, None, Some (range_error (int_add sp 2) mp)))
               else NewUdpProxyPair_loop env fuel host t1 t2 (int_add sp 2) mp None w1)
              = Some (w', res)
              ∧ socks w ⊆ socks w'
              ∧ match res.2 with
                | None =>
                  ∃ k l1 l2 p1 p2,
                    (k < attempts sp mp)%nat
                    ∧ pair_binds env host t1 t2 (candidate sp k) (socks w) = true
                    ∧ (∀ j, (j < k)%nat →
                            pair_binds env host t1 t2 (candidate sp j) (socks w) = false)
                    ∧ res = (Some l1, Some l2, None)
                    ∧ proxies w' !! l1 = Some p1 ∧ proxies w' !! l2 = Some p2
                    ∧ ResolveUDPAddr env (JoinHostPort host (Itoa (candidate sp k)))
                      = inr (listenAddr p1)
                    ∧ ResolveUDPAddr env (JoinHostPort host (Itoa (candidate sp k + 1)))
                      = inr (listenAddr p2)
                | Some e =>
                  (∀ k, (k < attempts sp mp)%nat →
                        pair_binds env host t1 t2 (candidate sp k) (socks w) = false)
                  ∧ e = range_error (candidate sp (attempts sp mp)) mp
                  ∧ socks w' = socks w
                end).
  { intros proxy1 w1 Hss Hfail. rewrite Hadd2.
    destruct (Z.gtb_spec (sp + 2) mp) as [Hgt|Hle].
    - eexists _, _. split; [done|]. split; [by rewrite Hss|]. simpl.
      rewrite (attempts_one sp mp) by lia.
      split; [|split; [unfold candidate; f_equal; lia|done]].
      intros k Hk. assert (k = 0%nat) as -> by lia. by rewrite Hc0.
    - destruct (IH (sp + 2) w1) as (w' & res & Hrun & Hsub & Hres).
      { unfold min_int, max_int in *. lia. }
      { rewrite (UdpFacts.attempts_next sp mp) in Hfuel by lia. lia. }
      exists w', res. split; [done|]. rewrite Hss in Hsub, Hres. split; [done|].
      rewrite (UdpFacts.attempts_next sp mp) by lia.
      destruct res.2 as [e|].
      + destruct Hres as (Hall & -> & Hsame). split; [|split; [|done]].
        * intros [|k] Hk; [by rewrite Hc0|].
          rewrite <- candidate_next. apply Hall. lia.
        * by rewrite candidate_next.
      + destruct Hres as (k & l1 & l2 & p1 & p2 & Hk & Hb & Hbefore & -> & ? & ? & ? & ?).
        exists (S k), l1, l2, p1, p2. rewrite <- !candidate_next.
        repeat split; try done; [lia|].
        intros [|j] Hj; [by rewrite Hc0|].
        rewrite <- candidate_next. apply Hbefore. lia. }
  simpl.
  destruct (NewUdpProxy env _ t1 w) as [w1 [e1|l1]] eqn:H1.
  - pose proof (pair_binds_false_first host t1 t2 sp w w1 e1 H1).
    apply UdpFacts.NewUdpProxy_error in H1 as ->. by apply Hnext.
  - destruct (NewUdpProxy env _ t2 w1) as [w2 [e2|l2]] eqn:H2.
    + pose proof (pair_binds_false_second host t1 t2 sp w w1 l1 w2 e2 H1 H2).
      destruct (UdpFacts.attempt_released env _ _ _ _ _ _ _ _ _ H1 H2)
        as (w3 & -> & _ & Hss).
      simpl. by apply Hnext.
    + pose proof (pair_binds_true host t1 t2 sp w w1 l1 w2 l2 H1 H2) as Hb.
      destruct (UdpFacts.attempt_bound_addrs env _ _ _ _ _ _ _ _ _ H1 H2)
        as (p1 & p2 & Hp1 & Hp2 & _ & Hl1 & _ & Hl2 & _).
      destruct (UdpFacts.attempt_bound env _ _ _ _ _ _ _ _ _ H1 H2)
        as [(? & ? & ? & ? & _ & _ & _ & _ & _ & _ & Hsub & _)|(? & ? & ? & _)]; [|done].
      eexists _, _. split; [done|]. split; [done|]. simpl.
      exists 0%nat, l1, l2, p1, p2. rewrite Hc0, <- Hadd1.
      pose proof (UdpFacts.attempts_pos sp mp).
      split; [lia|]. split; [done|]. split; [intros j Hj; lia|]. done.
Qed.

(** The scan leaves the relays and the sockets that were there alone. *)
Lemma NewUdpProxy_frame la ta w :
  (∀ l p, proxies w !! l = Some p → proxies (NewUdpProxy env la ta w).1 !! l = Some p)
  ∧ socks w ⊆ socks (NewUdpProxy env la ta w).1
  ∧ (length (proxies w) ≤ length (proxies (NewUdpProxy env la ta w).1))%nat.
Proof.
  destruct (NewUdpProxy env la ta w) as [w' [e|l']] eqn:Hnew; simpl.
  - by apply UdpFacts.NewUdpProxy_error in Hnew as ->.
  - apply UdpFacts.NewUdpProxy_ok in Hnew
      as (p & lfd & tfd & -> & Hps & Hss & Hl & Ht & Hne & _).
    rewrite Hps, Hss. split; [|split].
    + intros l0 p0 Hp0. by apply lookup_app_l_Some.
    + etrans; [|apply insert_subseteq; by rewrite lookup_insert_ne].
      by apply insert_subseteq.
    + rewrite length_app. lia.
Qed.

Lemma doclose_frame l e w w' :
  doclose l e w = Some w' →
  (∀ l0 p0, l0 ≠ l → proxies w !! l0 = Some p0 → proxies w' !! l0 = Some p0)
  ∧ length (proxies w') = length (proxies w)
  ∧ socks w' ⊆ socks w.
Proof.
  unfold doclose, closeOnce_Do, doclose_body. intros Hc.
  destruct (proxies w !! l) as [p|] eqn:Hp; [|done]. simpl in Hc.
  destruct (closeOnce p); [by inversion Hc; subst|].
  destruct (chan_send 1 _) as [n|]; [|done]. simpl in Hc.
  rewrite list_lookup_insert_eq in Hc by (by eapply lookup_lt_Some).
  simpl in Hc. inversion Hc; subst; clear Hc. simpl. split; [|split].
  - intros l0 p0 Hne Hp0. by rewrite !list_lookup_insert_ne.
  - by rewrite !length_insert.
  - etrans; apply delete_subseteq.
Qed.

Lemma loop_frame host t1 t2 mp fuel :
  ∀ sp proxy2 w w' res,
    NewUdpProxyPair_loop env fuel host t1 t2 sp mp proxy2 w = Some (w', res) →
    (∀ l p, proxies w !! l = Some p → proxies w' !! l = Some p)
    ∧ (length (proxies w) ≤ length (proxies w'))%nat.
Proof.
  induction fuel as [|fuel IH]; intros sp proxy2 w w' res Hrun; [done|].
  simpl in Hrun.
  pose proof (NewUdpProxy_frame (JoinHostPort host (Itoa sp)) t1 w) as (Hf1 & _ & Hlen1).
  destruct (NewUdpProxy env _ t1 w) as [w1 [e1|l1]] eqn:H1; simpl in *.
  - destruct (int_add sp 2 >? mp).
    + inversion Hrun; subst. by split.
    + apply IH in Hrun as [Hf Hlen]. split; [auto|lia].
  - pose proof (NewUdpProxy_frame (JoinHostPort host (Itoa (int_add sp 1))) t2 w1)
      as (Hf2 & _ & Hlen2).
    apply UdpFacts.NewUdpProxy_ok in H1 as (p1 & ? & ? & -> & Hps1 & _).
    destruct (NewUdpProxy env _ t2 w1) as [w2 [e2|l2]] eqn:H2; simpl in *.
    + destruct (Close (length (proxies w)) w2) as [w3|] eqn:Hc; [|done].
      simpl in Hrun. apply doclose_frame in Hc as (Hf3 & Hlen3 & _).
      assert (Hold : ∀ l p, proxies w !! l = Some p → proxies w3 !! l = Some p).
      { intros l p Hp. apply Hf3; [|by auto].
        apply lookup_lt_Some in Hp. lia. }
      destruct (int_add sp 2 >? mp).
      * inversion Hrun; subst. split; [done|lia].
      * apply IH in Hrun as [Hf Hlen]. split; [auto|lia].
    + inversion Hrun; subst. split; [auto|lia].
Qed.

(** ** Ownership of the sockets *)

Lemma owned_empty : owned empty_world.
Proof.
  unfold owned, empty_world; simpl. split; [|split; [|split]].
  - intros l p Hp. by rewrite lookup_nil in Hp.
  - intros fd [c Hc]. by rewrite lookup_empty in Hc.
  - intros l l' p p' fd Hp. by rewrite lookup_nil in Hp.
  - intros l p Hp. by rewrite lookup_nil in Hp.
Qed.

Lemma owned_NewUdpProxy la ta w :
  owned w → owned (NewUdpProxy env la ta w).1.
Proof.
  intros (Hlive & Hown & Huniq & Hclosed).
  destruct (NewUdpProxy env la ta w) as [w' [e|l']] eqn:Hnew; simpl.
  { by apply UdpFacts.NewUdpProxy_error in Hnew as ->. }
  pose proof (UdpFacts.NewUdpProxy_live _ _ _ _ _ _ Hnew) as Hnewlive.
  apply UdpFacts.NewUdpProxy_ok in Hnew
    as (p & lfd & tfd & -> & Hps & Hss & Hl & Ht & Hne & Hlc & Htc & Hdone & _).
  assert (Hfresh : ∀ l0 p0 fd,
            proxies w !! l0 = Some p0 → closeOnce p0 = false → fd ∈ fds p0 →
            fd ≠ lfd ∧ fd ≠ tfd).
  { intros l0 p0 fd Hp0 Hd0 Hfd.
    destruct (Hlive l0 p0 Hp0 Hd0) as (p0' & Hp0' & _ & _ & _ & _ & Hls & Hts).
    rewrite Hp0 in Hp0'. inversion Hp0'; subst p0'.
    unfold fds in Hfd. apply elem_of_cons in Hfd as [->|Hfd];
      [|apply list_elem_of_singleton in Hfd as ->];
      split; intros Heq; congruence. }
  split; [|split; [|split]].
  - intros l0 p0 Hp0 Hd0. rewrite Hps in Hp0.
    apply lookup_snoc_Some in Hp0 as [[Hlt Hp0]|[-> <-]]; [|done].
    destruct (Hlive l0 p0 Hp0 Hd0) as (p0' & Hp0' & ? & ? & ? & ? & Hls & Hts).
    rewrite Hp0 in Hp0'. inversion Hp0'; subst p0'.
    destruct (Hfresh l0 p0 (listenConn p0) Hp0 Hd0) as [? ?]; [by left|].
    destruct (Hfresh l0 p0 (targetConn p0) Hp0 Hd0) as [? ?]; [right; by left|].
    exists p0. rewrite Hps, Hss. repeat split; try done.
    + by apply lookup_app_l_Some.
    + by rewrite !lookup_insert_ne.
    + by rewrite !lookup_insert_ne.
  - intros fd Hfd. rewrite Hss in Hfd.
    destruct (decide (fd = tfd)) as [->|Hnt].
    { exists (length (proxies w)), p. rewrite Hps.
      split; [by rewrite lookup_app_r, Nat.sub_diag|]. split; [done|].
      rewrite <- Htc. right. by left. }
    rewrite lookup_insert_ne in Hfd by done.
    destruct (decide (fd = lfd)) as [->|Hnl].
    { exists (length (proxies w)), p. rewrite Hps.
      split; [by rewrite lookup_app_r, Nat.sub_diag|]. split; [done|].
      rewrite <- Hlc. by left. }
    rewrite lookup_insert_ne in Hfd by done.
    destruct (Hown fd Hfd) as (l0 & p0 & Hp0 & Hd0 & Hin).
    exists l0, p0. rewrite Hps. split; [by apply lookup_app_l_Some|done].
  - intros l0 l1 p0 p1 fd Hp0 Hp1 Hd0 Hd1 Hin0 Hin1. rewrite Hps in Hp0, Hp1.
    apply lookup_snoc_Some in Hp0 as [[Hlt0 Hp0]|[-> <-]];
      apply lookup_snoc_Some in Hp1 as [[Hlt1 Hp1]|[-> <-]]; try done.
    + by eapply Huniq.
    + exfalso. destruct (Hfresh l0 p0 fd Hp0 Hd0 Hin0) as [? ?].
      unfold fds in Hin1. rewrite Hlc, Htc in Hin1.
      apply elem_of_cons in Hin1 as [->|Hin1]; [done|].
      by apply list_elem_of_singleton in Hin1 as ->.
    + exfalso. destruct (Hfresh l1 p1 fd Hp1 Hd1 Hin1) as [? ?].
      unfold fds in Hin0. rewrite Hlc, Htc in Hin0.
      apply elem_of_cons in Hin0 as [->|Hin0]; [done|].
      by apply list_elem_of_singleton in Hin0 as ->.
  - intros l0 p0 Hp0 Hd0. rewrite Hps in Hp0.
    apply lookup_snoc_Some in Hp0 as [[Hlt Hp0]|[-> <-]]; [by eapply Hclosed|].
    congruence.
Qed.

Lemma owned_doclose l e w w' :
  owned w → doclose l e w = Some w' → owned w'.
Proof.
  intros (Hlive & Hown & Huniq & Hclosed) Hc.
  destruct (proxies w !! l) as [p|] eqn:Hp;
    [|unfold doclose, closeOnce_Do in Hc; by rewrite Hp in Hc].
  destruct (closeOnce p) eqn:Hdone.
  { rewrite (UdpFacts.doclose_again l e w p Hp Hdone) in Hc. by inversion Hc; subst. }
  destruct (Hlive l p Hp Hdone) as (p' & Hp' & _ & _ & Hch & Hne & Hls & Hts).
  rewrite Hp in Hp'. inversion Hp'; subst p'.
  rewrite (UdpFacts.doclose_first l e w p Hp Hdone Hch) in Hc.
  inversion Hc; subst; clear Hc.
  assert (Hother : ∀ l0 p0 fd,
            l0 ≠ l → proxies w !! l0 = Some p0 → closeOnce p0 = false → fd ∈ fds p0 →
            fd ≠ listenConn p ∧ fd ≠ targetConn p).
  { intros l0 p0 fd Hl0 Hp0 Hd0 Hfd.
    split; intros ->; apply Hl0;
      (eapply (Huniq l0 l p0 p); [done|done|done|done|exact Hfd|]).
    - by left.
    - right. by left. }
  split; [|split; [|split]]; simpl.
  - intros l0 p0 Hp0 Hd0.
    apply list_lookup_insert_Some in Hp0 as [(<- & <- & _)|[Hl0 Hp0]]; [done|].
    destruct (Hlive l0 p0 Hp0 Hd0) as (p0' & Hp0' & ? & ? & ? & ? & Hls0 & Hts0).
    rewrite Hp0 in Hp0'. inversion Hp0'; subst p0'.
    destruct (Hother l0 p0 (listenConn p0)) as [? ?]; [done|done|done|by left|].
    destruct (Hother l0 p0 (targetConn p0)) as [? ?]; [done|done|done|right; by left|].
    exists p0. simpl. repeat split; try done.
    + by rewrite list_lookup_insert_ne.
    + by rewrite !lookup_delete_ne.
    + by rewrite !lookup_delete_ne.
  - intros fd Hfd.
    destruct (decide (fd = targetConn p)) as [->|Hnt];
      [rewrite lookup_delete_eq in Hfd; by destruct Hfd|].
    rewrite lookup_delete_ne in Hfd by done.
    destruct (decide (fd = listenConn p)) as [->|Hnl];
      [rewrite lookup_delete_eq in Hfd; by destruct Hfd|].
    rewrite lookup_delete_ne in Hfd by done.
    destruct (Hown fd Hfd) as (l0 & p0 & Hp0 & Hd0 & Hin).
    assert (l0 ≠ l).
    { intros ->. rewrite Hp in Hp0. inversion Hp0; subst p0.
      unfold fds in Hin. apply elem_of_cons in Hin as [->|Hin]; [done|].
      by apply list_elem_of_singleton in Hin as ->. }
    exists l0, p0. by rewrite list_lookup_insert_ne.
  - intros l0 l1 p0 p1 fd Hp0 Hp1 Hd0 Hd1 Hin0 Hin1.
    apply list_lookup_insert_Some in Hp0 as [(<- & <- & _)|[Hl0 Hp0]]; [done|].
    apply list_lookup_insert_Some in Hp1 as [(<- & <- & _)|[Hl1 Hp1]]; [done|].
    by eapply Huniq.
  - intros l0 p0 Hp0 Hd0.
    apply list_lookup_insert_Some in Hp0 as [(<- & <- & _)|[Hl0 Hp0]]; [done|].
    by eapply Hclosed.
Qed.

Lemma owned_loop host t1 t2 mp fuel :
  ∀ sp proxy2 w w' res,
    owned w →
    NewUdpProxyPair_loop env fuel host t1 t2 sp mp proxy2 w = Some (w', res) →
    owned w'.
Proof.
  induction fuel as [|fuel IH]; intros sp proxy2 w w' res Hown Hrun; [done|].
  simpl in Hrun.
  pose proof (owned_NewUdpProxy (JoinHostPort host (Itoa sp)) t1 w Hown) as Hown1.
  destruct (NewUdpProxy env _ t1 w) as [w1 [e1|l1]]; simpl in *.
  - destruct (int_add sp 2 >? mp); [by inversion Hrun; subst|by eapply IH].
  - pose proof (owned_NewUdpProxy (JoinHostPort host (Itoa (int_add sp 1))) t2 w1 Hown1)
      as Hown2.
    destruct (NewUdpProxy env _ t2 w1) as [w2 [e2|l2]]; simpl in *.
    + destruct (Close l1 w2) as [w3|] eqn:Hc; [|done]. simpl in Hrun.
      pose proof (owned_doclose _ _ _ _ Hown2 Hc) as Hown3.
      destruct (int_add sp 2 >? mp); [by inversion Hrun; subst|].
      exact (IH _ _ _ _ _ Hown3 Hrun).
    + by inversion Hrun; subst.
Qed.

Lemma loop_socks_mono host t1 t2 mp fuel :
  ∀ sp proxy2 w w' res,
    NewUdpProxyPair_loop env fuel host t1 t2 sp mp proxy2 w = Some (w', res) →
    socks w ⊆ socks w'.
Proof.
  induction fuel as [|fuel IH]; intros sp proxy2 w w' res Hrun; [done|].
  simpl in Hrun.
  destruct (NewUdpProxy env _ t1 w) as [w1 [e1|l1]] eqn:H1.
  - apply UdpFacts.NewUdpProxy_error in H1 as ->.
    destruct (int_add sp 2 >? mp); [by inversion Hrun; subst|by eapply IH].
  - destruct (NewUdpProxy env _ t2 w1) as [w2 [e2|l2]] eqn:H2.
    + destruct (UdpFacts.attempt_released env _ _ _ _ _ _ _ _ _ H1 H2)
        as (w3 & Hc & _ & Hss).
      rewrite Hc in Hrun. simpl in Hrun.
      destruct (int_add sp 2 >? mp).
      * inversion Hrun; subst. by rewrite Hss.
      * rewrite <- Hss. by eapply IH.
    + inversion Hrun; subst.
      destruct (UdpFacts.attempt_bound env _ _ _ _ _ _ _ _ _ H1 H2)
        as [(? & ? & ? & ? & _ & _ & _ & _ & _ & _ & Hsub & _)|(? & ? & ? & _)]; done.
Qed.

Lemma owned_run_ops ops :
  ∀ w w', owned w → run_ops env ops w = Some w' → owned w'.
Proof.
  induction ops as [|op ops IH]; intros w w' Hown Hrun.
  - by inversion Hrun; subst.
  - simpl in Hrun. destruct (run_op env op w) as [w1|] eqn:Hop; [|done].
    simpl in Hrun. eapply IH; [|done].
    destruct op as [la ta|fuel host t1 t2 sp mp|l e]; simpl in Hop.
    + inversion Hop; subst. by apply owned_NewUdpProxy.
    + unfold NewUdpProxyPair in Hop.
      destruct (NewUdpProxyPair_loop _ _ _ _ _ _ _ _ _) as [[w2 res]|] eqn:Hloop; [|done].
      inversion Hop; subst. by eapply owned_loop.
    + by eapply owned_doclose.
Qed.

End WithEnv.

(** ** The properties *)

(** X1.  [NewUdpProxy] fails with the error of the first step that fails
    (resolving the listen address, resolving the target address,
    [ListenUDP], [DialUDP]) and leaves the world as it was; when it is
    [DialUDP] that fails, this means that the socket bound by [ListenUDP]
    has been closed again. *)
Theorem NewUdpProxy_fails_cleanly env la ta w w' e :
  NewUdpProxy env la ta w = (w', inl e) →
  w' = w
  ∧ (ResolveUDPAddr env la = inl e
     ∨ (∃ lu, ResolveUDPAddr env la = inr lu ∧ ResolveUDPAddr env ta = inl e)
     ∨ (∃ lu tu,
          ResolveUDPAddr env la = inr lu ∧ ResolveUDPAddr env ta = inr tu
          ∧ listen_err env (socks w) lu = Some e)
     ∨ (∃ lu tu,
          ResolveUDPAddr env la = inr lu ∧ ResolveUDPAddr env ta = inr tu
          ∧ listen_err env (socks w) lu = None
          ∧ dial_err env (<[next_fd w := ListenConn lu]> (socks w)) tu = Some e)).
Proof.
  intros Hnew. split; [by eapply UdpFacts.NewUdpProxy_error|].
  unfold NewUdpProxy in Hnew.
  destruct (ResolveUDPAddr env la) as [e1|lu]; [left; by inversion Hnew|].
  destruct (ResolveUDPAddr env ta) as [e2|tu].
  { right; left. exists lu. by inversion Hnew. }
  destruct (listen_err env (socks w) lu) as [e3|] eqn:Hl.
  { right; right; left. exists lu, tu. inversion Hnew; subst. by rewrite Hl. }
  destruct (dial_err env _ tu) as [e4|] eqn:Hd; [|done].
  right; right; right. exists lu, tu. inversion Hnew; subst.
  rewrite Hl. done.
Qed.

(** The target refuses: the port that was bound for listening is free
    again. *)
Lemma NewUdpProxy_fails_cleanly_witness :
  NewUdpProxy TestUdp.env_refusing "127.0.0.1:20000" "10.0.0.1:9" empty_world
  = (empty_world, inl "dial udp: connection refused")
  ∧ listen_err TestUdp.env_refusing (socks empty_world)
      (mkUDPAddr "127.0.0.1" 20000) = None.
Proof.
  destruct (NewUdpProxy TestUdp.env_refusing "127.0.0.1:20000" "10.0.0.1:9" empty_world)
    as [w' [e|l]] eqn:Hnew; [|by vm_compute in Hnew].
  destruct (NewUdpProxy_fails_cleanly _ _ _ _ _ _ Hnew) as [-> _].
  split; [|by vm_compute].
  vm_compute in Hnew. by inversion Hnew.
Defined.

(** X2.  [NewUdpProxyPair] is a first-fit search.  The candidates are
    [startPort], [startPort+2], ... as long as they do not exceed
    [maxPort], and [startPort] itself in any case.  The call returns the
    pair at the first candidate at which both relays bind in the socket
    table of the call, listening on that port and the next; it fails
    exactly when no candidate binds, naming the port after the last
    candidate, and then leaves the socket table as it was. *)
Theorem NewUdpProxyPair_first_fit env host t1 t2 sp mp fuel w :
  min_int ≤ sp ≤ max_int - 2 →
  mp ≤ max_int - 2 →
  (attempts sp mp ≤ fuel)%nat →
  ∃ w' res,
    NewUdpProxyPair env fuel host t1 t2 sp mp w = Some (w', res)
    ∧ match res.2 with
      | None =>
        ∃ k l1 l2 p1 p2,
          (k < attempts sp mp)%nat
          ∧ pair_binds env host t1 t2 (candidate sp k) (socks w) = true
          ∧ (∀ j, (j < k)%nat →
                  pair_binds env host t1 t2 (candidate sp j) (socks w) = false)
          ∧ res = (Some l1, Some l2, None)
          ∧ proxies w' !! l1 = Some p1 ∧ proxies w' !! l2 = Some p2
          ∧ ResolveUDPAddr env (JoinHostPort host (Itoa (candidate sp k)))
            = inr (listenAddr p1)
          ∧ ResolveUDPAddr env (JoinHostPort host (Itoa (candidate sp k + 1)))
            = inr (listenAddr p2)
      | Some e =>
        (∀ k, (k < attempts sp mp)%nat →
              pair_binds env host t1 t2 (candidate sp k) (socks w) = false)
        ∧ e = range_error (candidate sp (attempts sp mp)) mp
        ∧ socks w' = socks w
      end.
Proof.
  intros Hsp Hmp Hfuel.
  destruct (loop_first_fit env host t1 t2 mp fuel Hmp sp w Hsp Hfuel)
    as (w' & res & Hrun & _ & Hres).
  by exists w', res.
Qed.

(** Ports 20000 and 20001 are taken, the range is 20000..20010: the pair
    is bound at 20002 and 20003. *)
Lemma NewUdpProxyPair_first_fit_witness :
  (min_int ≤ 20000 ≤ max_int - 2 ∧ 20010 ≤ max_int - 2
   ∧ (attempts 20000 20010 ≤ 6)%nat)
  ∧ ∃ w' l1 l2 p1 p2,
      NewUdpProxyPair (TestNet.env [20000; 20001]) 6 "127.0.0.1"
        "10.0.0.1:6000" "10.0.0.1:6001" 20000 20010 empty_world
      = Some (w', (Some l1, Some l2, None))
      ∧ proxies w' !! l1 = Some p1 ∧ proxies w' !! l2 = Some p2
      ∧ listenAddr p1 = mkUDPAddr "127.0.0.1" 20002
      ∧ listenAddr p2 = mkUDPAddr "127.0.0.1" 20003.
Proof.
  assert (H1 : min_int ≤ 20000 ≤ max_int - 2) by (vm_compute; split; discriminate).
  assert (H2 : 20010 ≤ max_int - 2) by (vm_compute; discriminate).
  assert (H3 : (attempts 20000 20010 ≤ 6)%nat) by (vm_compute; lia).
  split; [done|].
  destruct (NewUdpProxyPair_first_fit (TestNet.env [20000; 20001]) "127.0.0.1"
              "10.0.0.1:6000" "10.0.0.1:6001" 20000 20010 6 empty_world H1 H2 H3)
    as (w' & res & Hrun & Hres).
  assert (Herr : res.2 = None).
  { vm_compute in Hrun. by inversion Hrun. }
  rewrite Herr in Hres.
  destruct Hres as (k & l1 & l2 & p1 & p2 & Hk & Hb & Hbefore & -> & Hp1 & Hp2 & _).
  exists w', l1, l2, p1, p2. split; [done|]. split; [done|]. split; [done|].
  vm_compute in Hrun. inversion Hrun; subst.
  vm_compute in Hp1, Hp2. inversion Hp1; inversion Hp2; subst. done.
Defined.

(** X3.  Whatever [NewUdpProxyPair] returns, the relays that existed
    before the call are as they were, and so are the sockets that were
    open: the call only adds. *)
Theorem NewUdpProxyPair_frame env host t1 t2 sp mp fuel w w' res :
  NewUdpProxyPair env fuel host t1 t2 sp mp w = Some (w', res) →
  (∀ l p, proxies w !! l = Some p → proxies w' !! l = Some p)
  ∧ socks w ⊆ socks w'.
Proof.
  unfold NewUdpProxyPair. intros Hrun. split.
  - by apply (loop_frame env _ _ _ _ _ _ _ _ _ _ Hrun).
  - by eapply loop_socks_mono.
Qed.

Lemma NewUdpProxyPair_frame_witness :
  ∃ w' res p,
    NewUdpProxyPair (TestNet.env [20000]) 3 "127.0.0.1" "10.0.0.1:6000" "10.0.0.1:6001"
      20000 20004 TestUdp.one_relay = Some (w', res)
    ∧ proxies TestUdp.one_relay !! 0%nat = Some p
    ∧ proxies w' !! 0%nat = Some p
    ∧ socks TestUdp.one_relay ⊆ socks w'.
Proof.
  destruct (NewUdpProxyPair (TestNet.env [20000]) 3 "127.0.0.1" "10.0.0.1:6000"
              "10.0.0.1:6001" 20000 20004 TestUdp.one_relay)
    as [[w' res]|] eqn:Hrun; [|by vm_compute in Hrun].
  destruct (proxies TestUdp.one_relay !! 0%nat) as [p|] eqn:Hp; [|by vm_compute in Hp].
  destruct (NewUdpProxyPair_frame _ _ _ _ _ _ _ _ _ _ Hrun) as [Hold Hsub].
  exists w', res, p. split; [done|]. split; [done|]. split; [by apply Hold|done].
Defined.

(** X4.  In every world reached from the empty one by calls of
    [NewUdpProxy], [NewUdpProxyPair] and [doclose], each relay that has not
    been shut down has both its sockets open, every open socket is a
    socket of exactly one such relay, and every relay that has been shut
    down is marked closed: no socket outlives its relay and none is
    shared. *)
Theorem relay_ops_keep_ownership env ops w :
  run_ops env ops empty_world = Some w → owned w.
Proof. apply owned_run_ops, owned_empty. Qed.

Lemma relay_ops_keep_ownership_witness :
  ∃ w,
    run_ops (TestNet.env []) TestUdp.relay_ops empty_world = Some w
    ∧ owned w
    ∧ (closeOnce <$> proxies w) = [true; false; false]
    ∧ size (socks w) = 4%nat.
Proof.
  destruct (run_ops (TestNet.env []) TestUdp.relay_ops empty_world) as [w|] eqn:Hrun;
    [|by vm_compute in Hrun].
  exists w. split; [done|].
  split; [by apply (relay_ops_keep_ownership _ _ _ Hrun)|].
  vm_compute in Hrun. inversion Hrun; subst. by vm_compute.
Defined.

End AllocFacts.

(* ===================================================================== *)
(** * The workers of a relay                                              *)
(* ===================================================================== *)

Module ForwardFacts.

Import Go Udp Forward.

Lemma doclose_packets l e w w' p :
  doclose l e w = Some w' → proxies w !! l = Some p →
  ∃ p', proxies w' !! l = Some p' ∧ packets p' = packets p.
Proof.
  unfold doclose, closeOnce_Do, doclose_body. intros Hc Hp.
  rewrite Hp in Hc. simpl in Hc.
  destruct (closeOnce p); [inversion Hc; subst; by exists p|].
  destruct (chan_send 1 _) as [n|]; [|done]. simpl in Hc.
  rewrite list_lookup_insert_eq in Hc by (by eapply lookup_lt_Some).
  simpl in Hc. inversion Hc; subst; clear Hc. simpl.
  eexists. split; [apply list_lookup_insert_eq; rewrite length_insert;
                   by eapply lookup_lt_Some|done].
Qed.

Lemma path_inv_Start l w p :
  proxies w !! l = Some p → packets p = 0%nat → path_inv (Start l w).
Proof.
  intros Hp Hn. exists p, [], []. unfold buf_packets. simpl.
  repeat split; try done. lia.
Qed.

Lemma path_inv_step ev st st' :
  path_inv st → path_step ev st = Some st' → path_inv st'.
Proof.
  intros (p & lost & dropped & Hp & Hn & Hlen & Hflow & Hlost & Hdrop & Hadd) Hstep.
  unfold path_step in Hstep.
  destruct ev as [[e|d]| |err|].
  - (* ReadFrom fails *)
    destruct (reader st) eqn:Hr; try done.
    destruct (doclose _ _ _) as [w'|] eqn:Hc; [|done]. simpl in Hstep.
    inversion Hstep; subst; clear Hstep.
    destruct (doclose_packets _ _ _ _ _ Hc Hp) as (p' & Hp' & Hn').
    exists p', lost, dropped. simpl in *. rewrite Hn'.
    repeat split; try done.
  - (* ReadFrom returns a datagram *)
    destruct (reader st) eqn:Hr; try done.
    rewrite Hp in Hstep. simpl in Hstep.
    assert (dropped = []) as -> by (by apply Hdrop).
    simpl in Hflow. rewrite !app_nil_r in Hflow.
    destruct (Closed p); inversion Hstep; subst; clear Hstep.
    + exists p, lost, [in_buffer d]. simpl.
      repeat split; try done.
      rewrite fmap_app, Hflow. simpl. by rewrite <- !app_assoc.
    + exists p, lost, []. simpl.
      repeat split; try done.
      rewrite fmap_app, Hflow. simpl. by rewrite <- !app_assoc.
  - (* the send goes through *)
    destruct (reader st) as [|pkt|] eqn:Hr; try done.
    rewrite Hp in Hstep. simpl in Hstep.
    unfold chan_send in Hstep.
    destruct (Nat.ltb_spec (packets p) buf_packets) as [Hlt|]; [|done].
    simpl in Hstep. inversion Hstep; subst; clear Hstep.
    assert (dropped = []) as -> by (by apply Hdrop).
    exists (set_packets (S (packets p)) p), lost, []. simpl in *.
    repeat split; try done.
    + apply list_lookup_insert_eq. by eapply lookup_lt_Some.
    + rewrite length_app. simpl. lia.
    + rewrite length_app. simpl. lia.
    + rewrite Hflow. by rewrite <- !app_assoc.
  - (* a slice is taken and written *)
    destruct (forwarder st) eqn:Hf.
    2:{ by destruct (reader st). }
    assert (Hstep' :
      match queue st with
      | [] => None
      | pkt :: rest =>
        p ← proxies (pworld st) !! relay st;
        let w1 := store_proxy (relay st) (set_packets (pred (packets p)) p) (pworld st) in
        match err with
        | Some e =>
          w' ← doclose (relay st) (Some e) w1;
          Some (mkPath w' (relay st) rest (queue_closed st) (reader st) ForwarderDone
                  (arrived st) (written st) (added st))
        | None =>
          Some (mkPath w1 (relay st) rest (queue_closed st) (reader st) Forwarding
                  (arrived st) (written st ++ [pkt]) (added st ++ [length pkt]))
        end
      end = Some st') by (by destruct (reader st)).
    clear Hstep. destruct (queue st) as [|pkt rest] eqn:Hq; [done|].
    rewrite Hp in Hstep'. simpl in Hstep'.
    assert (lost = []) as -> by (by apply Hlost).
    simpl in Hflow, Hlen, Hn.
    assert (Hp1 : proxies (store_proxy (relay st) (set_packets (pred (packets p)) p)
                             (pworld st)) !! relay st
                  = Some (set_packets (pred (packets p)) p)).
    { simpl. apply list_lookup_insert_eq. by eapply lookup_lt_Some. }
    destruct err as [e|].
    + destruct (doclose _ _ _) as [w'|] eqn:Hc; [|done]. simpl in Hstep'.
      inversion Hstep'; subst; clear Hstep'.
      destruct (doclose_packets _ _ _ _ _ Hc Hp1) as (p' & Hp' & Hn').
      exists p', [pkt], dropped. simpl in *.
      repeat split; try done; [lia|lia].
    + inversion Hstep'; subst; clear Hstep'.
      exists (set_packets (pred (packets p)) p), [], dropped. simpl in *.
      repeat split; try done; [lia|lia| |].
      * rewrite Hflow. by rewrite <- !app_assoc.
      * by rewrite fmap_app, Hadd.
  - (* the channel is closed and empty *)
    destruct (forwarder st) eqn:Hf.
    2:{ by destruct (reader st). }
    assert (Hstep' :
      match queue st with
      | [] => if queue_closed st
              then Some (mkPath (pworld st) (relay st) [] true (reader st) ForwarderDone
                           (arrived st) (written st) (added st))
              else None
      | _ :: _ => None
      end = Some st') by (by destruct (reader st)).
    clear Hstep. destruct (queue st) eqn:Hq; [|done].
    destruct (queue_closed st); [|done].
    inversion Hstep'; subst; clear Hstep'.
    exists p, lost, dropped. simpl in *. done.
Qed.

Lemma path_inv_run evs :
  ∀ st st', path_inv st → run_path evs st = Some st' → path_inv st'.
Proof.
  induction evs as [|ev evs IH]; intros st st' Hinv Hrun.
  - by inversion Hrun; subst.
  - simpl in Hrun. destruct (path_step ev st) as [st1|] eqn:Hstep; [|done].
    simpl in Hrun. eapply IH; [|done]. by eapply path_inv_step.
Qed.

Local Arguments path_step : simpl never.

(** One datagram goes through an idle relay. *)
Lemma one_datagram_through st p d :
  proxies (pworld st) !! relay st = Some p →
  packets p = 0%nat → Closed p = false →
  queue st = [] → reader st = Reading → forwarder st = Forwarding →
  ∃ st',
    run_path [ReadReturns (inr d); ReaderSends; ForwarderWrites None] st = Some st'
    ∧ proxies (pworld st') !! relay st' = Some p
    ∧ socks (pworld st') = socks (pworld st)
    ∧ relay st' = relay st
    ∧ queue st' = [] ∧ reader st' = Reading ∧ forwarder st' = Forwarding
    ∧ arrived st' = arrived st ++ [d]
    ∧ written st' = written st ++ [in_buffer d]
    ∧ added st' = added st ++ [length (in_buffer d)].
Proof.
  intros Hp Hn Hcl Hq Hr Hf.
  assert (Hlt : (relay st < length (proxies (pworld st)))%nat)
    by (by eapply lookup_lt_Some).
  set (st1 := mkPath (pworld st) (relay st) (queue st) (queue_closed st)
                (Sending (in_buffer d)) (forwarder st)
                (arrived st ++ [d]) (written st) (added st)).
  set (st2 := mkPath (store_proxy (relay st) (set_packets 1 p) (pworld st)) (relay st)
                (queue st ++ [in_buffer d]) (queue_closed st) Reading (forwarder st)
                (arrived st ++ [d]) (written st) (added st)).
  set (st3 := mkPath (store_proxy (relay st) (set_packets 0 (set_packets 1 p))
                        (store_proxy (relay st) (set_packets 1 p) (pworld st)))
                (relay st) [] (queue_closed st) Reading Forwarding
                (arrived st ++ [d]) (written st ++ [in_buffer d])
                (added st ++ [length (in_buffer d)])).
  assert (H1 : path_step (ReadReturns (inr d)) st = Some st1).
  { unfold path_step. rewrite Hr, Hp. simpl. by rewrite Hcl. }
  assert (H2 : path_step ReaderSends st1 = Some st2).
  { unfold path_step. simpl. rewrite Hp. simpl. by rewrite Hn. }
  assert (H3 : path_step (ForwarderWrites None) st2 = Some st3).
  { unfold path_step. simpl. rewrite Hf, Hq. simpl.
    by rewrite list_lookup_insert_eq. }
  exists st3. simpl. rewrite H1. simpl. rewrite H2. simpl. rewrite H3. simpl.
  split; [done|].
  rewrite list_insert_insert_eq, list_lookup_insert_eq by done.
  repeat split; try done.
  f_equal. destruct p; simpl in *. by subst.
Qed.

Lemma one_by_one_through ds :
  ∀ st p,
    proxies (pworld st) !! relay st = Some p →
    packets p = 0%nat → Closed p = false →
    queue st = [] → reader st = Reading → forwarder st = Forwarding →
    ∃ st',
      run_path (one_by_one ds) st = Some st'
      ∧ proxies (pworld st') !! relay st' = Some p
      ∧ socks (pworld st') = socks (pworld st)
      ∧ queue st' = [] ∧ reader st' = Reading ∧ forwarder st' = Forwarding
      ∧ arrived st' = arrived st ++ ds
      ∧ written st' = written st ++ (in_buffer <$> ds)
      ∧ added st' = added st ++ (length <$> (in_buffer <$> ds)).
Proof.
  induction ds as [|d ds IH]; intros st p Hp Hn Hcl Hq Hr Hf.
  - exists st. simpl. by rewrite !app_nil_r.
  - destruct (one_datagram_through st p d Hp Hn Hcl Hq Hr Hf)
      as (st1 & Hrun1 & Hp1 & Hss1 & Hrel & Hq1 & Hr1 & Hf1 & Ha1 & Hw1 & Hadd1).
    destruct (IH st1 p Hp1 Hn Hcl Hq1 Hr1 Hf1)
      as (st2 & Hrun2 & Hp2 & Hss2 & Hq2 & Hr2 & Hf2 & Ha2 & Hw2 & Hadd2).
    exists st2. split.
    + change (one_by_one (d :: ds))
        with ([ReadReturns (inr d); ReaderSends; ForwarderWrites None] ++ one_by_one ds).
      clear -Hrun1 Hrun2. simpl in *.
      destruct (path_step (ReadReturns (inr d)) st) as [sa|]; [|done]. simpl in *.
      destruct (path_step ReaderSends sa) as [sb|]; [|done]. simpl in *.
      destruct (path_step (ForwarderWrites None) sb) as [sc|]; [|done]. simpl in *.
      by inversion Hrun1; subst.
    + rewrite Ha2, Hw2, Hadd2, Ha1, Hw1, Hadd1, Hss2, Hss1.
      simpl. rewrite <- !app_assoc. done.
Qed.

(** ** The properties *)

(** X5.  A relay is started with its channel empty.  Whatever the sockets
    and the scheduler do afterwards, the slices written to the target are
    an initial part of the datagrams that have arrived, each cut to the
    4096 bytes of the buffer, in the order of arrival: nothing is
    reordered, repeated or made up.  [Stats.AddNow] has been called once
    per written slice with its length, and the channel never holds more
    than [buf_packets] slices. *)
Theorem forwarding_keeps_order l w p evs st :
  proxies w !! l = Some p →
  packets p = 0%nat →
  run_path evs (Start l w) = Some st →
  written st `prefix_of` (in_buffer <$> arrived st)
  ∧ added st = length <$> written st
  ∧ sum_list (added st) = length (concat (written st))
  ∧ (length (queue st) ≤ buf_packets)%nat.
Proof.
  intros Hp Hn Hrun.
  destruct (path_inv_run evs _ _ (path_inv_Start l w p Hp Hn) Hrun)
    as (p' & lost & dropped & _ & _ & Hlen & Hflow & _ & _ & Hadd).
  split; [rewrite Hflow; by eexists|]. split; [done|]. split; [|done].
  rewrite Hadd. clear. induction (written st) as [|x xs IH]; [done|].
  rewrite fmap_cons. simpl. rewrite length_app. by f_equal.
Qed.

Lemma forwarding_keeps_order_witness :
  ∃ p st,
    proxies TestUdp.one_relay !! 0%nat = Some p
    ∧ packets p = 0%nat
    ∧ run_path TestUdp.events (Start 0 TestUdp.one_relay) = Some st
    ∧ written st = [[Byte.x41]; [Byte.x42; Byte.x43]]
    ∧ queue st = [[]]
    ∧ written st `prefix_of` (in_buffer <$> arrived st)
    ∧ sum_list (added st) = 3%nat
    ∧ (Err <$> proxies (pworld st) !! 0%nat)
      = Some (Some "read udp: use of closed network connection").
Proof.
  destruct (proxies TestUdp.one_relay !! 0%nat) as [p|] eqn:Hp; [|by vm_compute in Hp].
  assert (Hn : packets p = 0%nat) by (vm_compute in Hp; by inversion Hp).
  destruct (run_path TestUdp.events (Start 0 TestUdp.one_relay)) as [st|] eqn:Hrun;
    [|by vm_compute in Hrun].
  destruct (forwarding_keeps_order 0 TestUdp.one_relay p TestUdp.events st Hp Hn Hrun)
    as (Hpre & _ & Hsum & _).
  assert (Hw : written st = [[Byte.x41]; [Byte.x42; Byte.x43]]).
  { vm_compute in Hrun. by inversion Hrun. }
  assert (Hq : queue st = [[]]).
  { vm_compute in Hrun. by inversion Hrun. }
  assert (He : (Err <$> proxies (pworld st) !! 0%nat)
               = Some (Some "read udp: use of closed network connection")).
  { vm_compute in Hrun. inversion Hrun; subst. vm_compute. reflexivity. }
  exists p, st.
  split; [reflexivity|]. split; [exact Hn|]. split; [reflexivity|].
  split; [exact Hw|]. split; [exact Hq|]. split; [exact Hpre|].
  split; [|exact He].
  rewrite Hsum, Hw. reflexivity.
Defined.

(** X6.  On an open relay with an empty channel, datagrams that arrive
    one after the other while reads and writes succeed are all written to
    the target, in order and cut to the buffer size; the byte counts given
    to [Stats.AddNow] are their lengths; the channel is empty again and
    the sockets are untouched. *)
Theorem one_by_one_delivers l w p ds :
  proxies w !! l = Some p →
  packets p = 0%nat →
  Closed p = false →
  ∃ st,
    run_path (one_by_one ds) (Start l w) = Some st
    ∧ arrived st = ds
    ∧ written st = in_buffer <$> ds
    ∧ added st = length <$> (in_buffer <$> ds)
    ∧ queue st = []
    ∧ socks (pworld st) = socks w.
Proof.
  intros Hp Hn Hcl.
  destruct (one_by_one_through ds (Start l w) p Hp Hn Hcl eq_refl eq_refl eq_refl)
    as (st & Hrun & _ & Hss & Hq & _ & _ & Ha & Hw & Hadd).
  by exists st.
Qed.

Lemma one_by_one_delivers_witness :
  ∃ p st,
    proxies TestUdp.one_relay !! 0%nat = Some p
    ∧ packets p = 0%nat ∧ Closed p = false
    ∧ run_path (one_by_one TestUdp.datagrams) (Start 0 TestUdp.one_relay) = Some st
    ∧ written st = TestUdp.datagrams
    ∧ added st = [1; 2; 0]%nat.
Proof.
  destruct (proxies TestUdp.one_relay !! 0%nat) as [p|] eqn:Hp; [|by vm_compute in Hp].
  assert (Hn : packets p = 0%nat) by (vm_compute in Hp; by inversion Hp).
  assert (Hcl : Closed p = false) by (vm_compute in Hp; by inversion Hp).
  destruct (one_by_one_delivers 0 TestUdp.one_relay p TestUdp.datagrams Hp Hn Hcl)
    as (st & Hrun & _ & Hw & Hadd & _).
  exists p, st.
  split; [reflexivity|]. split; [exact Hn|]. split; [exact Hcl|].
  split; [exact Hrun|]. split; [exact Hw|].
  rewrite Hadd. vm_compute. reflexivity.
Defined.

End ForwardFacts.


(* ===================================================================== *)
(** * More on the session registry                                        *)
(* ===================================================================== *)

Module RegistryFacts.

Import Go Sessions Registry.

Section WithKey.

Context {K : Type} `{Countable K}.
Variable fmt_key : K -> string.

Implicit Types (st : State K) (key : K) (l : nat) (base : SessionBase).

Lemma calls_of_nil l : calls_of l [] = [].
Proof. done. Qed.

Lemma fired_of_enabled base : enabled (Stopped base) = true → fired base = base.
Proof. destruct base as [[g] e s]; simpl. by intros ->. Qed.

(** What [Stop] does to the heap, the map, the watchers and the trace. *)
Lemma Stop_effect l st st' :
  Stop l st = Some st' →
  ∃ base,
    heap st !! l = Some base
    ∧ heap st' = <[l := fired base]> (heap st)
    ∧ sessions st' = sessions st
    ∧ watchers st' = watchers st
    ∧ trace st' = trace st ++ (if enabled (Stopped base) then []
                               else pair l <$> stop_calls (session base)).
Proof.
  intros Hstop. apply SessionsFacts.Stop_inv in Hstop as (base & Hb & Hst').
  exists base. split; [done|].
  destruct (enabled (Stopped base)) eqn:Hg; subst st'; simpl.
  - rewrite fired_of_enabled by done. rewrite list_insert_id by done.
    by rewrite app_nil_r.
  - done.
Qed.

Lemma Stop_returns l st base :
  heap st !! l = Some base → ∃ st', Stop l st = Some st'.
Proof.
  intros Hb. destruct (enabled (Stopped base)) eqn:Hg.
  - rewrite (SessionsFacts.Stop_fired l st base) by done. by eexists.
  - rewrite (SessionsFacts.Stop_armed l st base) by done. by eexists.
Qed.

Lemma session_fired base : session (fired base) = session base.
Proof. apply SessionsFacts.fired_session. Qed.

Lemma fired_idemp base : fired (fired base) = fired base.
Proof. apply fired_of_enabled, SessionsFacts.fired_gate. Qed.

Lemma Get_after_Stop l st st' k :
  Stop l st = Some st' → Get k st' = Get k st.
Proof.
  intros (base & Hb & Hh & Hm & _)%Stop_effect. unfold Get. rewrite Hm, Hh.
  destruct (sessions st !! k) as [l'|]; [|done]. simpl.
  destruct (decide (l = l')) as [->|Hne].
  - rewrite list_lookup_insert_eq by (by eapply lookup_lt_Some). rewrite Hb.
    simpl. by rewrite session_fired.
  - by rewrite list_lookup_insert_ne.
Qed.

Lemma StopSession_returns key st l base :
  sessions st !! key = Some l → heap st !! l = Some base →
  ∃ st1 err,
    StopSession fmt_key key st = Some (set_sessions (delete key (sessions st)) st1, err)
    ∧ (if enabled (Stopped base) then st1 = st else Stop l st = Some st1).
Proof.
  intros Hk Hb. unfold StopSession. rewrite Hk, Hb. simpl. unfold Enabled.
  destruct (enabled (Stopped base)) eqn:Hg; simpl.
  - by eexists _, _.
  - rewrite (SessionsFacts.Stop_armed l st base Hb Hg). simpl.
    rewrite list_lookup_insert_eq by (by eapply lookup_lt_Some). simpl.
    by eexists _, _.
Qed.

Lemma remove_first_elem l (ws ws' : list nat) :
  remove_first l ws = Some ws' → l ∈ ws ∧ ∀ x, x ∈ ws' → x ∈ ws.
Proof.
  revert ws'. induction ws as [|w ws IH]; intros ws' Hrm; [done|].
  simpl in Hrm. destruct (decide (w = l)) as [->|Hne].
  - inversion Hrm; subst. split; [by left|]. intros x Hx. by right.
  - destruct (remove_first l ws) as [ws1|]; [|done]. inversion Hrm; subst.
    destruct (IH ws1 eq_refl) as [Hin Hsub]. split; [by right|].
    intros x [->|Hx]%elem_of_cons; [by left|right; auto].
Qed.

(** What a sequence of [Stop] calls does, entry by entry. *)
Lemma Stop_each_effect ls :
  ∀ st,
    (∀ l, l ∈ ls → (l < length (heap st))%nat) →
    ∃ st',
      Stop_each ls st = Some st'
      ∧ sessions st' = sessions st
      ∧ watchers st' = watchers st
      ∧ ∀ l,
          heap st' !! l
          = (if decide (l ∈ ls) then fired <$> heap st !! l else heap st !! l)
          ∧ calls_of l (trace st')
            = calls_of l (trace st)
              ++ (if decide (l ∈ ls)
                  then match heap st !! l with
                       | Some base => if enabled (Stopped base) then []
                                      else stop_calls (session base)
                       | None => []
                       end
                  else []).
Proof.
  induction ls as [|l0 ls IH]; intros st Halloc.
  { exists st. simpl. repeat split; try done. by rewrite app_nil_r. }
  destruct (lookup_lt_is_Some_2 (heap st) l0) as [base0 Hb0];
    [apply Halloc; by left|].
  destruct (Stop_returns l0 st base0 Hb0) as [st1 Hstop].
  destruct (Stop_effect l0 st st1 Hstop) as (base0' & Hb0' & Hh1 & Hm1 & Hw1 & Htr1).
  rewrite Hb0 in Hb0'. inversion Hb0'; subst base0'; clear Hb0'.
  destruct (IH st1) as (st' & Hrun & Hm & Hw & Heach).
  { intros l Hl. rewrite Hh1, length_insert. apply Halloc. by right. }
  exists st'. simpl. rewrite Hstop. simpl.
  split; [done|]. split; [congruence|]. split; [congruence|].
  intros l. destruct (Heach l) as [Hheap Hcalls]. rewrite Hheap, Hcalls, Hh1, Htr1.
  rewrite SessionsFacts.calls_of_app.
  destruct (decide (l = l0)) as [->|Hne].
  - rewrite list_lookup_insert_eq by (by eapply lookup_lt_Some). rewrite Hb0. simpl.
    destruct (decide (l0 ∈ l0 :: ls)) as [_|Hn]; [|exfalso; apply Hn; by left].
    rewrite SessionsFacts.fired_gate. split.
    + destruct (decide (l0 ∈ ls)); simpl; by rewrite ?fired_idemp.
    + destruct (enabled (Stopped base0)); destruct (decide (l0 ∈ ls)); simpl;
        rewrite ?SessionsFacts.calls_of_same, ?calls_of_nil, ?app_nil_r; done.
  - rewrite list_lookup_insert_ne by done.
    assert (Hnil : calls_of l (if enabled (Stopped base0) then []
                               else pair l0 <$> stop_calls (session base0)) = []).
    { destruct (enabled (Stopped base0)); [done|].
      by apply SessionsFacts.calls_of_other. }
    rewrite Hnil, app_nil_r.
    destruct (decide (l ∈ ls)) as [Hin|Hnin];
      destruct (decide (l ∈ l0 :: ls)) as [Hin'|Hnin']; try done.
    + exfalso. apply Hnin'. by right.
    + exfalso. by apply elem_of_cons in Hin' as [?|?].
Qed.

(** Watchers of other entries leave an entry alone. *)
Lemma watchers_fire_keeps ls :
  ∀ st st' l base,
    heap st !! l = Some base →
    l ∉ watchers st →
    watchers_fire ls st = Some st' →
    heap st' !! l = Some base
    ∧ calls_of l (trace st') = calls_of l (trace st)
    ∧ sessions st' = sessions st.
Proof.
  induction ls as [|l' ls IH]; intros st st' l base Hb Hnot Hfire.
  { by inversion Hfire; subst. }
  simpl in Hfire. unfold watcher_fires in Hfire at 1.
  destruct (remove_first l' (watchers st)) as [ws|] eqn:Hrm; [|done].
  simpl in Hfire.
  destruct (Stop l' (set_watchers ws st)) as [st2|] eqn:Hstop; [|done].
  simpl in Hfire.
  destruct (remove_first_elem _ _ _ Hrm) as [Hin Hsub].
  assert (Hne : l' ≠ l) by (by intros ->).
  destruct (Stop_effect _ _ _ Hstop) as (b & Hb' & Hh & Hm & Hw & Htr). simpl in *.
  destruct (IH st2 st' l base) as (Hheap & Hcalls & Hsess); [| |done|].
  - rewrite Hh. by rewrite list_lookup_insert_ne.
  - rewrite Hw. intros Hl. by apply Hnot, Hsub.
  - split; [done|]. split; [|congruence].
    rewrite Hcalls, Htr, SessionsFacts.calls_of_app.
    destruct (enabled (Stopped b)); [by rewrite app_nil_r|].
    rewrite SessionsFacts.calls_of_other by done. by rewrite app_nil_r.
Qed.

Lemma allocated_empty : allocated (empty_state (K := K)).
Proof.
  split.
  - intros k l Hk. simpl in Hk. by apply lookup_empty_Some in Hk.
  - intros l Hl. by apply elem_of_nil in Hl.
Qed.

Lemma allocated_NewSession key (s : Session) st st1 l :
  allocated st → NewSession key s st = Some (st1, l) → allocated st1.
Proof.
  intros [Hmap Hwatch]. rewrite SessionsFacts.NewSession_returns.
  intros Hnew. inversion Hnew; subst; clear Hnew. split; simpl.
  - intros k l Hk. rewrite length_app. simpl.
    apply lookup_insert_Some in Hk as [[_ <-]|[_ Hk]]; [lia|].
    apply Hmap in Hk. lia.
  - intros l Hl. rewrite length_app. simpl.
    destruct (length (Observees s) <? 1)%nat.
    + apply Hwatch in Hl. lia.
    + apply elem_of_app in Hl as [Hl|Hl]; [apply Hwatch in Hl; lia|].
      apply list_elem_of_singleton in Hl as ->. lia.
Qed.

(** ** The properties *)

(** X7.  Lookup follows registration and removal.  On a registry without
    dangling pointers, [NewSession(key, s)] makes [Get(key)] return [s] and
    leaves [Get] of every other key as it was; a [StopSession(key)] after
    it returns, makes [Get(key)] return nil, and again leaves the other
    keys alone. *)
Theorem Get_follows_registration key (s : Session) st :
  allocated st →
  ∃ st1 l,
    NewSession key s st = Some (st1, l)
    ∧ Get key st1 = Some s
    ∧ (∀ k, k ≠ key → Get k st1 = Get k st)
    ∧ ∃ st2 err,
        StopSession fmt_key key st1 = Some (st2, err)
        ∧ Get key st2 = None
        ∧ (∀ k, k ≠ key → Get k st2 = Get k st).
Proof.
  intros [Halloc _]. rewrite SessionsFacts.NewSession_returns.
  eexists _, _. split; [done|].
  set (st1 := mkState _ _ _ _).
  assert (Hk1 : sessions st1 !! key = Some (length (heap st))) by apply lookup_insert_eq.
  assert (Hb1 : heap st1 !! length (heap st)
                = Some (mkSessionBase NewOneshotCondition None s)).
  { unfold st1; simpl. by rewrite lookup_app_r, Nat.sub_diag. }
  assert (Hother : ∀ k, k ≠ key → Get k st1 = Get k st).
  { intros k Hne. unfold Get, st1; simpl. rewrite lookup_insert_ne by done.
    destruct (sessions st !! k) as [l'|] eqn:Hk; [|done]. simpl.
    by rewrite lookup_app_l by (by eapply Halloc). }
  clearbody st1.
  split; [unfold Get; rewrite Hk1; simpl; by rewrite Hb1|]. split; [done|].
  destruct (StopSession_returns key st1 _ _ Hk1 Hb1) as (st1' & err & Hstop & Hst1').
  simpl in Hst1'. eexists _, err. split; [exact Hstop|].
  split.
  - unfold Get. simpl. by rewrite lookup_delete_eq.
  - intros k Hne. rewrite <- (Hother k Hne).
    rewrite <- (Get_after_Stop _ _ _ k Hst1').
    destruct (Stop_effect _ _ _ Hst1') as (? & _ & _ & Hm & _).
    unfold Get. simpl. by rewrite lookup_delete_ne, Hm.
Qed.

(** X8.  [NewSession] does not look whether the key is taken.  On a key
    that holds an entry it files the new entry in its place: the number of
    keys is unchanged, the old entry is left as it was, no call is made on
    the old session (it is not stopped) and its watcher, if it has one,
    keeps waiting.  A [StopSession(key)] then stops the new entry only and
    removes the key, after which the map no longer leads to the old
    session. *)
Theorem NewSession_replaces_without_stopping key (s : Session) st l0 base0 :
  sessions st !! key = Some l0 →
  heap st !! l0 = Some base0 →
  ∃ st1 l1,
    NewSession key s st = Some (st1, l1)
    ∧ l1 ≠ l0
    ∧ sessions st1 !! key = Some l1
    ∧ size (sessions st1) = size (sessions st)
    ∧ heap st1 !! l0 = Some base0
    ∧ calls_of l0 (trace st1) = calls_of l0 (trace st)
    ∧ (∀ l, l ∈ watchers st → l ∈ watchers st1)
    ∧ ∃ st2 err,
        StopSession fmt_key key st1 = Some (st2, err)
        ∧ sessions st2 !! key = None
        ∧ heap st2 !! l0 = Some base0
        ∧ calls_of l0 (trace st2) = calls_of l0 (trace st).
Proof.
  intros Hk Hb. rewrite SessionsFacts.NewSession_returns.
  pose proof (lookup_lt_Some _ _ _ Hb) as Hlt.
  eexists _, _. split; [done|].
  set (st1 := mkState _ _ _ _).
  assert (Hne : length (heap st) ≠ l0) by lia.
  assert (Hk1 : sessions st1 !! key = Some (length (heap st))) by apply lookup_insert_eq.
  assert (Hb1 : heap st1 !! length (heap st)
                = Some (mkSessionBase NewOneshotCondition None s)).
  { unfold st1; simpl. by rewrite lookup_app_r, Nat.sub_diag. }
  assert (Hold1 : heap st1 !! l0 = Some base0).
  { unfold st1; simpl. by rewrite lookup_app_l. }
  assert (Hcalls1 : calls_of l0 (trace st1) = calls_of l0 (trace st)).
  { unfold st1; simpl. rewrite SessionsFacts.calls_of_app.
    change [(length (heap st), CallStart)]
      with (pair (length (heap st)) <$> [CallStart]).
    rewrite SessionsFacts.calls_of_other by done.
    by rewrite app_nil_r. }
  assert (Hsize : size (sessions st1) = size (sessions st)).
  { unfold st1; simpl. apply map_size_insert_Some. by rewrite Hk. }
  assert (Hws : ∀ l, l ∈ watchers st → l ∈ watchers st1).
  { intros l Hl. unfold st1; simpl.
    destruct (length (Observees s) <? 1)%nat; [done|]. apply elem_of_app. by left. }
  clearbody st1.
  split; [done|]. split; [done|]. split; [done|]. split; [done|]. split; [done|].
  split; [done|].
  destruct (StopSession_returns key st1 _ _ Hk1 Hb1) as (st1' & err & Hstop & Hst1').
  simpl in Hst1'. eexists _, err. split; [exact Hstop|].
  destruct (Stop_effect _ _ _ Hst1') as (b & Hb' & Hh & _ & _ & Htr).
  rewrite Hb1 in Hb'. inversion Hb'; subst b; clear Hb'. simpl in *.
  split; [apply lookup_delete_eq|]. split.
  - rewrite Hh. by rewrite list_lookup_insert_ne.
  - rewrite Htr, SessionsFacts.calls_of_app, SessionsFacts.calls_of_other by done.
    by rewrite app_nil_r.
Qed.

(** X9.  [StopSessions], in whatever order [range] visits the map: it
    returns; the map is unchanged (no key is removed); every entry of the
    map has its gate fired, with the gate body run once for the entries
    whose gate was armed and nothing done for the others; entries the map
    does not point to are untouched; and a [StopSession] for any key
    afterwards is answered "Session stopped prematurely". *)
Theorem StopSessions_fires_all order st :
  order ≡ₚ map_to_list (sessions st) →
  allocated st →
  ∃ st',
    StopSessions_in order st = Some st'
    ∧ sessions st' = sessions st
    ∧ (∀ k l, sessions st !! k = Some l →
         ∃ base,
           heap st !! l = Some base
           ∧ heap st' !! l = Some (fired base)
           ∧ calls_of l (trace st')
             = calls_of l (trace st)
               ++ (if enabled (Stopped base) then [] else stop_calls (session base)))
    ∧ (∀ l, (∀ k, sessions st !! k ≠ Some l) →
            heap st' !! l = heap st !! l
            ∧ calls_of l (trace st') = calls_of l (trace st))
    ∧ (∀ k l, sessions st !! k = Some l →
         ∃ st2 e,
           StopSession fmt_key k st' = Some (st2, Some e) ∧ is_premature e = true).
Proof.
  intros Hperm [Halloc _].
  assert (Hin : ∀ l, l ∈ order.*2 ↔ ∃ k, sessions st !! k = Some l).
  { intros l. rewrite list_elem_of_fmap. split.
    - intros ([k l'] & -> & Hkl). exists k. apply elem_of_map_to_list.
      by rewrite <- Hperm.
    - intros [k Hk]. exists (k, l). split; [done|]. rewrite Hperm.
      by apply elem_of_map_to_list. }
  destruct (Stop_each_effect (order.*2) st) as (st' & Hrun & Hm & _ & Heach).
  { intros l [k Hk]%Hin. by eapply Halloc. }
  assert (Hentry : ∀ k l, sessions st !! k = Some l →
            ∃ base,
              heap st !! l = Some base
              ∧ heap st' !! l = Some (fired base)
              ∧ calls_of l (trace st')
                = calls_of l (trace st)
                  ++ (if enabled (Stopped base) then []
                      else stop_calls (session base))).
  { intros k l Hk.
    destruct (lookup_lt_is_Some_2 (heap st) l) as [base Hb]; [by eapply Halloc|].
    exists base. destruct (Heach l) as [Hheap Hcalls].
    assert (Hl : l ∈ order.*2) by (apply Hin; by exists k).
    destruct (decide (l ∈ order.*2)) as [_|Hn]; [|done].
    rewrite Hb in Hheap, Hcalls. done. }
  exists st'. split; [done|]. split; [done|]. split; [done|]. split.
  - intros l Hnone. destruct (Heach l) as [Hheap Hcalls].
    destruct (decide (l ∈ order.*2)) as [Hl|_].
    + apply Hin in Hl as [k Hk]. by destruct (Hnone k).
    + by rewrite app_nil_r in Hcalls.
  - intros k l Hk. destruct (Hentry k l Hk) as (base & _ & Hb' & _).
    rewrite <- Hm in Hk.
    unfold StopSession. rewrite Hk, Hb'. simpl. unfold Enabled.
    rewrite SessionsFacts.fired_gate. simpl.
    eexists _, _. split; [done|]. done.
Qed.

(** X10.  A session that declares no observee gets no watcher: whichever
    watchers of the registry resume afterwards, the gate of its entry stays
    armed and no call is made for it.  Only [Stop] on the entry or a
    [StopSession] for its key ends such a session. *)
Theorem no_observees_no_self_stop key (s : Session) st st1 l ls st' :
  allocated st →
  Observees s = [] →
  NewSession key s st = Some (st1, l) →
  watchers_fire ls st1 = Some st' →
  heap st' !! l = Some (mkSessionBase NewOneshotCondition None s)
  ∧ calls_of l (trace st') = calls_of l (trace st1)
  ∧ sessions st' = sessions st1.
Proof.
  intros [_ Hwatch] Hobs Hnew Hfire.
  assert (Hshape : heap st1 !! l = Some (mkSessionBase NewOneshotCondition None s)
                   ∧ l ∉ watchers st1).
  { rewrite SessionsFacts.NewSession_returns in Hnew.
    inversion Hnew; subst st1 l; clear Hnew. rewrite Hobs. simpl. split.
    - by rewrite lookup_app_r, Nat.sub_diag.
    - intros Hin%Hwatch. lia. }
  destruct Hshape as [Hb1 Hnot].
  by eapply watchers_fire_keeps.
Qed.

End WithKey.

Lemma allocated_registered : allocated TestRegistry.registered.
Proof.
  eapply (allocated_NewSession "k" TestRegistry.session0 empty_state _ 0%nat);
    [apply allocated_empty|vm_compute; reflexivity].
Qed.

Lemma allocated_two_entries : allocated TestRegistry2.two_entries.
Proof.
  eapply (allocated_NewSession "b" TestRegistry.session0 TestRegistry.registered _ 1%nat);
    [apply allocated_registered|vm_compute; reflexivity].
Qed.

Lemma Get_follows_registration_witness :
  allocated TestRegistry.registered
  ∧ ∃ st1 l,
      NewSession "a" TestRegistry2.quiet TestRegistry.registered = Some (st1, l)
      ∧ Get "a" st1 = Some TestRegistry2.quiet
      ∧ ∃ st2 err,
          StopSession TestRegistry.fmt "a" st1 = Some (st2, err)
          ∧ Get "a" st2 = None
          ∧ Get "k" st2 = Get "k" TestRegistry.registered.
Proof.
  split; [exact allocated_registered|].
  destruct (Get_follows_registration TestRegistry.fmt "a" TestRegistry2.quiet
              TestRegistry.registered allocated_registered)
    as (st1 & l & Hnew & Hget & _ & st2 & err & Hstop & Hgone & Hother).
  exists st1, l. split; [exact Hnew|]. split; [exact Hget|].
  exists st2, err. split; [exact Hstop|]. split; [exact Hgone|].
  apply Hother. discriminate.
Defined.

Lemma NewSession_replaces_without_stopping_witness :
  sessions TestRegistry.registered !! "k" = Some 0%nat
  ∧ heap TestRegistry.registered !! 0%nat
    = Some (mkSessionBase NewOneshotCondition None TestRegistry.session0)
  ∧ ∃ st1 l1,
      NewSession "k" TestRegistry2.quiet TestRegistry.registered = Some (st1, l1)
      ∧ sessions st1 !! "k" = Some l1
      ∧ l1 ≠ 0%nat
      ∧ heap st1 !! 0%nat
        = Some (mkSessionBase NewOneshotCondition None TestRegistry.session0)
      ∧ calls_of 0 (trace st1) = calls_of 0 (trace TestRegistry.registered).
Proof.
  assert (Hk : sessions TestRegistry.registered !! "k" = Some 0%nat)
    by (vm_compute; reflexivity).
  assert (Hb : heap TestRegistry.registered !! 0%nat
               = Some (mkSessionBase NewOneshotCondition None TestRegistry.session0))
    by (vm_compute; reflexivity).
  split; [exact Hk|]. split; [exact Hb|].
  destruct (NewSession_replaces_without_stopping TestRegistry.fmt "k" TestRegistry2.quiet
              TestRegistry.registered 0 _ Hk Hb)
    as (st1 & l1 & Hnew & Hne & Hk1 & _ & Hold & Hcalls & _).
  exists st1, l1. split; [exact Hnew|]. split; [exact Hk1|]. split; [exact Hne|].
  split; [exact Hold|]. exact Hcalls.
Defined.

Lemma StopSessions_fires_all_witness :
  reverse (map_to_list (sessions TestRegistry2.two_entries))
    ≡ₚ map_to_list (sessions TestRegistry2.two_entries)
  ∧ allocated TestRegistry2.two_entries
  ∧ ∃ st',
      StopSessions_in (reverse (map_to_list (sessions TestRegistry2.two_entries)))
        TestRegistry2.two_entries = Some st'
      ∧ sessions st' = sessions TestRegistry2.two_entries.
Proof.
  assert (Hperm : reverse (map_to_list (sessions TestRegistry2.two_entries))
                    ≡ₚ map_to_list (sessions TestRegistry2.two_entries))
    by apply reverse_Permutation.
  split; [exact Hperm|]. split; [exact allocated_two_entries|].
  destruct (StopSessions_fires_all TestRegistry.fmt _ TestRegistry2.two_entries Hperm
              allocated_two_entries) as (st' & Hrun & Hm & _).
  exists st'. split; [exact Hrun|exact Hm].
Defined.

Lemma no_observees_no_self_stop_witness :
  allocated TestRegistry.registered
  ∧ Observees TestRegistry2.quiet = []
  ∧ NewSession "a" TestRegistry2.quiet TestRegistry.registered
    = Some (TestRegistry2.with_quiet, 1%nat)
  ∧ watchers_fire [0%nat] TestRegistry2.with_quiet = Some TestRegistry2.with_quiet_fired
  ∧ heap TestRegistry2.with_quiet_fired !! 1%nat
    = Some (mkSessionBase NewOneshotCondition None TestRegistry2.quiet)
  ∧ calls_of 1 (trace TestRegistry2.with_quiet_fired)
    = calls_of 1 (trace TestRegistry2.with_quiet).
Proof.
  assert (Hnew : NewSession "a" TestRegistry2.quiet TestRegistry.registered
                 = Some (TestRegistry2.with_quiet, 1%nat))
    by (vm_compute; reflexivity).
  assert (Hfire : watchers_fire [0%nat] TestRegistry2.with_quiet
                  = Some TestRegistry2.with_quiet_fired)
    by (vm_compute; reflexivity).
  split; [exact allocated_registered|]. split; [reflexivity|].
  split; [exact Hnew|]. split; [exact Hfire|].
  destruct (no_observees_no_self_stop "a" TestRegistry2.quiet TestRegistry.registered
              _ _ _ _ allocated_registered eq_refl Hnew Hfire) as (Hheap & Hcalls & _).
  split; [exact Hheap|exact Hcalls].
Defined.

End RegistryFacts.

(* ===================================================================== *)
(** * Properties of the proxy as a server                                 *)
(* ===================================================================== *)

Module AmpServerFacts.

Import Go Udp Amp AmpServer Alloc.

(** ** Relays under allocation and shutdown *)

Lemma live_mono l w w' :
  live l w →
  (∀ p, proxies w !! l = Some p → proxies w' !! l = Some p) →
  socks w ⊆ socks w' →
  live l w'.
Proof.
  intros (p & Hp & Hd & Hc & Hch & Hne & Hls & Hts) Hkeep Hsub.
  exists p. repeat split; try done; [by apply Hkeep| |];
    by eapply lookup_weaken.
Qed.

Lemma live_doclose_other l l' e w w' :
  owned w → live l' w → l' ≠ l → doclose l e w = Some w' → live l' w'.
Proof.
  intros (Hlive & _ & Huniq & _) Hl' Hne Hc.
  destruct (proxies w !! l) as [p|] eqn:Hp;
    [|unfold doclose, closeOnce_Do in Hc; by rewrite Hp in Hc].
  destruct (closeOnce p) eqn:Hdone.
  { rewrite (UdpFacts.doclose_again l e w p Hp Hdone) in Hc. by inversion Hc; subst. }
  destruct (Hlive l p Hp Hdone) as (p0 & Hp0 & _ & _ & Hch & _).
  rewrite Hp in Hp0. inversion Hp0; subst p0.
  rewrite (UdpFacts.doclose_first l e w p Hp Hdone Hch) in Hc.
  inversion Hc; subst; clear Hc.
  destruct Hl' as (p' & Hp' & Hd' & Hc' & Hch' & Hne' & Hls' & Hts').
  assert (Hfd : ∀ fd, fd ∈ fds p' → fd ≠ listenConn p ∧ fd ≠ targetConn p).
  { intros fd Hfd. split; intros ->; apply Hne;
      apply (Huniq l' l p' p _ Hp' Hp Hd' Hdone Hfd); unfold fds;
      rewrite !elem_of_cons; tauto. }
  destruct (Hfd (listenConn p')) as [? ?]; [unfold fds; rewrite !elem_of_cons; tauto|].
  destruct (Hfd (targetConn p')) as [? ?]; [unfold fds; rewrite !elem_of_cons; tauto|].
  exists p'. simpl. repeat split; try done.
  - by rewrite list_lookup_insert_ne.
  - by rewrite !lookup_delete_ne.
  - by rewrite !lookup_delete_ne.
Qed.

Lemma closed_doclose l l' e w w' :
  closed l' w → doclose l e w = Some w' → closed l' w'.
Proof.
  intros (p' & Hp' & Hd' & Hc' & Hch' & Hst' & Hls' & Hts') Hc.
  destruct (proxies w !! l) as [p|] eqn:Hp;
    [|unfold doclose, closeOnce_Do in Hc; by rewrite Hp in Hc].
  destruct (closeOnce p) eqn:Hdone.
  { rewrite (UdpFacts.doclose_again l e w p Hp Hdone) in Hc. inversion Hc; subst.
    by exists p'. }
  assert (l ≠ l') by (intros ->; congruence).
  destruct (AllocFacts.doclose_frame l e w w' Hc) as (Hkeep & _ & Hsub).
  exists p'. repeat split; try done.
  - by apply Hkeep.
  - by eapply lookup_weaken_None.
  - by eapply lookup_weaken_None.
Qed.

(** [Close] on a relay of a world whose relays own their sockets
    returns; the relay is then shut, whatever it was before. *)
Lemma Close_owned l w :
  owned w → (l < length (proxies w))%nat →
  ∃ w' p', Close l w = Some w'
        ∧ owned w'
        ∧ length (proxies w') = length (proxies w)
        ∧ socks w' ⊆ socks w
        ∧ (∀ l0 p0, l0 ≠ l → proxies w !! l0 = Some p0 → proxies w' !! l0 = Some p0)
        ∧ (∀ l0, l0 ≠ l → live l0 w → live l0 w')
        ∧ (∀ l0, closed l0 w → closed l0 w')
        ∧ proxies w' !! l = Some p' ∧ closeOnce p' = true
        ∧ (live l w → closed l w')
        ∧ (∀ p, proxies w !! l = Some p → closeOnce p = true → w' = w).
Proof.
  intros Hown Hlt.
  destruct (lookup_lt_is_Some_2 _ _ Hlt) as [p Hp].
  assert (Hret : ∃ w', Close l w = Some w').
  { destruct (closeOnce p) eqn:Hdone.
    - exists w. by apply (UdpFacts.doclose_again l None w p).
    - destruct Hown as (Hlive & _).
      destruct (Hlive l p Hp Hdone) as (p0 & Hp0 & _ & _ & Hch & _).
      rewrite Hp in Hp0. inversion Hp0; subst p0.
      eexists. by apply (UdpFacts.doclose_first l None w p). }
  destruct Hret as [w' Hc]. unfold Close in Hc.
  destruct (AllocFacts.doclose_frame l None w w' Hc) as (Hkeep & Hlen & Hsub).
  assert (Hshut : ∃ p', proxies w' !! l = Some p' ∧ closeOnce p' = true).
  { destruct (closeOnce p) eqn:Hdone.
    - rewrite (UdpFacts.doclose_again l None w p Hp Hdone) in Hc.
      inversion Hc; subst. by exists p.
    - destruct Hown as (Hlive & _).
      destruct (Hlive l p Hp Hdone) as (p0 & Hp0 & _ & _ & Hch & _).
      rewrite Hp in Hp0. inversion Hp0; subst p0.
      rewrite (UdpFacts.doclose_first l None w p Hp Hdone Hch) in Hc.
      inversion Hc; subst. exists (shut None p). simpl.
      by rewrite list_lookup_insert_eq. }
  destruct Hshut as (p' & Hp' & Hd').
  exists w', p'. unfold Close. split; [done|].
  split; [by eapply AllocFacts.owned_doclose|].
  split; [done|]. split; [done|]. split; [done|].
  split; [intros l0 Hne Hl0; by eapply live_doclose_other|].
  split; [intros l0 Hl0; by eapply closed_doclose|].
  split; [done|]. split; [done|]. split.
  - intros Hl. destruct (UdpFacts.Close_live l w Hl) as (w2 & p2 & Hc2 & _ & _ & _ & Hcl).
    unfold Close in Hc2. rewrite Hc in Hc2. by inversion Hc2; subst.
  - intros p0 Hp0 Hd0. rewrite (UdpFacts.doclose_again l None w p0 Hp0 Hd0) in Hc.
    by inversion Hc.
Qed.

(** A scan that succeeds returns two new relays, and the socket table
    of the call with their four sockets added. *)
Lemma loop_success_socks (env : NetEnv) host t1 t2 mp fuel :
  ∀ sp proxy2 w w' r1 r2,
    NewUdpProxyPair_loop env fuel host t1 t2 sp mp proxy2 w
    = Some (w', (r1, r2, None)) →
    ∃ l1 l2 p1 p2,
      r1 = Some l1 ∧ r2 = Some l2
      ∧ (length (proxies w) ≤ l1)%nat ∧ (l1 < l2)%nat
      ∧ proxies w' !! l1 = Some p1 ∧ proxies w' !! l2 = Some p2
      ∧ socks w' = four_socks p1 p2 (socks w)
      ∧ NoDup [listenConn p1; targetConn p1; listenConn p2; targetConn p2]
      ∧ (∀ fd, fd ∈ [listenConn p1; targetConn p1; listenConn p2; targetConn p2] →
               socks w !! fd = None).
Proof.
  induction fuel as [|fuel IH]; intros sp proxy2 w w' r1 r2 Hrun; [done|].
  simpl in Hrun.
  destruct (NewUdpProxy env _ t1 w) as [w1 [e1|l1]] eqn:H1.
  - apply UdpFacts.NewUdpProxy_error in H1 as ->.
    destruct (int_add sp 2 >? mp); [done|]. by eapply IH.
  - destruct (NewUdpProxy env _ t2 w1) as [w2 [e2|l2]] eqn:H2.
    + destruct (UdpFacts.attempt_released env _ _ _ _ _ _ _ _ _ H1 H2)
        as (w3 & Hc & _ & Hss).
      rewrite Hc in Hrun. simpl in Hrun.
      destruct (int_add sp 2 >? mp); [done|].
      apply IH in Hrun
        as (l1' & l2' & p1 & p2 & -> & -> & Hlen & Hlt & Hp1 & Hp2 & Hsocks & Hnd & Hfresh).
      exists l1', l2', p1, p2. rewrite Hss in Hsocks, Hfresh.
      repeat split; try done.
      pose proof (AllocFacts.NewUdpProxy_frame env
                    (JoinHostPort host (Itoa sp)) t1 w) as (_ & _ & Hlen1).
      rewrite H1 in Hlen1. simpl in Hlen1.
      apply UdpFacts.NewUdpProxy_error in H2 as ->.
      destruct (AllocFacts.doclose_frame _ _ _ _ Hc) as (_ & Hlen3 & _). lia.
    + inversion Hrun; subst; clear Hrun.
      apply UdpFacts.NewUdpProxy_ok in H1
        as (p1 & lfd1 & tfd1 & -> & Hps1 & Hss1 & Hl1 & Ht1 & Hne1 & Hlc1 & Htc1 & _).
      apply UdpFacts.NewUdpProxy_ok in H2
        as (p2 & lfd2 & tfd2 & -> & Hps2 & Hss2 & Hl2 & Ht2 & Hne2 & Hlc2 & Htc2 & _).
      rewrite Hss1 in Hl2, Ht2.
      apply lookup_insert_None in Hl2 as [Hl2 ?], Ht2 as [Ht2 ?].
      apply lookup_insert_None in Hl2 as [Hl2 ?], Ht2 as [Ht2 ?].
      exists (length (proxies w)), (length (proxies w1)), p1, p2.
      split; [done|]. split; [done|]. split; [done|].
      split; [rewrite Hps1, length_app; simpl; lia|].
      split.
      { rewrite Hps2, lookup_app_l by (rewrite Hps1, length_app; simpl; lia).
        by rewrite Hps1, lookup_app_r, Nat.sub_diag. }
      split; [by rewrite Hps2, lookup_app_r, Nat.sub_diag|].
      split; [unfold four_socks; by rewrite Hss2, Hss1, Hlc1, Htc1, Hlc2, Htc2|].
      rewrite Hlc1, Htc1, Hlc2, Htc2. split.
      * repeat (apply NoDup_cons; split;
                  [rewrite ?elem_of_cons, elem_of_nil; intuition congruence|]).
        apply NoDup_nil_2.
      * intros fd. rewrite !elem_of_cons, elem_of_nil.
        intros [->|[->|[->|[->|[]]]]]; done.
Qed.

(** ** [cleanupSession] *)

Lemma elem_of_relays l s : l ∈ relays s ↔ l = rtpProxy s ∨ l = rtcpProxy s.
Proof. unfold relays. rewrite !elem_of_cons, elem_of_nil. tauto. Qed.

(** On a session whose pointers are valid, in a world whose relays own
    their sockets, [cleanupSession] returns; what it changes. *)
Lemma cleanupSession_effect s st :
  owned (world st) →
  (backend s < length (backends st))%nat →
  (rtpProxy s < length (proxies (world st)))%nat →
  (rtcpProxy s < length (proxies (world st)))%nat →
  ∃ st' b,
    cleanupSession s st = Some st'
    ∧ backends st !! backend s = Some b
    ∧ backends st' = <[backend s := RtspClient_Stop b]> (backends st)
    ∧ sessions st' = delete (client s) (sessions st)
    ∧ watchers st' = watchers st
    ∧ hook_calls st' = hook_calls st
    ∧ owned (world st')
    ∧ length (proxies (world st')) = length (proxies (world st))
    ∧ socks (world st') ⊆ socks (world st)
    ∧ (∀ l p, l ∉ relays s → proxies (world st) !! l = Some p →
              proxies (world st') !! l = Some p)
    ∧ (∀ l, l ∉ relays s → live l (world st) → live l (world st'))
    ∧ (∀ l, closed l (world st) → closed l (world st'))
    ∧ (∀ l, l ∈ relays s →
            ∃ p, proxies (world st') !! l = Some p ∧ closeOnce p = true)
    ∧ (live (rtpProxy s) (world st) → live (rtcpProxy s) (world st) →
       rtpProxy s ≠ rtcpProxy s →
       closed (rtpProxy s) (world st') ∧ closed (rtcpProxy s) (world st'))
    ∧ ((∀ l, l ∈ relays s →
             ∃ p, proxies (world st) !! l = Some p ∧ closeOnce p = true) →
       world st' = world st).
Proof.
  intros Hown Hb Hrtp Hrtcp.
  destruct (lookup_lt_is_Some_2 _ _ Hb) as [b Hbl].
  destruct (Close_owned (rtpProxy s) (world st) Hown Hrtp)
    as (w1 & q1 & Hc1 & Hown1 & Hlen1 & Hsub1 & Hkeep1 & Hlive1 & Hclosed1
        & Hq1 & Hq1d & Hshut1 & Hnoop1).
  rewrite <- Hlen1 in Hrtcp.
  destruct (Close_owned (rtcpProxy s) w1 Hown1 Hrtcp)
    as (w2 & q2 & Hc2 & Hown2 & Hlen2 & Hsub2 & Hkeep2 & Hlive2 & Hclosed2
        & Hq2 & Hq2d & Hshut2 & Hnoop2).
  eexists _, b. unfold cleanupSession. rewrite Hbl. simpl. rewrite Hc1. simpl.
  rewrite Hc2. unfold set_sessions, set_world, set_backends. simpl.
  split; [done|]. simpl. split; [done|]. split; [done|]. split; [done|].
  split; [done|]. split; [done|]. split; [done|].
  split; [congruence|]. split; [by etrans|].
  split.
  { intros l p Hl Hp. rewrite elem_of_relays in Hl.
    apply Hkeep2; [tauto|]. apply Hkeep1; [tauto|done]. }
  split.
  { intros l Hl Hlive. rewrite elem_of_relays in Hl.
    apply Hlive2; [tauto|]. apply Hlive1; [tauto|done]. }
  split; [intros l Hl; by apply Hclosed2, Hclosed1|].
  split.
  { intros l [->| ->]%elem_of_relays; [|by exists q2].
    destruct (decide (rtpProxy s = rtcpProxy s)) as [Heq|Hne].
    - rewrite Heq. by exists q2.
    - exists q1. split; [|done]. by apply Hkeep2. }
  split.
  { intros Hl1 Hl2 Hne. split.
    - by apply Hclosed2, Hshut1.
    - apply Hshut2, Hlive1; [congruence|done]. }
  intros Hshut.
  destruct (Hshut (rtpProxy s)) as (p1 & Hp1 & Hd1); [apply elem_of_relays; tauto|].
  destruct (Hshut (rtcpProxy s)) as (p2 & Hp2 & Hd2); [apply elem_of_relays; tauto|].
  assert (w1 = world st) as -> by by eapply Hnoop1.
  by eapply Hnoop2.
Qed.

(** ** [startSession], case by case *)

Section WithEnv.

Variable env : AmpEnv.
Variable cfg : Config.

(** Whatever [startSession] returns, the relays are as they were or as
    the allocator has left them. *)
Lemma startSession_world desc st st' r :
  startSession env cfg desc st = Some (st', r) →
  world st' = world st
  ∨ ∃ res,
      NewUdpProxyPair (net env) pair_fuel (proxyHost cfg)
        (JoinHostPort (ReceiverHost desc) (Itoa (Port_ desc)))
        (JoinHostPort (ReceiverHost desc) (Itoa (int_add (Port_ desc) 1)))
        minPort maxPort (world st) = Some (world st', res).
Proof.
  unfold startSession.
  destruct (sessions st !! _); [intros Hret; inversion Hret; by left|].
  destruct (NewUdpProxyPair _ _ _ _ _ _ _ _) as [[w1 [[r1 r2] err]]|] eqn:Hpair;
    [|done].
  simpl. intros Hret. right. exists (r1, r2, err).
  destruct err as [e|]; [by inversion Hret|].
  destruct r1 as [l1|]; [|done]. destruct r2 as [l2|]; [|done]. simpl in Hret.
  destruct (proxies w1 !! l1); [|done]. simpl in Hret.
  destruct (rtsp_start_err env _ _ _ _); inversion Hret; subst; [done|].
  unfold observe. by destruct (RtspStartedCallback cfg).
Qed.

Lemma startSession_keeps_relays desc st st' r :
  startSession env cfg desc st = Some (st', r) →
  (owned (world st) → owned (world st'))
  ∧ (∀ l p, proxies (world st) !! l = Some p → proxies (world st') !! l = Some p)
  ∧ socks (world st) ⊆ socks (world st')
  ∧ (length (proxies (world st)) ≤ length (proxies (world st')))%nat.
Proof.
  intros [->|[res Hpair]]%startSession_world; [done|].
  unfold NewUdpProxyPair in Hpair.
  destruct (AllocFacts.loop_frame _ _ _ _ _ _ _ _ _ _ _ Hpair) as [Hkeep Hlen].
  split; [intros Hown; by eapply AllocFacts.owned_loop|].
  split; [done|]. split; [by eapply AllocFacts.loop_socks_mono|done].
Qed.

(** A start request that is refused leaves the map, the backends and
    the watchers alone. *)
Lemma startSession_refused desc st st' e :
  startSession env cfg desc st = Some (st', Some e) →
  sessions st' = sessions st ∧ backends st' = backends st
  ∧ watchers st' = watchers st ∧ hook_calls st' = hook_calls st.
Proof.
  unfold startSession.
  destruct (sessions st !! _); [intros Hret; by inversion Hret; subst|].
  destruct (NewUdpProxyPair _ _ _ _ _ _ _ _) as [[w1 [[r1 r2] err]]|]; [|done].
  simpl. intros Hret.
  destruct err as [e'|]; [by inversion Hret; subst|].
  destruct r1 as [l1|]; [|done]. destruct r2 as [l2|]; [|done]. simpl in Hret.
  destruct (proxies w1 !! l1); [|done]. simpl in Hret.
  destruct (rtsp_start_err env _ _ _ _); by inversion Hret; subst.
Qed.

(** A start request that is accepted: the new session, its relays and
    sockets, its backend and its watcher. *)
Lemma startSession_accepted desc st st' :
  startSession env cfg desc st = Some (st', None) →
  ∃ s p1 p2 b,
    sessions st !! JoinHostPort (ReceiverHost desc) (Itoa (Port_ desc)) = None
    ∧ client s = JoinHostPort (ReceiverHost desc) (Itoa (Port_ desc))
    ∧ backend s = length (backends st)
    ∧ (length (proxies (world st)) ≤ rtpProxy s)%nat
    ∧ (rtpProxy s < rtcpProxy s)%nat
    ∧ sessions st'
      = <[JoinHostPort (ReceiverHost desc) (Itoa (Port_ desc)) := s]> (sessions st)
    ∧ backends st' = backends st ++ [b] ∧ rtsp_stopped b = false
    ∧ watchers st' = watchers st ++ [s]
    ∧ hook_calls st'
      = hook_calls st
        ++ (if RtspStartedCallback cfg then [HookStarted (backend s)] else [])
    ∧ proxies (world st') !! rtpProxy s = Some p1
    ∧ proxies (world st') !! rtcpProxy s = Some p2
    ∧ socks (world st') = four_socks p1 p2 (socks (world st))
    ∧ NoDup [listenConn p1; targetConn p1; listenConn p2; targetConn p2]
    ∧ (∀ fd, fd ∈ [listenConn p1; targetConn p1; listenConn p2; targetConn p2] →
             socks (world st) !! fd = None)
    ∧ live (rtpProxy s) (world st') ∧ live (rtcpProxy s) (world st').
Proof.
  unfold startSession.
  destruct (sessions st !! _) eqn:Hnone; [done|].
  unfold NewUdpProxyPair.
  destruct (NewUdpProxyPair_loop _ _ _ _ _ _ _ _ _) as [[w1 [[r1 r2] [e|]]]|] eqn:Hpair;
    simpl; try done.
  destruct (UdpFacts.loop_success _ _ _ _ _ _ _ _ _ _ _ _ Hpair)
    as (q & l1 & l2 & p1 & p2 & -> & -> & _ & Hp1 & Hp2 & _ & _ & _ & _
        & Hlive1 & Hlive2).
  destruct (loop_success_socks _ _ _ _ _ _ _ _ _ _ _ _ Hpair)
    as (l1' & l2' & p1' & p2' & Hr1 & Hr2 & Hlen & Hlt & Hp1' & Hp2' & Hsocks & Hnd & Hfresh).
  inversion Hr1; subst l1'. inversion Hr2; subst l2'.
  rewrite Hp1 in Hp1'. inversion Hp1'; subst p1'.
  rewrite Hp2 in Hp2'. inversion Hp2'; subst p2'.
  simpl. rewrite Hp1; simpl.
  destruct (rtsp_start_err env _ _ _ _); [done|].
  intros Hret. inversion Hret; subst; clear Hret.
  eexists _, p1, p2, _. unfold observe.
  destruct (RtspStartedCallback cfg); simpl; repeat split; try done.
  by rewrite app_nil_r.
Qed.

(** ** The invariant *)

Lemma consistent_empty : consistent empty_state.
Proof.
  split; [apply AllocFacts.owned_empty|]. split; [|split].
  - intros k s Hk. simpl in Hk. by apply lookup_empty_Some in Hk.
  - intros s Hs. by apply elem_of_nil in Hs.
  - intros s s' Hs. by apply elem_of_nil in Hs.
Qed.

Lemma watcher_removed_elem s ws ws' :
  remove_first s ws = Some ws' →
  s ∈ ws ∧ (∀ x, x ∈ ws' → x ∈ ws) ∧ (∀ x, x ∈ ws → x ≠ s → x ∈ ws').
Proof.
  revert ws'. induction ws as [|w ws IH]; intros ws' Hrem; [done|].
  simpl in Hrem. destruct (decide (w = s)) as [->|Hne].
  - inversion Hrem; subst. split; [by left|]. split.
    + intros x Hx. by right.
    + intros x [->|Hx]%elem_of_cons Hxs; [done|done].
  - destruct (remove_first s ws) as [ws0|] eqn:Hrec; [|done].
    simpl in Hrem. inversion Hrem; subst.
    destruct (IH ws0 eq_refl) as (Hin & Hsub & Hkeep).
    split; [by right|]. split.
    + intros x [->|Hx]%elem_of_cons; [by left|right; by apply Hsub].
    + intros x [->|Hx]%elem_of_cons Hxs; [by left|right; by apply Hkeep].
Qed.

Lemma watcher_removed_returns s ws : s ∈ ws → is_Some (remove_first s ws).
Proof.
  induction ws as [|w ws IH]; [by intros ?%elem_of_nil|].
  intros Hin. simpl. destruct (decide (w = s)); [by eexists|].
  apply elem_of_cons in Hin as [->|Hin]; [done|].
  destruct (IH Hin) as [ws' ->]. by eexists.
Qed.

(** The goroutine of [observe]: [cleanupSession] neither reads nor
    writes the list of waiting goroutines or the record of callbacks. *)
Lemma backend_ended_cleanup s st :
  backend_ended cfg s st
  = ws ← remove_first s (watchers st);
    st1 ← cleanupSession s st;
    Some (mkState (world st1) (backends st1) (sessions st1) ws
            (hook_calls st
             ++ (if RtspEndedCallback cfg then [HookEnded (backend s)] else []))).
Proof.
  unfold backend_ended.
  destruct (remove_first s (watchers st)) as [ws|]; [|done]. simpl.
  unfold cleanupSession.
  destruct (RtspEndedCallback cfg); simpl;
    (destruct (backends st !! backend s) as [b|]; [|done]); simpl;
    (destruct (Close (rtpProxy s) (world st)) as [w1|]; [|done]); simpl;
    (destruct (Close (rtcpProxy s) w1) as [w2|]; [|done]); simpl;
    unfold set_sessions, set_world, set_backends, set_watchers, add_hook_call;
    simpl; [done|by rewrite app_nil_r].
Qed.

Lemma consistent_cleanup s st :
  consistent st → s ∈ watchers st →
  ∃ st', cleanupSession s st = Some st'
         ∧ consistent st'
         ∧ watchers st' = watchers st
         ∧ sessions st' = delete (client s) (sessions st).
Proof.
  intros (Hown & Hmap & Hptr & Hdist) Hs.
  destruct (Hptr s Hs) as (Hb & Hrtp & Hrtcp & Hne).
  destruct (cleanupSession_effect s st Hown Hb Hrtp Hrtcp)
    as (st' & b & Hc & Hbl & Hbs & Hm & Hws & _ & Hown' & Hlen & _).
  exists st'. split; [done|]. split; [|done].
  split; [done|]. split; [|split].
  - intros k s' Hk. rewrite Hm in Hk.
    apply lookup_delete_Some in Hk as [Hkne Hk].
    destruct (Hmap k s' Hk) as (Hcl & (b' & Hb' & Hrun) & Hw).
    assert (Hss : s' ≠ s) by (intros ->; done).
    destruct (Hdist s' s Hw Hs Hss) as [Hbne _].
    split; [done|]. rewrite Hws. split; [|done].
    exists b'. rewrite Hbs. by rewrite list_lookup_insert_ne.
  - intros s' Hs'. rewrite Hws in Hs'. rewrite Hbs, length_insert, Hlen.
    by apply Hptr.
  - intros s1 s2. rewrite Hws. apply Hdist.
Qed.

Lemma relays_open_cleanup s st st' :
  consistent st → relays_open st → s ∈ watchers st →
  cleanupSession s st = Some st' → relays_open st'.
Proof.
  intros (Hown & Hmap & Hptr & Hdist) Hopen Hs Hc.
  destruct (Hptr s Hs) as (Hb & Hrtp & Hrtcp & Hne).
  destruct (cleanupSession_effect s st Hown Hb Hrtp Hrtcp)
    as (st1 & b & Hc' & _ & _ & Hm & _ & _ & _ & _ & _ & _ & Hlive & _).
  rewrite Hc in Hc'. inversion Hc'; subst st1; clear Hc'.
  intros k s' Hk. rewrite Hm in Hk.
  apply lookup_delete_Some in Hk as [Hkne Hk].
  destruct (Hmap k s' Hk) as (Hcl & _ & Hw).
  destruct (Hopen k s' Hk) as [Hl1 Hl2].
  assert (Hss : s' ≠ s) by (intros ->; done).
  destruct (Hdist s' s Hw Hs Hss) as [_ Hrel].
  split.
  - apply Hlive; [|done]. intros Hin. apply (Hrel (rtpProxy s')); [|done].
    apply elem_of_relays; tauto.
  - apply Hlive; [|done]. intros Hin. apply (Hrel (rtcpProxy s')); [|done].
    apply elem_of_relays; tauto.
Qed.

Lemma consistent_backend_ended s st st' :
  consistent st → backend_ended cfg s st = Some st' → consistent st'.
Proof.
  intros Hcons. rewrite backend_ended_cleanup.
  destruct (remove_first s (watchers st)) as [ws|] eqn:Hrem; [|done]. simpl.
  destruct (watcher_removed_elem _ _ _ Hrem) as (Hs & Hsub & Hkeep).
  destruct (consistent_cleanup s st Hcons Hs)
    as (st1 & -> & (Hown & Hmap & Hptr & Hdist) & Hws & Hm).
  simpl. intros Hret. inversion Hret; subst; clear Hret.
  split; [done|]. split; [|split]; simpl.
  - intros k s' Hk. destruct (Hmap k s' Hk) as (Hcl & Hrun & Hw).
    split; [done|]. split; [done|]. simpl.
    apply Hkeep; [by rewrite <- Hws|]. intros ->.
    rewrite Hm, Hcl in Hk. by rewrite lookup_delete_eq in Hk.
  - intros s' Hs'. apply Hptr. rewrite Hws. by apply Hsub.
  - intros s1 s2 H1 H2. apply Hdist; rewrite Hws; by apply Hsub.
Qed.

Lemma relays_open_backend_ended s st st' :
  consistent st → relays_open st → backend_ended cfg s st = Some st' →
  relays_open st'.
Proof.
  intros Hcons Hopen. rewrite backend_ended_cleanup.
  destruct (remove_first s (watchers st)) as [ws|] eqn:Hrem; [|done]. simpl.
  destruct (watcher_removed_elem _ _ _ Hrem) as (Hs & _).
  destruct (cleanupSession s st) as [st1|] eqn:Hc; [|done].
  simpl. intros Hret. inversion Hret; subst; clear Hret.
  exact (relays_open_cleanup s st st1 Hcons Hopen Hs Hc).
Qed.

Lemma backend_ended_returns s st :
  consistent st → s ∈ watchers st → is_Some (backend_ended cfg s st).
Proof.
  intros Hcons Hs. rewrite backend_ended_cleanup.
  destruct (watcher_removed_returns s _ Hs) as [ws ->]. simpl.
  destruct (consistent_cleanup s st Hcons Hs) as (st1 & -> & _). by eexists.
Qed.

Lemma consistent_startSession desc st st' r :
  consistent st → startSession env cfg desc st = Some (st', r) → consistent st'.
Proof.
  intros (Hown & Hmap & Hptr & Hdist) Hstart.
  destruct (startSession_keeps_relays desc st st' r Hstart)
    as (Hown' & Hkeep & Hsub & Hlen).
  destruct r as [e|].
  - destruct (startSession_refused desc st st' e Hstart) as (Hm & Hb & Hw & _).
    split; [by apply Hown'|]. split; [|split].
    + intros k s Hk. rewrite Hm in Hk.
      destruct (Hmap k s Hk) as (Hcl & Hrun & Hws).
      split; [done|]. unfold backend_running. by rewrite Hb, Hw.
    + intros s Hs. rewrite Hw in Hs. rewrite Hb.
      destruct (Hptr s Hs) as (? & ? & ? & ?). repeat split; [done|lia|lia|done].
    + intros s1 s2. rewrite Hw. apply Hdist.
  - destruct (startSession_accepted desc st st' Hstart)
      as (s & p1 & p2 & b & Hnone & Hcl & Hbk & Hfresh & Hlt & Hm & Hb & Hrun & Hw & _
          & Hp1 & Hp2 & _).
    assert (Hold : ∀ s', s' ∈ watchers st → s' ≠ s
                         ∧ backend s' ≠ backend s ∧ relays s' ## relays s).
    { intros s' Hs'. destruct (Hptr s' Hs') as (Hb' & Hr1 & Hr2 & _).
      assert (backend s' ≠ backend s) by lia.
      split; [by intros ->|]. split; [done|].
      intros l [->| ->]%elem_of_relays [Heq|Heq]%elem_of_relays; lia. }
    split; [by apply Hown'|]. split; [|split].
    + intros k s0 Hk. rewrite Hm in Hk.
      apply lookup_insert_Some in Hk as [[<- <-]|[Hkne Hk]].
      * split; [done|]. split.
        -- exists b. rewrite Hb, Hbk. by rewrite lookup_app_r, Nat.sub_diag.
        -- rewrite Hw. apply elem_of_app. right. by left.
      * destruct (Hmap k s0 Hk) as (Hcl0 & (b0 & Hb0 & Hrun0) & Hws0).
        split; [done|]. split.
        -- exists b0. rewrite Hb. by rewrite lookup_app_l by (by eapply lookup_lt_Some).
        -- rewrite Hw. apply elem_of_app. by left.
    + intros s0 Hs0. rewrite Hw in Hs0. rewrite Hb, length_app. simpl.
      apply elem_of_app in Hs0 as [Hs0|Hs0].
      * destruct (Hptr s0 Hs0) as (? & ? & ? & ?). repeat split; [lia|lia|lia|done].
      * apply list_elem_of_singleton in Hs0 as ->.
        apply lookup_lt_Some in Hp1, Hp2. repeat split; [lia|done|done|lia].
    + intros s1 s2 Hs1 Hs2 Hne. rewrite Hw in Hs1, Hs2.
      apply elem_of_app in Hs1 as [Hs1|Hs1], Hs2 as [Hs2|Hs2].
      * by apply Hdist.
      * apply list_elem_of_singleton in Hs2 as ->.
        destruct (Hold s1 Hs1) as (_ & ? & ?). done.
      * apply list_elem_of_singleton in Hs1 as ->.
        destruct (Hold s2 Hs2) as (_ & ? & Hdisj). split; [done|].
        intros l Hin1 Hin2. by apply (Hdisj l).
      * apply list_elem_of_singleton in Hs1 as ->.
        apply list_elem_of_singleton in Hs2 as ->. done.
Qed.

Lemma relays_open_startSession desc st st' r :
  relays_open st → startSession env cfg desc st = Some (st', r) → relays_open st'.
Proof.
  intros Hopen Hstart.
  destruct (startSession_keeps_relays desc st st' r Hstart)
    as (_ & Hkeep & Hsub & _).
  assert (Hlive : ∀ l, live l (world st) → live l (world st')).
  { intros l Hl. eapply live_mono; [done| |done]. intros p. apply Hkeep. }
  destruct r as [e|].
  - destruct (startSession_refused desc st st' e Hstart) as (Hm & _).
    intros k s Hk. rewrite Hm in Hk. destruct (Hopen k s Hk). split; by apply Hlive.
  - destruct (startSession_accepted desc st st' Hstart)
      as (s & p1 & p2 & b & _ & _ & _ & _ & _ & Hm & _ & _ & _ & _
          & _ & _ & _ & _ & _ & Hl1 & Hl2).
    intros k s0 Hk. rewrite Hm in Hk.
    apply lookup_insert_Some in Hk as [[<- <-]|[Hkne Hk]]; [done|].
    destruct (Hopen k s0 Hk). split; by apply Hlive.
Qed.

Lemma stopSession_effect desc st :
  consistent st →
  ∃ st' r,
    stopSession desc st = Some (st', r)
    ∧ consistent st'
    ∧ watchers st' = watchers st
    ∧ match sessions st !! JoinHostPort (StopReceiverHost desc) (Itoa (StopPort desc)) with
      | None =>
        st' = st
        ∧ r = Some (session_not_found_error
                      (JoinHostPort (StopReceiverHost desc) (Itoa (StopPort desc))))
      | Some s =>
        r = None
        ∧ cleanupSession s st = Some st'
        ∧ sessions st'
          = delete (JoinHostPort (StopReceiverHost desc) (Itoa (StopPort desc)))
              (sessions st)
      end.
Proof.
  intros Hcons. unfold stopSession.
  destruct (sessions st !! _) as [s|] eqn:Hk; [|by eexists _, _].
  destruct Hcons as (Hown & Hmap & Hrest).
  destruct (Hmap _ s Hk) as (Hcl & _ & Hw).
  destruct (consistent_cleanup s st (conj Hown (conj Hmap Hrest)) Hw)
    as (st' & Hc & Hcons' & Hws & Hm).
  rewrite Hc. simpl. exists st', None. rewrite Hcl in Hm. done.
Qed.

Lemma relays_open_stopSession desc st st' r :
  consistent st → relays_open st → stopSession desc st = Some (st', r) →
  relays_open st'.
Proof.
  intros Hcons Hopen. unfold stopSession.
  destruct (sessions st !! _) as [s|] eqn:Hk;
    [|intros Hret; by inversion Hret; subst].
  destruct (cleanupSession s st) as [st1|] eqn:Hc; [|done].
  simpl. intros Hret. inversion Hret; subst; clear Hret.
  pose proof Hcons as (_ & Hmap & _).
  destruct (Hmap _ s Hk) as (_ & _ & Hw).
  exact (relays_open_cleanup s st st' Hcons Hopen Hw Hc).
Qed.

Lemma consistent_relay_failed l err st st' :
  consistent st → relay_failed l err st = Some st' → consistent st'.
Proof.
  intros (Hown & Hmap & Hptr & Hdist). unfold relay_failed.
  destruct (doclose l (Some err) (world st)) as [w'|] eqn:Hc; [|done].
  simpl. intros Hret. inversion Hret; subst; clear Hret.
  destruct (AllocFacts.doclose_frame l (Some err) (world st) w' Hc) as (_ & Hlen & _).
  split; [by eapply AllocFacts.owned_doclose|]. split; [done|]. split; [|done].
  intros s Hs. simpl. rewrite Hlen. by apply Hptr.
Qed.

(** The traffic of the workers changes the channel of their relay and
    nothing else. *)
Lemma traffic_relay l n w p l' p' :
  proxies w !! l = Some p →
  proxies (store_proxy l (Forward.set_packets n p) w) !! l' = Some p' →
  ∃ p0 m, proxies w !! l' = Some p0 ∧ p' = Forward.set_packets m p0.
Proof.
  intros Hp Hp'. simpl in Hp'.
  apply list_lookup_insert_Some in Hp' as [(<- & <- & _)|[Hne Hp']].
  - by exists p, n.
  - exists p', (packets p'). split; [done|]. by destruct p'.
Qed.

Lemma traffic_relay_back l n w p l' p0 :
  proxies w !! l = Some p → proxies w !! l' = Some p0 →
  ∃ m, proxies (store_proxy l (Forward.set_packets n p) w) !! l'
       = Some (Forward.set_packets m p0).
Proof.
  intros Hp Hp0. simpl. destruct (decide (l' = l)) as [->|Hne].
  - exists n. rewrite Hp in Hp0. inversion Hp0; subst p0.
    apply list_lookup_insert_eq. by eapply lookup_lt_Some.
  - exists (packets p0). rewrite list_lookup_insert_ne by done.
    rewrite Hp0. by destruct p0.
Qed.

Lemma live_traffic l n w p l' :
  proxies w !! l = Some p →
  live l' w ↔ live l' (store_proxy l (Forward.set_packets n p) w).
Proof.
  intros Hp. split.
  - intros (p0 & Hp0 & Hd & Hc & Hch & Hne & Hls & Hts).
    destruct (traffic_relay_back l n w p l' p0 Hp Hp0) as [m Hm].
    exists (Forward.set_packets m p0). split; [exact Hm|]. simpl.
    split; [done|]. split; [done|]. split; [done|]. split; [done|]. by split.
  - intros (p' & Hp' & Hd & Hc & Hch & Hne & Hls & Hts).
    destruct (traffic_relay l n w p l' p' Hp Hp') as (p0 & m & Hp0 & ->).
    simpl in *. exists p0.
    split; [done|]. split; [done|]. split; [done|]. split; [done|].
    split; [done|]. by split.
Qed.

Lemma owned_traffic l n w p :
  proxies w !! l = Some p →
  Alloc.owned w → Alloc.owned (store_proxy l (Forward.set_packets n p) w).
Proof.
  intros Hp (Hlive & Hown & Huniq & Hclosed). split; [|split; [|split]].
  - intros l' p' Hp' Hd.
    destruct (traffic_relay l n w p l' p' Hp Hp') as (p0 & m & Hp0 & ->).
    simpl in Hd. apply (live_traffic l n w p l' Hp). by eapply Hlive.
  - intros fd Hfd. simpl in Hfd.
    destruct (Hown fd Hfd) as (l0 & p0 & Hp0 & Hd0 & Hin).
    destruct (traffic_relay_back l n w p l0 p0 Hp Hp0) as [m Hm].
    exists l0, (Forward.set_packets m p0). split; [exact Hm|]. by split.
  - intros l0 l1 p0' p1' fd Hp0' Hp1' Hd0 Hd1 Hin0 Hin1.
    destruct (traffic_relay l n w p l0 p0' Hp Hp0') as (p0 & m0 & Hp0 & ->).
    destruct (traffic_relay l n w p l1 p1' Hp Hp1') as (p1 & m1 & Hp1 & ->).
    by eapply (Huniq l0 l1 p0 p1 fd).
  - intros l' p' Hp' Hd.
    destruct (traffic_relay l n w p l' p' Hp Hp') as (p0 & m & Hp0 & ->).
    simpl in *. by eapply Hclosed.
Qed.

Lemma consistent_relay_traffic l n st st' :
  consistent st → relay_traffic l n st = Some st' → consistent st'.
Proof.
  intros (Hown & Hmap & Hptr & Hdist). unfold relay_traffic.
  destruct (proxies (world st) !! l) as [p|] eqn:Hp; [|done]. simpl.
  destruct (decide (n ≤ buf_packets)%nat); [|done].
  intros Hret. inversion Hret; subst; clear Hret.
  split; [by apply owned_traffic|]. split; [done|]. split; [|done].
  intros s Hs. simpl. rewrite length_insert. by apply Hptr.
Qed.

Lemma relays_open_relay_traffic l n st st' :
  relays_open st → relay_traffic l n st = Some st' → relays_open st'.
Proof.
  intros Hopen. unfold relay_traffic.
  destruct (proxies (world st) !! l) as [p|] eqn:Hp; [|done]. simpl.
  destruct (decide (n ≤ buf_packets)%nat); [|done].
  intros Hret. inversion Hret; subst; clear Hret.
  intros k s Hk. simpl in Hk. destruct (Hopen k s Hk) as [Hl1 Hl2]. simpl.
  split; by apply (live_traffic l n (world st) p _ Hp).
Qed.

(** In a consistent state a relay of a watched session is open or has
    been shut down. *)
Lemma relay_open_or_shut s l st :
  consistent st → s ∈ watchers st → l ∈ relays s →
  live l (world st) ∨ shut_down l (world st).
Proof.
  intros ((Hlive & _ & _ & Hclosed) & _ & Hptr & _) Hs Hl.
  destruct (Hptr s Hs) as (_ & Hrtp & Hrtcp & _).
  assert (Hlt : (l < length (proxies (world st)))%nat)
    by (by apply elem_of_relays in Hl as [->| ->]).
  destruct (lookup_lt_is_Some_2 _ _ Hlt) as [p Hp].
  destruct (closeOnce p) eqn:Hd.
  - right. exists p. split; [done|]. split; [done|]. by eapply Hclosed.
  - left. by eapply Hlive.
Qed.

Lemma backend_stopped_cleanup s s0 st st' b :
  backends st !! backend s = Some b →
  backends st' = <[backend s := RtspClient_Stop b]> (backends st) →
  (s0 = s ∨ backend_stopped s0 st) → backend_stopped s0 st'.
Proof.
  intros Hb Hbs Hs0. unfold backend_stopped. rewrite Hbs.
  destruct (decide (backend s0 = backend s)) as [Heq|Hne].
  - exists (RtspClient_Stop b). rewrite Heq.
    by rewrite list_lookup_insert_eq by (by eapply lookup_lt_Some).
  - destruct Hs0 as [->|(b0 & Hb0 & Hst)]; [done|].
    exists b0. by rewrite list_lookup_insert_ne.
Qed.

(** [StopServer] on keys that are all in the map, each once. *)
Lemma StopServer_range_effect keys :
  ∀ st,
    consistent st → NoDup keys →
    (∀ k, k ∈ keys → is_Some (sessions st !! k)) →
    ∃ st',
      StopServer_range keys st = Some st'
      ∧ consistent st'
      ∧ watchers st' = watchers st
      ∧ hook_calls st' = hook_calls st
      ∧ (∀ k, sessions st' !! k = if decide (k ∈ keys) then None else sessions st !! k)
      ∧ (∀ k s l, k ∈ keys → sessions st !! k = Some s → l ∈ relays s →
           shut_down l (world st')
           ∧ (live l (world st) → closed l (world st')))
      ∧ (∀ k s, k ∈ keys → sessions st !! k = Some s → backend_stopped s st')
      ∧ (∀ l, closed l (world st) → closed l (world st'))
      ∧ (∀ l, shut_down l (world st) → shut_down l (world st'))
      ∧ (∀ s, backend_stopped s st → backend_stopped s st').
Proof.
  induction keys as [|k keys IH]; intros st Hcons Hnd Hin.
  { exists st. split; [done|]. split; [done|]. split; [done|]. split; [done|].
    split; [done|]. split; [intros k s l Hk; by apply elem_of_nil in Hk|].
    split; [intros k s Hk; by apply elem_of_nil in Hk|]. done. }
  apply NoDup_cons in Hnd as [Hk Hnd].
  destruct (Hin k) as [s Hs]; [by left|].
  simpl. rewrite Hs.
  pose proof Hcons as (Hown & Hmap & Hptr & Hdist).
  destruct (Hmap k s Hs) as (Hcl & _ & Hw).
  destruct (Hptr s Hw) as (Hb & Hrtp & Hrtcp & Hne).
  destruct (cleanupSession_effect s st Hown Hb Hrtp Hrtcp)
    as (st1 & b & Hc & Hbl & Hbs & Hm & Hws & Hhk & Hown1 & _ & _ & _ & Hlive1
        & Hclosed & Hshut1 & Hshut & _).
  destruct (consistent_cleanup s st Hcons Hw) as (st1' & Hc' & Hcons1 & _).
  rewrite Hc in Hc'. inversion Hc'; subst st1'; clear Hc'.
  rewrite Hc. simpl. rewrite Hcl in Hm.
  destruct (IH st1 Hcons1 Hnd)
    as (st' & Hrun & Hcons' & Hws' & Hhk' & Hlook & Hrel & Hstop & Hclosed'
        & Hshut' & Hstopped').
  { intros k' Hk'. rewrite Hm. rewrite lookup_delete_ne by (intros ->; done).
    apply Hin. by right. }
  assert (Hshutmono : ∀ l, shut_down l (world st) → shut_down l (world st1)).
  { intros l (p & Hp & Hd & Hcd).
    destruct (decide (l ∈ relays s)) as [Hl|Hl].
    - destruct (Hshut1 l Hl) as (p' & Hp' & Hd'). exists p'.
      split; [done|]. split; [done|].
      destruct Hown1 as (_ & _ & _ & Hc1). by eapply Hc1.
    - exists p. split; [|done].
      destruct (cleanupSession_effect s st Hown Hb Hrtp Hrtcp)
        as (st1' & b' & Hc' & _ & _ & _ & _ & _ & _ & _ & _ & Hkeep & _).
      rewrite Hc in Hc'. inversion Hc'; subst st1'. by apply Hkeep. }
  exists st'. split; [done|]. split; [done|]. split; [congruence|].
  split; [congruence|]. split; [|split; [|split; [|split; [|split]]]].
  - intros k0. rewrite Hlook, Hm.
    destruct (decide (k0 = k)) as [->|Hne0].
    + destruct (decide (k ∈ k :: keys)) as [_|Hn]; [|exfalso; apply Hn; by left].
      destruct (decide (k ∈ keys)); [done|]. by rewrite lookup_delete_eq.
    + rewrite lookup_delete_ne by done.
      destruct (decide (k0 ∈ keys)) as [Hi|Hni];
        destruct (decide (k0 ∈ k :: keys)) as [Hi'|Hni']; try done.
      * exfalso. apply Hni'. by right.
      * apply elem_of_cons in Hi' as [?|?]; done.
  - intros k0 s0 l [->|Hk0]%elem_of_cons Hs0 Hl.
    + rewrite Hs in Hs0. inversion Hs0; subst s0. split.
      * apply Hshut'. destruct (Hshut1 l Hl) as (p' & Hp' & Hd'). exists p'.
        split; [done|]. split; [done|].
        destruct Hown1 as (_ & _ & _ & Hc1). by eapply Hc1.
      * intros Hlv. apply Hclosed'.
        destruct (decide (l = rtpProxy s)) as [->|Hn1].
        -- destruct (Close_owned (rtpProxy s) (world st) Hown Hrtp)
             as (w1 & q1 & Hc1 & Hown1' & Hlen1 & _ & _ & _ & Hcl1 & _ & _ & Hsh1 & _).
           rewrite <- Hlen1 in Hrtcp.
           destruct (Close_owned (rtcpProxy s) w1 Hown1' Hrtcp)
             as (w2 & q2 & Hc2 & _ & _ & _ & _ & _ & Hcl2 & _).
           unfold cleanupSession in Hc. rewrite Hbl in Hc. simpl in Hc.
           rewrite Hc1 in Hc. simpl in Hc. rewrite Hc2 in Hc. simpl in Hc.
           inversion Hc; subst st1. simpl. by apply Hcl2, Hsh1.
        -- assert (l = rtcpProxy s) as -> by (apply elem_of_relays in Hl; tauto).
           destruct (Close_owned (rtpProxy s) (world st) Hown Hrtp)
             as (w1 & q1 & Hc1 & Hown1' & Hlen1 & _ & _ & Hlv1 & _).
           rewrite <- Hlen1 in Hrtcp.
           destruct (Close_owned (rtcpProxy s) w1 Hown1' Hrtcp)
             as (w2 & q2 & Hc2 & _ & _ & _ & _ & _ & _ & _ & _ & Hsh2 & _).
           unfold cleanupSession in Hc. rewrite Hbl in Hc. simpl in Hc.
           rewrite Hc1 in Hc. simpl in Hc. rewrite Hc2 in Hc. simpl in Hc.
           inversion Hc; subst st1. simpl. apply Hsh2, Hlv1; done.
    + destruct (Hrel k0 s0 l Hk0) as [Hsd Hcd]; [|done|].
      { rewrite Hm. rewrite lookup_delete_ne by (intros ->; done). done. }
      split; [done|]. intros Hlv. apply Hcd.
      apply Hlive1; [|done].
      destruct (Hmap k0 s0 Hs0) as (Hcl0 & _ & Hw0).
      assert (Hss : s0 ≠ s) by (intros ->; rewrite Hcl in Hcl0; by subst k0).
      destruct (Hdist s0 s Hw0 Hw Hss) as [_ Hdisj].
      intros Hin'. by apply (Hdisj l).
  - intros k0 s0 [->|Hk0]%elem_of_cons Hs0.
    + rewrite Hs in Hs0. inversion Hs0; subst s0.
      apply Hstopped'. eapply backend_stopped_cleanup; [done|done|by left].
    + apply (Hstop k0 s0 Hk0). rewrite Hm.
      rewrite lookup_delete_ne by (intros ->; done). done.
  - intros l Hl. by apply Hclosed', Hclosed.
  - intros l Hl. by apply Hshut', Hshutmono.
  - intros s0 Hs0. apply Hstopped'.
    eapply backend_stopped_cleanup; [done|done|by right].
Qed.

Lemma StopServer_range_returns keys :
  ∀ st, consistent st → ∃ st', StopServer_range keys st = Some st' ∧ consistent st'.
Proof.
  induction keys as [|k keys IH]; intros st Hcons; [by exists st|].
  simpl. destruct (sessions st !! k) as [s|] eqn:Hs; [|by apply IH].
  pose proof Hcons as (_ & Hmap & _).
  destruct (Hmap k s Hs) as (_ & _ & Hw).
  destruct (consistent_cleanup s st Hcons Hw) as (st1 & -> & Hcons1 & _).
  simpl. by apply IH.
Qed.

End WithEnv.

(** ** Requests and runs *)

Section WithCodes.

Variable env : AmpEnv.
Variable cfg : Config.
Variable CodeStartSession CodeStopSession : Z.
Variable fmt_code : Z → string.
Variable fmt_val : Value → string.

Lemma HandleRequest_effect request st :
  consistent st →
  ∃ st' call, HandleRequest env cfg CodeStartSession CodeStopSession fmt_code fmt_val request st = Some (st', call) ∧ consistent st'.
Proof.
  intros Hcons. unfold HandleRequest.
  destruct (decide (Code request = CodeStartSession)).
  - destruct (Packet_StartSession request) as [desc|]; [|by eexists _, _].
    destruct (AmpFacts.startSession_returns env cfg desc st) as (st' & r & Hstart).
    rewrite Hstart. simpl. eexists _, _. split; [done|].
    by eapply consistent_startSession.
  - destruct (decide (Code request = CodeStopSession)); [|by eexists _, _].
    destruct (Packet_StopSession request) as [desc|]; [|by eexists _, _].
    destruct (stopSession_effect desc st Hcons) as (st' & r & -> & Hcons' & _).
    simpl. by eexists _, _.
Qed.

Lemma consistent_event_step ev st st' calls :
  consistent st →
  event_step env cfg CodeStartSession CodeStopSession fmt_code fmt_val ev st
  = Some (st', calls) →
  consistent st'.
Proof.
  intros Hcons Hstep. destruct ev as [request|s|l err|l n]; simpl in Hstep.
  - destruct (HandleRequest_effect request st Hcons) as (st1' & call & Hh & Hcons1).
    rewrite Hh in Hstep. simpl in Hstep. by inversion Hstep; subst.
  - destruct (backend_ended cfg s st) as [st1'|] eqn:Hend; [|done].
    simpl in Hstep. inversion Hstep; subst.
    by eapply consistent_backend_ended.
  - destruct (relay_failed l err st) as [st1'|] eqn:Hfail; [|done].
    simpl in Hstep. inversion Hstep; subst.
    by eapply consistent_relay_failed.
  - destruct (relay_traffic l n st) as [st1'|] eqn:Htraffic; [|done].
    simpl in Hstep. inversion Hstep; subst.
    by eapply consistent_relay_traffic.
Qed.

Lemma relays_open_event_step ev st st' calls :
  (∀ l err, ev ≠ EvRelayFailed l err) →
  consistent st → relays_open st →
  event_step env cfg CodeStartSession CodeStopSession fmt_code fmt_val ev st
  = Some (st', calls) →
  relays_open st'.
Proof.
  intros Hquiet Hcons Hopen Hstep.
  destruct ev as [request|s|l err|l n]; simpl in Hstep;
    [| |by destruct (Hquiet l err)|].
  - unfold HandleRequest in Hstep.
    destruct (decide (Code request = CodeStartSession)).
    + destruct (Packet_StartSession request) as [desc|];
        [|by inversion Hstep; subst].
      destruct (startSession env cfg desc st) as [[st1 r]|] eqn:Hstart; [|done].
      simpl in Hstep. inversion Hstep; subst.
      by eapply relays_open_startSession.
    + destruct (decide (Code request = CodeStopSession));
        [|by inversion Hstep; subst].
      destruct (Packet_StopSession request) as [desc|];
        [|by inversion Hstep; subst].
      destruct (stopSession desc st) as [[st1 r]|] eqn:Hstop; [|done].
      simpl in Hstep. inversion Hstep; subst.
      by eapply relays_open_stopSession.
  - destruct (backend_ended cfg s st) as [st1'|] eqn:Hend; [|done].
    simpl in Hstep. inversion Hstep; subst.
    by eapply relays_open_backend_ended.
  - destruct (relay_traffic l n st) as [st1'|] eqn:Htraffic; [|done].
    simpl in Hstep. inversion Hstep; subst.
    by eapply relays_open_relay_traffic.
Qed.

Lemma consistent_run_events evs :
  ∀ st st' calls,
    consistent st → run_events env cfg CodeStartSession CodeStopSession fmt_code fmt_val evs st = Some (st', calls) → consistent st'.
Proof.
  induction evs as [|ev evs IH]; intros st st' calls Hcons Hrun.
  { by inversion Hrun; subst. }
  simpl in Hrun.
  destruct (event_step _ _ _ _ _ _ ev st) as [[st1 calls1]|] eqn:Hstep; [|done].
  simpl in Hrun.
  destruct (run_events env cfg CodeStartSession CodeStopSession fmt_code fmt_val evs st1) as [[st2 calls2]|] eqn:Hrest; [|done].
  simpl in Hrun. inversion Hrun; subst; clear Hrun.
  eapply IH; [|done]. by eapply consistent_event_step.
Qed.

Lemma relays_open_run_events evs :
  ∀ st st' calls,
    workers_quiet evs →
    consistent st → relays_open st →
    run_events env cfg CodeStartSession CodeStopSession fmt_code fmt_val evs st = Some (st', calls) → relays_open st'.
Proof.
  induction evs as [|ev evs IH]; intros st st' calls Hquiet Hcons Hopen Hrun.
  { by inversion Hrun; subst. }
  simpl in Hrun.
  destruct (event_step _ _ _ _ _ _ ev st) as [[st1 calls1]|] eqn:Hstep; [|done].
  simpl in Hrun.
  destruct (run_events env cfg CodeStartSession CodeStopSession fmt_code fmt_val evs st1) as [[st2 calls2]|] eqn:Hrest; [|done].
  simpl in Hrun. inversion Hrun; subst; clear Hrun.
  eapply (IH st1); [| | |done].
  - intros l err Hin. apply (Hquiet l err). by right.
  - by eapply consistent_event_step.
  - eapply relays_open_event_step; [|done|done|done].
    intros l err ->. apply (Hquiet l err). by left.
Qed.

Lemma reachable_consistent evs st calls :
  run_events env cfg CodeStartSession CodeStopSession fmt_code fmt_val evs empty_state = Some (st, calls) → consistent st.
Proof. apply consistent_run_events, consistent_empty. Qed.

Lemma reachable_relays_open evs st calls :
  workers_quiet evs →
  run_events env cfg CodeStartSession CodeStopSession fmt_code fmt_val evs empty_state = Some (st, calls) → relays_open st.
Proof.
  intros Hquiet. apply relays_open_run_events; [done|apply consistent_empty|].
  intros k s Hk. simpl in Hk. by apply lookup_empty_Some in Hk.
Qed.

Lemma accepted_cons which request call log :
  accepted which ((request, call) :: log)
  = ((if which request && replied_nil call then 1 else 0) + accepted which log)%nat.
Proof.
  unfold accepted. rewrite filter_cons. simpl.
  destruct (decide (which request && replied_nil call = true)) as [Heq|Hne].
  - by rewrite Heq.
  - by destruct (which request && replied_nil call).
Qed.

(** How one request changes the number of sessions. *)
Lemma HandleRequest_count request st st' call :
  consistent st →
  HandleRequest env cfg CodeStartSession CodeStopSession fmt_code fmt_val request st = Some (st', call) →
  (size (sessions st')
   + (if is_stop CodeStartSession CodeStopSession request && replied_nil call
      then 1 else 0)
   = size (sessions st)
     + (if is_start CodeStartSession request && replied_nil call then 1 else 0))%nat.
Proof.
  intros Hcons. unfold HandleRequest, is_stop, is_start.
  destruct (decide (Code request = CodeStartSession)) as [Hc|Hc].
  - rewrite (bool_decide_eq_true_2 _ Hc). simpl.
    destruct (Packet_StartSession request) as [desc|];
      [|intros Hret; inversion Hret; subst; simpl; lia].
    destruct (startSession env cfg desc st) as [[st1 r]|] eqn:Hstart; [|done].
    simpl. intros Hret. inversion Hret; subst; clear Hret.
    destruct r as [e|]; simpl.
    + destruct (startSession_refused env cfg desc st st' e Hstart) as (-> & _). lia.
    + destruct (startSession_accepted env cfg desc st st' Hstart)
        as (s & p1 & p2 & b & Hnone & _ & _ & _ & _ & -> & _).
      rewrite map_size_insert_None by done. lia.
  - rewrite (bool_decide_eq_false_2 _ Hc). simpl.
    destruct (decide (Code request = CodeStopSession)) as [Hc'|Hc'];
      [|rewrite (bool_decide_eq_false_2 _ Hc');
        intros Hret; inversion Hret; subst; simpl; lia].
    rewrite (bool_decide_eq_true_2 _ Hc'). simpl.
    destruct (Packet_StopSession request) as [desc|];
      [|intros Hret; inversion Hret; subst; simpl; lia].
    destruct (stopSession_effect desc st Hcons) as (st1 & r & Hstop & _ & _ & Hcase).
    rewrite Hstop. simpl. intros Hret. inversion Hret; subst; clear Hret.
    destruct (sessions st !! _) as [s|] eqn:Hk.
    + destruct Hcase as (-> & _ & ->). simpl.
      rewrite map_size_delete, Hk.
      assert (size (sessions st) ≠ 0%nat).
      { intros Hz%map_size_empty_iff. rewrite Hz in Hk.
        by apply lookup_empty_Some in Hk. }
      simpl. lia.
    + destruct Hcase as (-> & ->). simpl. lia.
Qed.

Lemma handle_all_count requests :
  ∀ st st' log,
    consistent st →
    handle_all env cfg CodeStartSession CodeStopSession fmt_code fmt_val requests st = Some (st', log) →
    (size (sessions st') + accepted (is_stop CodeStartSession CodeStopSession) log
     = size (sessions st) + accepted (is_start CodeStartSession) log)%nat.
Proof.
  induction requests as [|request requests IH]; intros st st' log Hcons Hrun.
  { inversion Hrun; subst. done. }
  simpl in Hrun.
  destruct (HandleRequest env cfg CodeStartSession CodeStopSession fmt_code fmt_val request st) as [[st1 call]|] eqn:Hh; [|done].
  simpl in Hrun.
  destruct (handle_all env cfg CodeStartSession CodeStopSession fmt_code fmt_val requests st1) as [[st2 log']|] eqn:Hrest; [|done].
  simpl in Hrun. inversion Hrun; subst; clear Hrun.
  destruct (HandleRequest_effect request st Hcons) as (st1' & call' & Hh' & Hcons1).
  rewrite Hh in Hh'. inversion Hh'; subst st1' call'; clear Hh'.
  pose proof (HandleRequest_count request st st1 call Hcons Hh) as Hone.
  pose proof (IH st1 st' log' Hcons1 Hrest) as Hall.
  rewrite !accepted_cons. lia.
Qed.

End WithCodes.

(** ** The properties *)

(** X11.  Whatever requests the proxy has handled, whichever of its
    watcher goroutines have resumed, whatever the workers of its relays
    have forwarded and whichever of them have failed since it was
    created: every session in its map is filed under its own client
    key, its backend client has not been stopped and a goroutine waits
    for the backend to end, and sessions filed under different keys
    share neither a backend nor a relay.  Each
    relay of such a session is open, with its sockets in the table, or
    has been shut down by a worker whose socket failed; the failure of a
    relay changes neither the map nor the backends nor the waiting
    goroutines, so that the session stays registered with a relay that
    no longer forwards.  As long as no worker has failed, both relays of
    every session in the map are open. *)
Theorem map_sessions_stay_registered env cfg CodeStartSession CodeStopSession
    fmt_code fmt_val evs st calls :
  run_events env cfg CodeStartSession CodeStopSession fmt_code fmt_val
    evs empty_state = Some (st, calls) →
  (∀ k s, sessions st !! k = Some s →
     client s = k ∧ backend_running s st ∧ s ∈ watchers st
     ∧ ∀ l, l ∈ relays s → live l (world st) ∨ shut_down l (world st))
  ∧ (∀ k k' s s',
       sessions st !! k = Some s → sessions st !! k' = Some s' → k ≠ k' →
       backend s ≠ backend s' ∧ relays s ## relays s')
  ∧ (∀ l err st',
       relay_failed l err st = Some st' →
       sessions st' = sessions st ∧ backends st' = backends st
       ∧ watchers st' = watchers st ∧ shut_down l (world st'))
  ∧ (workers_quiet evs → ∀ k s, sessions st !! k = Some s → served s st).
Proof.
  intros Hrun. pose proof (reachable_consistent _ _ _ _ _ _ _ _ _ Hrun) as Hcons.
  pose proof Hcons as (Hown & Hmap & Hptr & Hdist).
  split; [|split; [|split]].
  - intros k s Hk. destruct (Hmap k s Hk) as (Hcl & Hb & Hw).
    split; [done|]. split; [done|]. split; [done|].
    intros l Hl. by eapply relay_open_or_shut.
  - intros k k' s s' Hk Hk' Hne.
    destruct (Hmap k s Hk) as (Hcl & _ & Hw).
    destruct (Hmap k' s' Hk') as (Hcl' & _ & Hw').
    apply Hdist; [done|done|]. intros ->. congruence.
  - intros l err st' Hfail. unfold relay_failed in Hfail.
    destruct (doclose l (Some err) (world st)) as [w'|] eqn:Hc; [|done].
    simpl in Hfail. inversion Hfail; subst; clear Hfail. simpl.
    split; [done|]. split; [done|]. split; [done|].
    pose proof (AllocFacts.owned_doclose l (Some err) (world st) w' Hown Hc)
      as (_ & _ & _ & Hclosed').
    destruct (proxies (world st) !! l) as [p|] eqn:Hp;
      [|unfold doclose, closeOnce_Do in Hc; by rewrite Hp in Hc].
    destruct (closeOnce p) eqn:Hd.
    + rewrite (UdpFacts.doclose_again l (Some err) (world st) p Hp Hd) in Hc.
      inversion Hc; subst w'. exists p. split; [done|]. split; [done|].
      by eapply Hclosed'.
    + destruct Hown as (Hlive & _).
      destruct (Hlive l p Hp Hd) as (p0 & Hp0 & _ & _ & Hch & _).
      rewrite Hp in Hp0. inversion Hp0; subst p0.
      rewrite (UdpFacts.doclose_first l (Some err) (world st) p Hp Hd Hch) in Hc.
      inversion Hc; subst w'. exists (shut (Some err) p). simpl.
      split; [|done]. apply list_lookup_insert_eq. by eapply lookup_lt_Some.
  - intros Hquiet k s Hk.
    pose proof (reachable_relays_open _ _ _ _ _ _ _ _ _ Hquiet Hrun) as Hopen.
    destruct (Hmap k s Hk) as (_ & Hb & Hw). destruct (Hopen k s Hk) as [Hl1 Hl2].
    done.
Qed.

Lemma map_sessions_stay_registered_witness :
  TestAmp.run [EvRequest TestAmp.start_packet;
               EvRelayTraffic 0 1;
               EvRelayFailed 0 "write udp: connection refused"] empty_state
  = Some (TestAmp.relay_lost, [ReplyCheck None])
  ∧ sessions TestAmp.relay_lost !! "127.0.0.1:6000" = Some TestNet.session0
  ∧ backend_running TestNet.session0 TestAmp.relay_lost
  ∧ TestNet.session0 ∈ watchers TestAmp.relay_lost
  ∧ (∀ l, l ∈ relays TestNet.session0 →
          live l (world TestAmp.relay_lost) ∨ shut_down l (world TestAmp.relay_lost))
  ∧ ¬ live 0 (world TestAmp.relay_lost).
Proof.
  assert (Hrun : TestAmp.run [EvRequest TestAmp.start_packet;
                              EvRelayTraffic 0 1;
                              EvRelayFailed 0 "write udp: connection refused"]
                   empty_state
                 = Some (TestAmp.relay_lost, [ReplyCheck None]))
    by (vm_compute; reflexivity).
  assert (Hk : sessions TestAmp.relay_lost !! "127.0.0.1:6000" = Some TestNet.session0)
    by (vm_compute; reflexivity).
  split; [exact Hrun|]. split; [exact Hk|].
  destruct (map_sessions_stay_registered _ _ _ _ _ _ _ _ _ Hrun) as (Hmap & _).
  destruct (Hmap _ _ Hk) as (_ & Hb & Hw & Hrel).
  split; [exact Hb|]. split; [exact Hw|]. split; [exact Hrel|].
  intros (p & Hp & Hd & _). vm_compute in Hp. inversion Hp; subst p. discriminate.
Defined.

(** X12.  A stop request undoes a start request.  When [startSession]
    has accepted a client, [stopSession] for the same host and port
    returns nil; the map and the socket table are then as they were
    before the start, both relays of the session are shut, and its
    backend client has been stopped.  The goroutine that [observe] has
    started for the session is still waiting. *)
Theorem stop_undoes_start env cfg desc st st1 :
  startSession env cfg desc st = Some (st1, None) →
  ∃ s st2,
    sessions st1 !! JoinHostPort (ReceiverHost desc) (Itoa (Port_ desc)) = Some s
    ∧ stopSession (mkStopSession (ReceiverHost desc) (Port_ desc)) st1
      = Some (st2, None)
    ∧ sessions st2 = sessions st
    ∧ socks (world st2) = socks (world st)
    ∧ closed (rtpProxy s) (world st2) ∧ closed (rtcpProxy s) (world st2)
    ∧ backend_stopped s st2
    ∧ watchers st2 = watchers st ++ [s].
Proof.
  intros Hstart.
  destruct (startSession_accepted env cfg desc st st1 Hstart)
    as (s & p1 & p2 & b & Hnone & Hcl & Hbk & _ & Hlt & Hm & Hb & _ & Hw & _
        & Hp1 & Hp2 & Hsocks & Hnd & Hfresh & Hl1 & Hl2).
  assert (Hne : rtpProxy s ≠ rtcpProxy s) by lia.
  apply NoDup_cons in Hnd as [Hn1 Hnd]. apply NoDup_cons in Hnd as [Hn2 Hnd].
  apply NoDup_cons in Hnd as [Hn3 _].
  rewrite !not_elem_of_cons in Hn1. rewrite !not_elem_of_cons in Hn2.
  rewrite !not_elem_of_cons in Hn3.
  destruct Hn1 as (? & ? & ? & _), Hn2 as (? & ? & _), Hn3 as (? & _).
  destruct (UdpFacts.Close_live _ _ Hl1) as (w2 & q1 & Hc1 & Hq1 & Hss2 & Hps2 & Hcl1).
  rewrite Hp1 in Hq1. inversion Hq1; subst q1; clear Hq1.
  assert (Hl2' : live (rtcpProxy s) w2).
  { destruct Hl2 as (q2 & Hq2 & Hd & Hc & Hch & Hne2 & Hls & Hts).
    rewrite Hp2 in Hq2. inversion Hq2; subst q2.
    exists p2. rewrite Hss2, Hps2. repeat split; try done.
    - by rewrite list_lookup_insert_ne.
    - rewrite !lookup_delete_ne by done. done.
    - rewrite !lookup_delete_ne by done. done. }
  destruct (UdpFacts.Close_live _ _ Hl2') as (w3 & q2 & Hc2 & Hq2 & Hss3 & _ & Hcl2).
  assert (q2 = p2) as ->.
  { rewrite Hps2, list_lookup_insert_ne in Hq2 by done. congruence. }
  exists s. eexists.
  split; [rewrite Hm; by apply lookup_insert_eq|].
  unfold stopSession. simpl. rewrite Hm, lookup_insert_eq.
  unfold cleanupSession. rewrite Hb, Hbk, lookup_app_r, Nat.sub_diag by done.
  simpl. rewrite Hc1. simpl. rewrite Hc2. simpl.
  split; [done|]. simpl. rewrite Hm, Hcl.
  split; [by apply delete_insert_id|].
  split.
  { rewrite Hss3, Hss2, Hsocks. unfold four_socks. apply map_eq. intros fd.
    destruct (decide (fd = listenConn p1)) as [->|?];
      [rewrite lookup_delete_ne, lookup_delete_ne, lookup_delete_ne,
         lookup_delete_eq by done; symmetry; apply Hfresh;
       rewrite !elem_of_cons; tauto|].
    destruct (decide (fd = targetConn p1)) as [->|?];
      [rewrite lookup_delete_ne, lookup_delete_ne, lookup_delete_eq by done;
       symmetry; apply Hfresh; rewrite !elem_of_cons; tauto|].
    destruct (decide (fd = listenConn p2)) as [->|?];
      [rewrite lookup_delete_ne, lookup_delete_eq by done;
       symmetry; apply Hfresh; rewrite !elem_of_cons; tauto|].
    destruct (decide (fd = targetConn p2)) as [->|?];
      [rewrite lookup_delete_eq; symmetry; apply Hfresh; rewrite !elem_of_cons; tauto|].
    rewrite !lookup_delete_ne by done. by rewrite !lookup_insert_ne. }
  split; [by eapply closed_doclose|]. split; [done|].
  split; [|done].
  exists (RtspClient_Stop b). rewrite Hbk. split; [|done].
  unfold set_sessions, set_world, set_backends. simpl.
  rewrite list_lookup_insert_eq; [done|]. rewrite length_app. simpl. lia.
Qed.

Lemma stop_undoes_start_witness :
  startSession (TestNet.amp_env [] true) TestNet.cfg TestNet.start_desc empty_state
  = Some (TestNet.started, None)
  ∧ ∃ st2,
      stopSession (mkStopSession "127.0.0.1" 6000) TestNet.started = Some (st2, None)
      ∧ sessions st2 = ∅
      ∧ socks (world st2) = ∅.
Proof.
  assert (Hstart : startSession (TestNet.amp_env [] true) TestNet.cfg
                     TestNet.start_desc empty_state
                   = Some (TestNet.started, None))
    by (vm_compute; reflexivity).
  split; [exact Hstart|].
  destruct (stop_undoes_start _ _ _ _ _ Hstart)
    as (s & st2 & _ & Hstop & Hm & Hss & _).
  exists st2. split; [exact Hstop|]. split; [exact Hm|exact Hss].
Defined.

(** X13.  [StopServer] stops every session.  In whatever order the
    runtime walks the keys of the map, the loop returns with the map
    empty; for every session that was in the map both relays are shut
    down and the backend client has been stopped, and a relay that was
    open when the loop started has its sockets out of the table.  The
    goroutines that wait for the backends are left waiting.  When no
    worker of a relay has failed before, both relays of every session
    that was in the map are closed with their sockets out of the
    table. *)
Theorem StopServer_stops_every_session env cfg CodeStartSession CodeStopSession
    fmt_code fmt_val evs st calls keys :
  run_events env cfg CodeStartSession CodeStopSession fmt_code fmt_val
    evs empty_state = Some (st, calls) →
  keys ≡ₚ (map_to_list (sessions st)).*1 →
  ∃ st',
    StopServer_range keys st = Some st'
    ∧ sessions st' = ∅
    ∧ (∀ k s, sessions st !! k = Some s →
         shut_down (rtpProxy s) (world st') ∧ shut_down (rtcpProxy s) (world st')
         ∧ (live (rtpProxy s) (world st) → closed (rtpProxy s) (world st'))
         ∧ (live (rtcpProxy s) (world st) → closed (rtcpProxy s) (world st'))
         ∧ backend_stopped s st')
    ∧ watchers st' = watchers st
    ∧ (workers_quiet evs →
       ∀ k s, sessions st !! k = Some s →
         closed (rtpProxy s) (world st') ∧ closed (rtcpProxy s) (world st')
         ∧ backend_stopped s st').
Proof.
  intros Hrun Hperm.
  pose proof (reachable_consistent _ _ _ _ _ _ _ _ _ Hrun) as Hcons.
  assert (Hin : ∀ k, k ∈ keys ↔ is_Some (sessions st !! k)).
  { intros k. rewrite Hperm, list_elem_of_fmap. split.
    - intros ([k' s] & -> & Hks). exists s. by apply elem_of_map_to_list.
    - intros [s Hs]. exists (k, s). split; [done|]. by apply elem_of_map_to_list. }
  destruct (StopServer_range_effect keys st Hcons)
    as (st' & Hstop & _ & Hws & _ & Hlook & Hrel & Hstopped & _).
  { rewrite Hperm. apply NoDup_fst_map_to_list. }
  { intros k. apply Hin. }
  assert (Heach : ∀ k s, sessions st !! k = Some s →
            shut_down (rtpProxy s) (world st') ∧ shut_down (rtcpProxy s) (world st')
            ∧ (live (rtpProxy s) (world st) → closed (rtpProxy s) (world st'))
            ∧ (live (rtcpProxy s) (world st) → closed (rtcpProxy s) (world st'))
            ∧ backend_stopped s st').
  { intros k s Hk.
    assert (Hkin : k ∈ keys) by (apply Hin; by rewrite Hk).
    destruct (Hrel k s (rtpProxy s) Hkin Hk) as [Hs1 Hc1];
      [apply elem_of_relays; tauto|].
    destruct (Hrel k s (rtcpProxy s) Hkin Hk) as [Hs2 Hc2];
      [apply elem_of_relays; tauto|].
    split; [done|]. split; [done|]. split; [done|]. split; [done|].
    by apply (Hstopped k s). }
  exists st'. split; [done|]. split; [|split; [done|split; [done|]]].
  - apply map_empty. intros k. rewrite Hlook.
    destruct (decide (k ∈ keys)) as [|Hn]; [done|].
    destruct (sessions st !! k) eqn:Hk; [|done].
    exfalso. apply Hn, Hin. by rewrite Hk.
  - intros Hquiet k s Hk.
    pose proof (reachable_relays_open _ _ _ _ _ _ _ _ _ Hquiet Hrun) as Hopen.
    destruct (Hopen k s Hk) as [Hl1 Hl2].
    destruct (Heach k s Hk) as (_ & _ & Hc1 & Hc2 & Hb).
    split; [by apply Hc1|]. split; [by apply Hc2|done].
Qed.

Lemma StopServer_stops_every_session_witness :
  TestAmp.run [EvRequest TestAmp.start_packet; EvRequest TestAmp.start_packet2]
    empty_state
  = Some (TestAmp.two_sessions, [ReplyCheck None; ReplyCheck None])
  ∧ reverse (map_to_list (sessions TestAmp.two_sessions)).*1
    ≡ₚ (map_to_list (sessions TestAmp.two_sessions)).*1
  ∧ ∃ st',
      StopServer_range (reverse (map_to_list (sessions TestAmp.two_sessions)).*1)
        TestAmp.two_sessions = Some st'
      ∧ sessions st' = ∅.
Proof.
  assert (Hrun : TestAmp.run
                   [EvRequest TestAmp.start_packet; EvRequest TestAmp.start_packet2]
                   empty_state
                 = Some (TestAmp.two_sessions, [ReplyCheck None; ReplyCheck None]))
    by (vm_compute; reflexivity).
  assert (Hperm : reverse (map_to_list (sessions TestAmp.two_sessions)).*1
                    ≡ₚ (map_to_list (sessions TestAmp.two_sessions)).*1)
    by apply reverse_Permutation.
  split; [exact Hrun|]. split; [exact Hperm|].
  destruct (StopServer_stops_every_session _ _ _ _ _ _ _ _ _ _ Hrun Hperm)
    as (st' & Hstop & Hm & _).
  exists st'. split; [exact Hstop|exact Hm].
Defined.

(** X14.  A start request when no port is free.  If for no candidate
    port of the range 20000..50000 both relays bind, [startSession]
    returns the exhaustion error of the allocator unchanged (it names
    port 50002); no session is registered, no backend client is started,
    no goroutine is left behind, and the socket table and the relays
    that existed are as before. *)
Theorem startSession_without_free_ports env cfg desc st :
  sessions st !! JoinHostPort (ReceiverHost desc) (Itoa (Port_ desc)) = None →
  (∀ k, (k < pair_fuel)%nat →
        pair_binds (net env) (proxyHost cfg)
          (JoinHostPort (ReceiverHost desc) (Itoa (Port_ desc)))
          (JoinHostPort (ReceiverHost desc) (Itoa (int_add (Port_ desc) 1)))
          (candidate minPort k) (socks (world st)) = false) →
  ∃ st',
    startSession env cfg desc st = Some (st', Some (range_error 50002 maxPort))
    ∧ sessions st' = sessions st
    ∧ backends st' = backends st
    ∧ watchers st' = watchers st
    ∧ socks (world st') = socks (world st)
    ∧ (∀ l p, proxies (world st) !! l = Some p → proxies (world st') !! l = Some p).
Proof.
  intros Hnone Hfull.
  destruct (AllocFacts.loop_first_fit (net env) (proxyHost cfg)
              (JoinHostPort (ReceiverHost desc) (Itoa (Port_ desc)))
              (JoinHostPort (ReceiverHost desc) (Itoa (int_add (Port_ desc) 1)))
              maxPort pair_fuel AmpFacts.maxPort_in_range minPort (world st)
              AmpFacts.minPort_in_range (Nat.le_refl _))
    as (w' & [[r1 r2] err] & Hrun & _ & Hres).
  simpl in Hres. destruct err as [e|].
  - destruct Hres as (_ & He & Hss).
    assert (Hq : candidate minPort (attempts minPort maxPort) = 50002)
      by (vm_compute; reflexivity).
    rewrite Hq in He. subst e.
    destruct (AllocFacts.loop_frame _ _ _ _ _ _ _ _ _ _ _ Hrun) as [Hkeep _].
    exists (set_world w' st). unfold startSession. rewrite Hnone.
    unfold NewUdpProxyPair. rewrite Hrun.
    split; [reflexivity|]. split; [reflexivity|]. split; [reflexivity|].
    split; [reflexivity|]. split; [exact Hss|exact Hkeep].
  - destruct Hres as (k & l1 & l2 & p1 & p2 & Hk & Hbind & _).
    rewrite Hfull in Hbind; [done|exact Hk].
Qed.

Lemma startSession_without_free_ports_witness :
  sessions empty_state !! JoinHostPort "127.0.0.1" (Itoa 6000) = None
  ∧ (∀ k, (k < pair_fuel)%nat →
          pair_binds (net TestAmp.env_full) "127.0.0.1"
            (JoinHostPort "127.0.0.1" (Itoa 6000))
            (JoinHostPort "127.0.0.1" (Itoa (int_add 6000 1)))
            (candidate minPort k) (socks empty_world) = false)
  ∧ ∃ st',
      startSession TestAmp.env_full TestNet.cfg TestNet.start_desc empty_state
      = Some (st', Some "Failed to allocate UDP proxy pair in port range 50002-50000")
      ∧ sessions st' = ∅ ∧ socks (world st') = ∅.
Proof.
  assert (Hnone : sessions empty_state !! JoinHostPort "127.0.0.1" (Itoa 6000) = None)
    by reflexivity.
  assert (Hfull : ∀ k, (k < pair_fuel)%nat →
            pair_binds (net TestAmp.env_full) "127.0.0.1"
              (JoinHostPort "127.0.0.1" (Itoa 6000))
              (JoinHostPort "127.0.0.1" (Itoa (int_add 6000 1)))
              (candidate minPort k) (socks empty_world) = false).
  { intros k _. unfold pair_binds, NewUdpProxy.
    change (ResolveUDPAddr (net TestAmp.env_full)) with TestNet.resolve.
    destruct (TestNet.resolve (JoinHostPort "127.0.0.1" (Itoa (candidate minPort k))));
      [reflexivity|].
    destruct (TestNet.resolve (JoinHostPort "127.0.0.1" (Itoa 6000))); reflexivity. }
  split; [exact Hnone|]. split; [exact Hfull|].
  destruct (startSession_without_free_ports TestAmp.env_full TestNet.cfg
              TestNet.start_desc empty_state Hnone Hfull)
    as (st' & Hstart & Hm & _ & _ & Hss & _).
  exists st'. split; [exact Hstart|]. split; [exact Hm|exact Hss].
Defined.

(** X15.  A watcher that resumes late removes the wrong session.
    [cleanupSession] deletes the map entry by client key, whichever
    session is filed under it.  So when the goroutine of a session [s]
    that has left the map resumes while a newer session [s2] of the same
    client is in the map, the entry of [s2] is deleted: a stop request
    for the client is then answered "Session not found", although the
    relays of [s2] are untouched (those that were open are still open)
    and its backend client is still running.  When no worker of a relay
    has failed, both relays of [s2] are open afterwards. *)
Theorem late_watcher_unregisters_newer_session env cfg CodeStartSession CodeStopSession
    fmt_code fmt_val evs st calls s s2 :
  run_events env cfg CodeStartSession CodeStopSession fmt_code fmt_val
    evs empty_state = Some (st, calls) →
  s ∈ watchers st →
  sessions st !! client s = Some s2 →
  s ≠ s2 →
  ∃ st',
    backend_ended cfg s st = Some st'
    ∧ sessions st' !! client s = None
    ∧ (∀ l, l ∈ relays s2 →
         proxies (world st') !! l = proxies (world st) !! l
         ∧ (live l (world st) → live l (world st')))
    ∧ backend_running s2 st'
    ∧ s2 ∈ watchers st'
    ∧ (∀ desc,
         JoinHostPort (StopReceiverHost desc) (Itoa (StopPort desc)) = client s →
         stopSession desc st' = Some (st', Some (session_not_found_error (client s))))
    ∧ (workers_quiet evs →
       live (rtpProxy s2) (world st') ∧ live (rtcpProxy s2) (world st')).
Proof.
  intros Hrun Hs Hs2 Hne.
  pose proof (reachable_consistent _ _ _ _ _ _ _ _ _ Hrun) as Hcons.
  pose proof Hcons as (Hown & Hmap & Hptr & Hdist).
  destruct (Hmap _ s2 Hs2) as (_ & (b2 & Hb2 & Hrun2) & Hw2).
  destruct (Hdist s2 s Hw2 Hs (not_eq_sym Hne)) as [Hbne Hrel].
  destruct (Hptr s Hs) as (Hb & Hrtp & Hrtcp & _).
  destruct (Hptr s2 Hw2) as (_ & Hrtp2 & Hrtcp2 & _).
  destruct (watcher_removed_returns s _ Hs) as [ws Hrem].
  destruct (watcher_removed_elem _ _ _ Hrem) as (_ & _ & Hkeep).
  destruct (cleanupSession_effect s st Hown Hb Hrtp Hrtcp)
    as (st1 & b & Hc & Hbl & Hbs & Hm & _ & _ & _ & _ & _ & Hframe & Hlive & _).
  rewrite backend_ended_cleanup, Hrem. simpl. rewrite Hc. simpl.
  eexists. split; [done|]. simpl.
  assert (Hgone : sessions st1 !! client s = None)
    by (rewrite Hm; apply lookup_delete_eq).
  assert (Hout : ∀ l, l ∈ relays s2 → l ∉ relays s).
  { intros l Hl Hin. by apply (Hrel l). }
  assert (Hkept : ∀ l, l ∈ relays s2 →
            proxies (world st1) !! l = proxies (world st) !! l
            ∧ (live l (world st) → live l (world st1))).
  { intros l Hl. split; [|by apply Hlive, Hout].
    assert (Hlt : (l < length (proxies (world st)))%nat)
      by (by apply elem_of_relays in Hl as [->| ->]).
    destruct (lookup_lt_is_Some_2 _ _ Hlt) as [p Hp].
    rewrite Hp. by apply Hframe; [apply Hout|]. }
  split; [done|]. split; [done|].
  split.
  { exists b2. simpl. rewrite Hbs. by rewrite list_lookup_insert_ne. }
  split; [simpl; apply Hkeep; [done|by apply not_eq_sym]|].
  split.
  { intros desc Hkey. unfold stopSession. simpl. rewrite Hkey, Hgone. done. }
  intros Hquiet.
  pose proof (reachable_relays_open _ _ _ _ _ _ _ _ _ Hquiet Hrun) as Hopen.
  destruct (Hopen _ s2 Hs2) as [Hl1 Hl2].
  split.
  - apply (Hkept (rtpProxy s2)); [apply elem_of_relays; tauto|done].
  - apply (Hkept (rtcpProxy s2)); [apply elem_of_relays; tauto|done].
Qed.

Lemma late_watcher_unregisters_newer_session_witness :
  TestAmp.run [EvRequest TestAmp.start_packet; EvRequest TestAmp.stop_packet;
               EvRequest TestAmp.start_packet] empty_state
  = Some (TestAmp.restarted, [ReplyCheck None; ReplyCheck None; ReplyCheck None])
  ∧ TestNet.session0 ∈ watchers TestAmp.restarted
  ∧ sessions TestAmp.restarted !! client TestNet.session0 = Some TestAmp.session1
  ∧ TestNet.session0 ≠ TestAmp.session1
  ∧ ∃ st',
      backend_ended TestNet.cfg TestNet.session0 TestAmp.restarted = Some st'
      ∧ sessions st' !! "127.0.0.1:6000" = None
      ∧ live 2 (world st') ∧ live 3 (world st').
Proof.
  assert (Hrun : TestAmp.run [EvRequest TestAmp.start_packet;
                              EvRequest TestAmp.stop_packet;
                              EvRequest TestAmp.start_packet] empty_state
                 = Some (TestAmp.restarted,
                         [ReplyCheck None; ReplyCheck None; ReplyCheck None]))
    by (vm_compute; reflexivity).
  assert (Hw : TestNet.session0 ∈ watchers TestAmp.restarted) by (by left).
  assert (Hm : sessions TestAmp.restarted !! client TestNet.session0
               = Some TestAmp.session1) by (vm_compute; reflexivity).
  assert (Hne : TestNet.session0 ≠ TestAmp.session1) by discriminate.
  assert (Hquiet : workers_quiet [EvRequest TestAmp.start_packet;
                                  EvRequest TestAmp.stop_packet;
                                  EvRequest TestAmp.start_packet]).
  { intros l err Hin. apply elem_of_cons in Hin as [Hin|Hin]; [discriminate|].
    apply elem_of_cons in Hin as [Hin|Hin]; [discriminate|].
    apply elem_of_cons in Hin as [Hin|Hin]; [discriminate|].
    by apply elem_of_nil in Hin. }
  split; [exact Hrun|]. split; [exact Hw|]. split; [exact Hm|]. split; [exact Hne|].
  destruct (late_watcher_unregisters_newer_session _ _ _ _ _ _ _ _ _ _ _ Hrun Hw Hm Hne)
    as (st' & Hend & Hgone & _ & _ & _ & _ & Hlive).
  destruct (Hlive Hquiet) as [Hl1 Hl2].
  exists st'. split; [exact Hend|]. split; [exact Hgone|]. split; [exact Hl1|exact Hl2].
Defined.

(** X16.  The watcher after a stop request does no harm.  A stop
    request for a session in the map returns nil; when the goroutine of
    that session resumes afterwards (its backend has been stopped), it
    runs [cleanupSession] a second time, and this changes neither the
    relays nor the socket table nor the backends nor the map: the state
    differs only by the goroutine that is gone and the call of the
    ended-callback, if one is set. *)
Theorem watcher_after_stop_changes_nothing env cfg CodeStartSession CodeStopSession
    fmt_code fmt_val evs st calls desc s :
  run_events env cfg CodeStartSession CodeStopSession fmt_code fmt_val
    evs empty_state = Some (st, calls) →
  sessions st !! JoinHostPort (StopReceiverHost desc) (Itoa (StopPort desc)) = Some s →
  ∃ st1 st2,
    stopSession desc st = Some (st1, None)
    ∧ backend_ended cfg s st1 = Some st2
    ∧ world st2 = world st1
    ∧ backends st2 = backends st1
    ∧ sessions st2 = sessions st1
    ∧ hook_calls st2
      = hook_calls st1
        ++ (if RtspEndedCallback cfg then [HookEnded (backend s)] else []).
Proof.
  intros Hcons%reachable_consistent Hk.
  pose proof Hcons as (Hown & Hmap & Hptr & _).
  destruct (Hmap _ s Hk) as (Hcl & _ & Hw).
  destruct (Hptr s Hw) as (Hb & Hrtp & Hrtcp & _).
  destruct (stopSession_effect desc st Hcons) as (st1 & r & Hstop & Hcons1 & Hws & Hcase).
  rewrite Hk in Hcase. destruct Hcase as (-> & Hc & Hm1).
  destruct (cleanupSession_effect s st Hown Hb Hrtp Hrtcp)
    as (st1' & b & Hc' & Hbl & Hbs & _ & _ & _ & _ & _ & _ & _ & _ & _ & Hshut & _).
  rewrite Hc in Hc'. inversion Hc'; subst st1'; clear Hc'.
  pose proof Hcons1 as (Hown1 & _ & Hptr1 & _).
  assert (Hw1 : s ∈ watchers st1) by (by rewrite Hws).
  destruct (Hptr1 s Hw1) as (Hb1 & Hrtp1 & Hrtcp1 & _).
  destruct (watcher_removed_returns s _ Hw1) as [ws Hrem].
  destruct (cleanupSession_effect s st1 Hown1 Hb1 Hrtp1 Hrtcp1)
    as (st2 & b1 & Hc2 & Hbl1 & Hbs2 & Hm2 & _ & _ & _ & _ & _ & _ & _ & _ & _ & _ & Hnoop).
  exists st1. eexists. split; [done|].
  rewrite backend_ended_cleanup, Hrem. simpl. rewrite Hc2. simpl.
  split; [done|]. simpl.
  split; [by apply Hnoop|].
  split.
  { rewrite Hbs2. apply list_insert_id. rewrite Hbl1. f_equal.
    rewrite Hbs, list_lookup_insert_eq in Hbl1 by done.
    inversion Hbl1. by destruct b. }
  split; [|done].
  rewrite Hm2, Hm1, Hcl. apply delete_delete_eq.
Qed.

Lemma watcher_after_stop_changes_nothing_witness :
  TestAmp.run [EvRequest TestAmp.start_packet] empty_state
  = Some (TestNet.started, [ReplyCheck None])
  ∧ sessions TestNet.started !! JoinHostPort "127.0.0.1" (Itoa 6000)
    = Some TestNet.session0
  ∧ ∃ st1 st2,
      stopSession TestNet.stop_desc TestNet.started = Some (st1, None)
      ∧ backend_ended TestNet.cfg TestNet.session0 st1 = Some st2
      ∧ world st2 = world st1 ∧ sessions st2 = sessions st1.
Proof.
  assert (Hrun : TestAmp.run [EvRequest TestAmp.start_packet] empty_state
                 = Some (TestNet.started, [ReplyCheck None]))
    by (vm_compute; reflexivity).
  assert (Hk : sessions TestNet.started
                 !! JoinHostPort (StopReceiverHost TestNet.stop_desc)
                      (Itoa (StopPort TestNet.stop_desc))
               = Some TestNet.session0) by (vm_compute; reflexivity).
  split; [exact Hrun|]. split; [exact Hk|].
  destruct (watcher_after_stop_changes_nothing _ _ _ _ _ _ _ _ _ _ _ Hrun Hk)
    as (st1 & st2 & Hstop & Hend & Hw & _ & Hm & _).
  exists st1, st2. split; [exact Hstop|]. split; [exact Hend|].
  split; [exact Hw|exact Hm].
Defined.

(** X17.  The map counts the accepted requests.  Over any sequence of
    requests handled one after the other, with no watcher resuming in
    between, the number of sessions in the map grows by the number of
    start requests answered with [ReplyCheck(nil)] and shrinks by the
    number of stop requests answered with [ReplyCheck(nil)]; requests
    that are refused, malformed or of an unknown code do not change
    it. *)
Theorem map_size_counts_accepted_requests env cfg CodeStartSession CodeStopSession
    fmt_code fmt_val evs st calls requests st' log :
  run_events env cfg CodeStartSession CodeStopSession fmt_code fmt_val
    evs empty_state = Some (st, calls) →
  handle_all env cfg CodeStartSession CodeStopSession fmt_code fmt_val requests st = Some (st', log) →
  (size (sessions st') + accepted (is_stop CodeStartSession CodeStopSession) log
   = size (sessions st) + accepted (is_start CodeStartSession) log)%nat.
Proof.
  intros Hcons%reachable_consistent. by apply handle_all_count.
Qed.

Lemma map_size_counts_accepted_requests_witness :
  TestAmp.run [EvRequest TestAmp.start_packet] empty_state
  = Some (TestNet.started, [ReplyCheck None])
  ∧ handle_all (TestNet.amp_env [] true) TestNet.cfg
      TestAmp.CodeStartSession TestAmp.CodeStopSession Itoa TestAmp.fmt_val
      TestAmp.requests TestNet.started
    = Some (TestAmp.handled_state, TestAmp.handled_log)
  ∧ TestAmp.handled_log.*2
    = [ReplyCheck (Some "Session already exists for client 127.0.0.1:6000");
       ReplyCheck None; ReplyCheck None;
       ReplyCheck (Some "Session not found for client 127.0.0.1:6000");
       LogError "Received unexpected AMP code: 7"]
  ∧ (size (sessions TestAmp.handled_state) + 1 = 1 + 1)%nat.
Proof.
  assert (Hrun : TestAmp.run [EvRequest TestAmp.start_packet] empty_state
                 = Some (TestNet.started, [ReplyCheck None]))
    by (vm_compute; reflexivity).
  assert (Hall : handle_all (TestNet.amp_env [] true) TestNet.cfg
                   TestAmp.CodeStartSession TestAmp.CodeStopSession Itoa TestAmp.fmt_val
                   TestAmp.requests TestNet.started
                 = Some (TestAmp.handled_state, TestAmp.handled_log))
    by (vm_compute; reflexivity).
  split; [exact Hrun|]. split; [exact Hall|]. split; [vm_compute; reflexivity|].
  pose proof (map_size_counts_accepted_requests _ _ _ _ _ _ _ _ _ _ _ _ Hrun Hall)
    as Hcount.
  assert (Ha : accepted (is_stop TestAmp.CodeStartSession TestAmp.CodeStopSession)
                 TestAmp.handled_log = 1%nat) by (vm_compute; reflexivity).
  assert (Hb : accepted (is_start TestAmp.CodeStartSession) TestAmp.handled_log = 1%nat)
    by (vm_compute; reflexivity).
  assert (Hc : size (sessions TestNet.started) = 1%nat) by (vm_compute; reflexivity).
  rewrite Ha, Hb, Hc in Hcount. exact Hcount.
Defined.

(** X18.  The proxy does not get stuck.  In every state the proxy can
    reach, [HandleRequest] returns for every packet, the goroutine of
    every session that is still watched runs to its end when it resumes,
    and [StopServer] returns for every order of the keys: no cleanup
    dereferences a session whose backend or relay is missing, and no
    [Close] blocks on the notification channel of a relay that has been
    closed before. *)
Theorem proxy_never_stuck env cfg CodeStartSession CodeStopSession
    fmt_code fmt_val evs st calls :
  run_events env cfg CodeStartSession CodeStopSession fmt_code fmt_val
    evs empty_state = Some (st, calls) →
  (∀ request, is_Some (HandleRequest env cfg CodeStartSession CodeStopSession fmt_code fmt_val request st))
  ∧ (∀ s, s ∈ watchers st → is_Some (backend_ended cfg s st))
  ∧ (∀ keys, is_Some (StopServer_range keys st)).
Proof.
  intros Hcons%reachable_consistent. split; [|split].
  - intros request.
    destruct (HandleRequest_effect env cfg CodeStartSession CodeStopSession
                fmt_code fmt_val request st Hcons) as (st' & call & -> & _).
    by eexists.
  - intros s Hs. by apply backend_ended_returns.
  - intros keys. destruct (StopServer_range_returns keys st Hcons) as (st' & -> & _).
    by eexists.
Qed.

Lemma proxy_never_stuck_witness :
  TestAmp.run [EvRequest TestAmp.start_packet; EvRequest TestAmp.stop_packet;
               EvRequest TestAmp.start_packet] empty_state
  = Some (TestAmp.restarted, [ReplyCheck None; ReplyCheck None; ReplyCheck None])
  ∧ is_Some (TestAmp.handle TestAmp.stop_packet TestAmp.restarted)
  ∧ is_Some (backend_ended TestNet.cfg TestNet.session0 TestAmp.restarted)
  ∧ is_Some (StopServer_range ["127.0.0.1:6000"; "127.0.0.1:6000"] TestAmp.restarted).
Proof.
  assert (Hrun : TestAmp.run [EvRequest TestAmp.start_packet;
                              EvRequest TestAmp.stop_packet;
                              EvRequest TestAmp.start_packet] empty_state
                 = Some (TestAmp.restarted,
                         [ReplyCheck None; ReplyCheck None; ReplyCheck None]))
    by (vm_compute; reflexivity).
  split; [exact Hrun|].
  destruct (proxy_never_stuck _ _ _ _ _ _ _ _ _ Hrun) as (Hreq & Hend & Hall).
  split; [exact (Hreq TestAmp.stop_packet)|].
  split; [apply Hend; by left|exact (Hall _)].
Defined.

End AmpServerFacts.

(* ===================================================================== *)
(** * Properties of the load statistics                                   *)
(* ===================================================================== *)

Module LoadFacts.

Import Go Load.

Lemma uint_wrap_small z : 0 ≤ z < uint_modulus → uint_wrap z = z.
Proof. intros Hz. unfold uint_wrap. by apply Z.mod_small. Qed.

Lemma total_app xs ys : total (xs ++ ys) = total xs + total ys.
Proof.
  unfold total. induction xs as [|x xs IH]; simpl; [done|]. rewrite IH. lia.
Qed.

Lemma handle_loads_app PacketSize vals1 vals2 stats :
  handle_loads PacketSize (vals1 ++ vals2) stats
  = handle_loads PacketSize vals2 (handle_loads PacketSize vals1 stats).
Proof. unfold handle_loads. by rewrite foldl_app. Qed.

(** X19.  Packets that arrive in order are accounted for.  When every
    load packet carries a sequence number that is at least the one the
    counter expects (and below the largest [uint]), the handler adds
    [PacketSize] to [Received] once per packet, logs no error, and what
    it adds to [Missed] is the number of sequence numbers that were
    skipped: packets received plus packets missed make up the distance
    the counter has moved. *)
Theorem in_order_packets_accounted PacketSize packets :
  ∀ stats,
    0 ≤ seq stats < uint_modulus →
    in_order (seq stats) packets →
    seq stats ≤ seq (handle_loads PacketSize (ValLoad <$> packets) stats) < uint_modulus
    ∧ Received (handle_loads PacketSize (ValLoad <$> packets) stats)
      = Received stats ++ replicate (length packets) PacketSize
    ∧ total (Missed (handle_loads PacketSize (ValLoad <$> packets) stats))
      + Z.of_nat (length packets) + seq stats
      = total (Missed stats) + seq (handle_loads PacketSize (ValLoad <$> packets) stats)
    ∧ logged (handle_loads PacketSize (ValLoad <$> packets) stats) = logged stats.
Proof.
  induction packets as [|packet packets IH]; intros stats Hseq Hord.
  { simpl. rewrite app_nil_r. repeat split; try done; lia. }
  destruct Hord as [[Hlo Hhi] Hord].
  assert (Hnext : uint_wrap (Seq packet + 1) = Seq packet + 1)
    by (apply uint_wrap_small; lia).
  assert (Hone : ∃ missed,
            addPacket PacketSize packet stats
            = mkLoadStats (Seq packet + 1) (Received stats ++ [PacketSize])
                (Missed stats ++ missed) (logged stats)
            ∧ total missed = Seq packet - seq stats).
  { unfold addPacket. rewrite Hnext.
    destruct (Z.ltb_spec (seq stats) (Seq packet)) as [Hlt|Hge].
    - exists [uint_wrap (Seq packet - seq stats)]. split; [done|].
      rewrite uint_wrap_small by lia. unfold total. simpl. lia.
    - assert (seq stats = Seq packet) as Heq by lia.
      destruct (Z.gtb_spec (seq stats) (Seq packet)) as [Hgt|_]; [lia|].
      exists []. rewrite app_nil_r. split; [done|]. unfold total. simpl. lia. }
  destruct Hone as (missed & Hadd & Hmissed).
  change (handle_loads PacketSize (ValLoad <$> packet :: packets) stats)
    with (handle_loads PacketSize (ValLoad <$> packets)
            (addPacket PacketSize packet stats)).
  rewrite Hadd.
  destruct (IH (mkLoadStats (Seq packet + 1) (Received stats ++ [PacketSize])
                  (Missed stats ++ missed) (logged stats)))
    as (Hs & Hr & Ht & Hl); simpl; [lia|done|].
  simpl in Hs, Hr, Ht, Hl. rewrite total_app in Ht.
  split; [lia|]. split; [by rewrite Hr, <- app_assoc|]. split; [|done].
  rewrite Nat2Z.inj_succ. lia.
Qed.

Lemma in_order_packets_accounted_witness :
  0 ≤ seq new_stats < uint_modulus
  ∧ in_order (seq new_stats) (mkLoadPacket <$> [0; 1; 4; 5; 9])
  ∧ Received (handle_loads 1400 (ValLoad <$> (mkLoadPacket <$> [0; 1; 4; 5; 9])) new_stats)
    = [1400; 1400; 1400; 1400; 1400]
  ∧ total (Missed (handle_loads 1400 (ValLoad <$> (mkLoadPacket <$> [0; 1; 4; 5; 9]))
                     new_stats)) + 5 + 0
    = 0 + 10.
Proof.
  assert (Hseq : 0 ≤ seq new_stats < uint_modulus) by (vm_compute; split; [discriminate|reflexivity]).
  assert (Hord : in_order (seq new_stats) (mkLoadPacket <$> [0; 1; 4; 5; 9])).
  { vm_compute. repeat split; (discriminate || reflexivity). }
  split; [exact Hseq|]. split; [exact Hord|].
  destruct (in_order_packets_accounted 1400 _ new_stats Hseq Hord)
    as (_ & Hr & Ht & _).
  split; [exact Hr|exact Ht].
Defined.

(** X20.  A packet from the past rewinds the counter.  A load packet
    whose sequence number lies below the counter is logged as a
    "Load sequence jump", adds nothing to [Missed], and sets the counter
    to its own number plus one.  The packet the counter was waiting for
    would have added nothing to [Missed]; arriving after the old packet,
    it adds the numbers in between, which had been received before. *)
Theorem old_packet_rewinds_counter PacketSize stats old next :
  0 ≤ Seq old →
  Seq old + 1 < seq stats →
  seq stats < uint_modulus - 1 →
  Seq next = seq stats →
  addPacket PacketSize old stats
  = mkLoadStats (Seq old + 1) (Received stats ++ [PacketSize]) (Missed stats)
      (logged stats ++ [jump_error (seq stats) (Seq old)])
  ∧ Missed (addPacket PacketSize next stats) = Missed stats
  ∧ logged (addPacket PacketSize next stats) = logged stats
  ∧ Missed (addPacket PacketSize next (addPacket PacketSize old stats))
    = Missed stats ++ [seq stats - (Seq old + 1)].
Proof.
  intros Hold Hlt Hmax Hnext.
  assert (Hadd : addPacket PacketSize old stats
                 = mkLoadStats (Seq old + 1) (Received stats ++ [PacketSize])
                     (Missed stats)
                     (logged stats ++ [jump_error (seq stats) (Seq old)])).
  { unfold addPacket. rewrite uint_wrap_small by lia.
    destruct (Z.ltb_spec (seq stats) (Seq old)); [lia|].
    destruct (Z.gtb_spec (seq stats) (Seq old)); [done|lia]. }
  split; [done|]. rewrite Hadd.
  unfold addPacket. simpl. rewrite Hnext.
  rewrite Z.ltb_irrefl.
  destruct (Z.gtb_spec (seq stats) (seq stats)); [lia|].
  destruct (Z.ltb_spec (Seq old + 1) (seq stats)); [|lia].
  simpl. rewrite uint_wrap_small by lia. done.
Qed.

Lemma old_packet_rewinds_counter_witness :
  0 ≤ Seq (mkLoadPacket 3)
  ∧ Seq (mkLoadPacket 3) + 1 < seq (mkLoadStats 10 [] [] [])
  ∧ seq (mkLoadStats 10 [] [] []) < uint_modulus - 1
  ∧ Missed (addPacket 1400 (mkLoadPacket 10) (mkLoadStats 10 [] [] [])) = []
  ∧ handle_loads 1400 [ValLoad (mkLoadPacket 3); ValLoad (mkLoadPacket 10)]
      (mkLoadStats 10 [] [] [])
    = mkLoadStats 11 [1400; 1400] [6] ["Load sequence jump: 10 -> 3"].
Proof.
  assert (H1 : 0 ≤ Seq (mkLoadPacket 3)) by (vm_compute; discriminate).
  assert (H2 : Seq (mkLoadPacket 3) + 1 < seq (mkLoadStats 10 [] [] []))
    by (vm_compute; reflexivity).
  assert (H3 : seq (mkLoadStats 10 [] [] []) < uint_modulus - 1)
    by (vm_compute; reflexivity).
  split; [exact H1|]. split; [exact H2|]. split; [exact H3|].
  destruct (old_packet_rewinds_counter 1400 (mkLoadStats 10 [] [] [])
              (mkLoadPacket 3) (mkLoadPacket 10) H1 H2 H3 eq_refl)
    as (_ & Hm & _).
  split; [exact Hm|]. vm_compute. reflexivity.
Defined.

(** X21.  Payloads that are not load packets are only logged.  Over any
    sequence of packets, the counter and what has been added to
    [Received] and [Missed] are what the load packets among them give by
    themselves; every other payload adds one error to the log and
    nothing else. *)
Theorem other_payloads_only_logged PacketSize vals stats :
  seq (handle_loads PacketSize vals stats)
  = seq (handle_loads PacketSize (ValLoad <$> loads vals) stats)
  ∧ Received (handle_loads PacketSize vals stats)
    = Received (handle_loads PacketSize (ValLoad <$> loads vals) stats)
  ∧ Missed (handle_loads PacketSize vals stats)
    = Missed (handle_loads PacketSize (ValLoad <$> loads vals) stats)
  ∧ length (logged (handle_loads PacketSize vals stats))
    = (length (logged (handle_loads PacketSize (ValLoad <$> loads vals) stats))
       + (length vals - length (loads vals)))%nat.
Proof.
  assert (Hgen : ∀ vals stats1 stats2 k,
            seq stats1 = seq stats2 → Received stats1 = Received stats2 →
            Missed stats1 = Missed stats2 →
            length (logged stats1) = (length (logged stats2) + k)%nat →
            seq (handle_loads PacketSize vals stats1)
            = seq (handle_loads PacketSize (ValLoad <$> loads vals) stats2)
            ∧ Received (handle_loads PacketSize vals stats1)
              = Received (handle_loads PacketSize (ValLoad <$> loads vals) stats2)
            ∧ Missed (handle_loads PacketSize vals stats1)
              = Missed (handle_loads PacketSize (ValLoad <$> loads vals) stats2)
            ∧ length (logged (handle_loads PacketSize vals stats1))
              = (length (logged (handle_loads PacketSize (ValLoad <$> loads vals) stats2))
                 + (k + (length vals - length (loads vals))))%nat
            ∧ (length (loads vals) ≤ length vals)%nat).
  { clear vals stats.
    induction vals as [|val vals IH]; intros stats1 stats2 k Hs Hr Hm Hl.
    { simpl. repeat split; try done; lia. }
    destruct val as [load|shown].
    - change (loads (ValLoad load :: vals)) with (load :: loads vals).
      change (handle_loads PacketSize (ValLoad load :: vals) stats1)
        with (handle_loads PacketSize vals (addPacket PacketSize load stats1)).
      change (handle_loads PacketSize (ValLoad <$> load :: loads vals) stats2)
        with (handle_loads PacketSize (ValLoad <$> loads vals)
                (addPacket PacketSize load stats2)).
      destruct (IH (addPacket PacketSize load stats1)
                  (addPacket PacketSize load stats2) k)
        as (Hs' & Hr' & Hm' & Hl' & Hle).
      + unfold addPacket. rewrite Hs.
        destruct (seq stats2 <? Seq load); [done|].
        by destruct (seq stats2 >? Seq load).
      + unfold addPacket. rewrite Hs, Hr.
        destruct (seq stats2 <? Seq load); [done|].
        by destruct (seq stats2 >? Seq load).
      + unfold addPacket. rewrite Hs, Hm.
        destruct (seq stats2 <? Seq load); [done|].
        by destruct (seq stats2 >? Seq load).
      + unfold addPacket. rewrite Hs.
        destruct (seq stats2 <? Seq load); [done|].
        destruct (seq stats2 >? Seq load); [|done].
        simpl. rewrite !length_app. simpl. lia.
      + split; [done|]. split; [done|]. split; [done|]. simpl. split; lia.
    - change (loads (ValNotLoad shown :: vals)) with (loads vals).
      change (handle_loads PacketSize (ValNotLoad shown :: vals) stats1)
        with (handle_loads PacketSize vals
                (handleLoad PacketSize (ValNotLoad shown) stats1)).
      destruct (IH (handleLoad PacketSize (ValNotLoad shown) stats1) stats2 (S k))
        as (Hs' & Hr' & Hm' & Hl' & Hle); [done|done|done| |].
      + simpl. rewrite length_app. simpl. lia.
      + split; [done|]. split; [done|]. split; [done|]. simpl in *. split; lia. }
  destruct (Hgen vals stats stats 0%nat) as (Hs & Hr & Hm & Hl & _);
    [done|done|done|lia|].
  split; [done|]. split; [done|]. split; [done|]. rewrite Hl. lia.
Qed.

End LoadFacts.
